(** * CPU scheduler simulator: a shallow embedding of [sheduler.py]

    The Python module keeps a list of mutable [Process] objects and four
    scheduling functions that mutate them in place and return a Gantt
    chart.  The embedding keeps the caller's list as a store addressed by
    position: a Python reference to the object at position [i] of
    [processes] is the index [i], an attribute assignment [p.f = v] is an
    update of the store at that index, and the private lists the
    algorithms build ([sorted(processes, ...)], [processes[:]], the ready
    queue) are lists of indices into the one shared store.  The elements
    of the caller's list are taken to be distinct objects.

    Python integers are unbounded: [Z].  Strings are compared the way
    Python compares them, lexicographically by code point, which for
    UTF-8 encoded strings is the lexicographic order on bytes.
    A float is a double; the finite ones, the only ones the module
    computes, are represented by their value, a rational (the two
    zeros, which compare equal, are one value), and the true division
    of [compute_metrics] is the quotient rounded to the nearest double,
    or [OverflowError] beyond the range of the doubles. *)

From Stdlib Require Import ZArith QArith Qround Qabs Qpower Lia Lqa.
From Stdlib Require OrderedTypeEx DecimalString.
From stdpp Require Import base list strings.

Local Open Scope Z_scope.

(** ** Data model *)

Record Process := mkProcess {
  pid : string;
  arrival_time : Z;
  burst_time : Z;
  priority : Z;
  start_time : option Z;
  completion_time : option Z;
  waiting_time : option Z;
  turnaround_time : option Z;
  remaining_time : option Z
}.

(** [GanttBlock = Tuple[int, int, str]] *)
Definition GanttBlock : Type := Z * Z * string.
Definition Timeline : Type := list GanttBlock.

Definition idle_label : string := "Idle".

(** What a call can do: return, raise, or (in the model only) exhaust the
    fuel that bounds a [while] loop. *)
Inductive exn := ValueError | TypeError | OverflowError | ZeroDivisionError.

Inductive outcome (A : Type) :=
| Returns (a : A)
| Raises (e : exn)
| Diverges.
Arguments Returns {A} a.
Arguments Raises {A} e.
Arguments Diverges {A}.

(** Sequencing: an exception of the first step is the outcome of the
    whole. *)
Definition and_then {A B} (x : outcome A) (f : A → outcome B) : outcome B :=
  match x with
  | Returns a => f a
  | Raises e => Raises e
  | Diverges => Diverges
  end.

(** Attribute assignments. *)
Definition set_start_time (v : option Z) (p : Process) : Process :=
  mkProcess (pid p) (arrival_time p) (burst_time p) (priority p)
            v (completion_time p) (waiting_time p) (turnaround_time p)
            (remaining_time p).
Definition set_completion_time (v : option Z) (p : Process) : Process :=
  mkProcess (pid p) (arrival_time p) (burst_time p) (priority p)
            (start_time p) v (waiting_time p) (turnaround_time p)
            (remaining_time p).
Definition set_waiting_time (v : option Z) (p : Process) : Process :=
  mkProcess (pid p) (arrival_time p) (burst_time p) (priority p)
            (start_time p) (completion_time p) v (turnaround_time p)
            (remaining_time p).
Definition set_turnaround_time (v : option Z) (p : Process) : Process :=
  mkProcess (pid p) (arrival_time p) (burst_time p) (priority p)
            (start_time p) (completion_time p) (waiting_time p) v
            (remaining_time p).
Definition set_remaining_time (v : option Z) (p : Process) : Process :=
  mkProcess (pid p) (arrival_time p) (burst_time p) (priority p)
            (start_time p) (completion_time p) (waiting_time p)
            (turnaround_time p) v.

(** The fields no operation is meant to touch. *)
Definition static_fields (p : Process) : string * Z * Z * Z :=
  (pid p, arrival_time p, burst_time p, priority p).

(** ** Python built-ins used by the module *)

(** Tuple comparison, [(a1, s1) < (a2, s2)] and the three-component one. *)
Definition pair_ltb (k1 k2 : Z * string) : bool :=
  (k1.1 <? k2.1) || ((k1.1 =? k2.1) && String.ltb k1.2 k2.2).

Definition triple_ltb (k1 k2 : Z * Z * string) : bool :=
  (k1.1.1 <? k2.1.1)
  || ((k1.1.1 =? k2.1.1)
      && ((k1.1.2 <? k2.1.2)
          || ((k1.1.2 =? k2.1.2) && String.ltb k1.2 k2.2))).

(** [sorted(xs, key=...)] is stable.  Insertion from the right, placing
    an element before the first one that is not smaller, is stable too,
    and a stable sort has one result. *)
Section Sorted.
Context {A K : Type} (ltb : K → K → bool) (key : A → K).

Fixpoint sorted_insert (x : A) (l : list A) : list A :=
  match l with
  | [] => [x]
  | y :: ys => if ltb (key y) (key x) then y :: sorted_insert x ys
               else x :: y :: ys
  end.

Fixpoint sorted (l : list A) : list A :=
  match l with
  | [] => []
  | x :: xs => sorted_insert x (sorted xs)
  end.

(** [min(xs, key=...)] keeps the first of the smallest elements. *)
Definition min_from (x : A) (xs : list A) : A :=
  fold_left (λ best y, if ltb (key y) (key best) then y else best) xs x.

Definition py_min (l : list A) : option A :=
  match l with
  | [] => None
  | x :: xs => Some (min_from x xs)
  end.
End Sorted.

(** [min] of a sequence of integers. *)
Definition min_int (l : list Z) : option Z := py_min Z.ltb id l.

(** [a / b] on integers is the quotient rounded to the nearest double,
    ties to the even mantissa: 53 bits of mantissa, the least unit
    [2^-1074], and [OverflowError] when the rounded quotient reaches
    [2^1024]. *)
Definition pow2 (e : Z) : Q := (2 ^ e)%Q.

(** The integer part of the binary logarithm of a positive rational. *)
Definition Qlog2 (q : Q) : Z :=
  let e := Z.log2 (Qnum q) - Z.log2 (Z.pos (Qden q)) in
  if Qle_bool (pow2 e) q then e else e - 1.

Definition round_half_even (q : Q) : Z :=
  let f := Qfloor q in
  match (q - inject_Z f ?= 1 # 2)%Q with
  | Lt => f
  | Gt => f + 1
  | Eq => if Z.even f then f else f + 1
  end.

(** The exponent of the unit in the last place of the doubles around
    [q]. *)
Definition float_exp (q : Q) : Z := Z.max (Qlog2 (Qabs q) - 52) (-1074).

Definition nearest_float (q : Q) : Q :=
  let ulp := pow2 (float_exp q) in
  Qred (inject_Z (round_half_even (q / ulp)) * ulp).

Definition py_true_div (a b : Z) : outcome Q :=
  if b =? 0 then Raises ZeroDivisionError
  else
    let x := nearest_float (inject_Z a / inject_Z b) in
    if Qle_bool (pow2 1024) (Qabs x) then Raises OverflowError
    else Returns x.

(** ** Helper functions *)

(** [reset_processes] *)
Definition reset_one (p : Process) : Process :=
  mkProcess (pid p) (arrival_time p) (burst_time p) (priority p)
            None None None None (Some (burst_time p)).

Definition reset_processes (processes : list Process) : list Process :=
  map reset_one processes.

(** [compute_metrics]: the loop body for one record, threading the two
    running totals. *)
Definition metrics_body (p : Process) (tw tt : Z) : Process * Z * Z :=
  match completion_time p with
  | None => (p, tw, tt)
  | Some c =>
      let ta := c - arrival_time p in
      let w := ta - burst_time p in
      (set_waiting_time (Some w) (set_turnaround_time (Some ta) p),
       tw + w, tt + ta)
  end.

Fixpoint metrics_loop (ps : list Process) (tw tt : Z)
  : list Process * Z * Z :=
  match ps with
  | [] => ([], tw, tt)
  | p :: rest =>
      let '(p', tw', tt') := metrics_body p tw tt in
      let '(rest', tw'', tt'') := metrics_loop rest tw' tt' in
      (p' :: rest', tw'', tt'')
  end.

Record Metrics := mkMetrics {
  avg_waiting_time : Q;
  avg_turnaround_time : Q
}.

(** [total / n if n > 0 else 0.0] *)
Definition average (total : Z) (n : nat) : outcome Q :=
  if (0 <? Z.of_nat n) then py_true_div total (Z.of_nat n)
  else Returns 0%Q.

(** The records are updated by the loop before the averages are
    taken, so they are updated also when a division raises. *)
Definition compute_metrics (processes : list Process)
  : list Process * outcome Metrics :=
  let n := length processes in
  let '(processes', total_waiting, total_turnaround) :=
    metrics_loop processes 0 0 in
  (processes',
   and_then (average total_waiting n) (λ avg_waiting,
   and_then (average total_turnaround n) (λ avg_turnaround,
   Returns (mkMetrics avg_waiting avg_turnaround)))).

(** ** Scheduling algorithms *)

(** The state the loops thread: the shared records, the clock and the
    chart built so far. *)
Record sched := mkSched {
  store : list Process;
  time : Z;
  schedule : Timeline
}.

(** The idle block of all four functions:
    [schedule.append((time, t, "Idle")); time = t]. *)
Definition go_idle (t : Z) (s : sched) : sched :=
  mkSched (store s) t (schedule s ++ [(time s, t, idle_label)]).

(** The four lines FCFS, SJF and Priority share:
    [p.start_time = time; time += p.burst_time; p.completion_time = time;
     schedule.append((p.start_time, p.completion_time, p.pid))]. *)
Definition run_to_completion (i : nat) (p : Process) (s : sched) : sched :=
  let t := time s in
  let t' := t + burst_time p in
  mkSched (<[i := set_completion_time (Some t') (set_start_time (Some t) p)]>
             (store s))
          t'
          (schedule s ++ [(t, t', pid p)]).

(** The last two lines of all four functions:
    [compute_metrics(processes); return schedule]. *)
Definition metrics_and_return (s : sched) : list Process * outcome Timeline :=
  let '(st, metrics) := compute_metrics (store s) in
  (st, and_then metrics (λ _, Returns (schedule s))).

(** *** FCFS *)

Definition fcfs_key (st : list Process) (i : nat) : Z * string :=
  match st !! i with
  | Some p => (arrival_time p, pid p)
  | None => (0, EmptyString)
  end.

Definition fcfs_body (s : sched) (i : nat) : sched :=
  match store s !! i with
  | None => s
  | Some p =>
      let s1 := if time s <? arrival_time p
                then go_idle (arrival_time p) s else s in
      run_to_completion i p s1
  end.

Definition fcfs (processes : list Process)
  : list Process * outcome Timeline :=
  let st := reset_processes processes in
  let procs := sorted pair_ltb (fcfs_key st) (seq 0 (length st)) in
  let s := fold_left fcfs_body procs (mkSched st 0 []) in
  metrics_and_return s.

(** *** SJF and Priority (non-preemptive)

    [sjf_non_preemptive] and [priority_non_preemptive] are the same text
    except for the key of [min(ready, key=...)]; the section takes it as
    a parameter. *)

Definition arrivals (st : list Process) (idxs : list nat) : list Z :=
  omap (λ i, arrival_time <$> st !! i) idxs.

(** [p.completion_time is None] *)
Definition unfinished (st : list Process) (i : nat) : bool :=
  match st !! i with
  | Some p => match completion_time p with None => true | Some _ => false end
  | None => false
  end.

(** [p.completion_time is None and p.arrival_time <= time] *)
Definition is_ready (st : list Process) (t : Z) (i : nat) : bool :=
  match st !! i with
  | Some p => match completion_time p with
              | None => arrival_time p <=? t
              | Some _ => false
              end
  | None => false
  end.

Section NonPreemptive.
Variable key : Process → Z * Z * string.

Definition key_at (st : list Process) (i : nat) : Z * Z * string :=
  match st !! i with
  | Some p => key p
  | None => (0, 0, EmptyString)
  end.

Definition ready_list (remaining : list nat) (s : sched) : list nat :=
  List.filter (is_ready (store s) (time s)) remaining.

(** One pass through the body of [while completed < n]; [None] is
    [break]. *)
Definition np_step (remaining : list nat) (s : sched) (completed : nat)
  : option (sched * nat) :=
  match ready_list remaining s with
  | [] =>
      let next_arrivals :=
        arrivals (store s) (List.filter (unfinished (store s)) remaining) in
      match min_int next_arrivals with
      | None => None
      | Some next_time => Some (go_idle next_time s, completed)
      end
  | r :: rs =>
      let i := min_from triple_ltb (key_at (store s)) r rs in
      match store s !! i with
      | Some p => Some (run_to_completion i p s, S completed)
      | None => None
      end
  end.

Fixpoint np_loop (fuel : nat) (remaining : list nat) (n : nat)
         (s : sched) (completed : nat) : option sched :=
  match fuel with
  | O => None
  | S fuel' =>
      if (completed <? n)%nat then
        match np_step remaining s completed with
        | Some (s', completed') => np_loop fuel' remaining n s' completed'
        | None => Some s
        end
      else Some s
  end.

Definition np_init (processes : list Process) : sched :=
  let st := reset_processes processes in
  let remaining := seq 0 (length st) in
  mkSched st (default 0 (min_int (arrivals st remaining))) [].

(** Every dispatch is preceded by at most one idle jump, so the loop
    body runs at most [2 * n] times. *)
Definition np_fuel (n : nat) : nat := 2 * n + 2.

Definition non_preemptive (processes : list Process)
  : list Process * outcome Timeline :=
  let s0 := np_init processes in
  let remaining := seq 0 (length (store s0)) in
  let n := length remaining in
  match np_loop (np_fuel n) remaining n s0 0 with
  | Some s => metrics_and_return s
  | None => (store s0, Diverges)
  end.
End NonPreemptive.

Definition sjf_key (x : Process) : Z * Z * string :=
  (burst_time x, arrival_time x, pid x).
Definition priority_key (x : Process) : Z * Z * string :=
  (priority x, arrival_time x, pid x).

Definition sjf_non_preemptive := non_preemptive sjf_key.
Definition priority_non_preemptive := non_preemptive priority_key.

(** *** Round Robin *)

Record rr_state := mkRR {
  rr_sched : sched;
  rr_i : nat;
  ready_queue : list nat
}.

Definition rr_key (st : list Process) (i : nat) : Z :=
  match st !! i with
  | Some p => arrival_time p
  | None => 0
  end.

(** The body of the admission loop:
    [ready_queue.append(procs[i]); procs[i].remaining_time = procs[i].burst_time;
     i += 1], with [j = procs[i]] and [p] the record it refers to. *)
Definition admit_one (j : nat) (p : Process) (s : rr_state) : rr_state :=
  mkRR (mkSched (<[j := set_remaining_time (Some (burst_time p)) p]>
                   (store (rr_sched s)))
                (time (rr_sched s)) (schedule (rr_sched s)))
       (S (rr_i s))
       (ready_queue s ++ [j]).

(** [while i < n and procs[i].arrival_time <= time: ...]; the cursor
    moves at every pass, so [n - i] passes are all there can be. *)
Fixpoint admit_while (fuel : nat) (procs : list nat) (s : rr_state) : rr_state :=
  match fuel with
  | O => s
  | S fuel' =>
      match procs !! rr_i s with
      | None => s
      | Some j =>
          match store (rr_sched s) !! j with
          | None => s
          | Some p =>
              if arrival_time p <=? time (rr_sched s)
              then admit_while fuel' procs (admit_one j p s)
              else s
          end
      end
  end.

Definition admit_arrived (procs : list nat) (s : rr_state) : rr_state :=
  admit_while (length procs - rr_i s) procs s.

Inductive rr_next :=
| RRContinue (s : rr_state)
| RRBreak (s : rr_state)
| RRRaise (e : exn) (s : rr_state).

(** [if current.start_time is None: ...] *)
Definition first_dispatch (t : Z) (p : Process) : Process :=
  match start_time p with
  | Some _ => p
  | None =>
      let p' := set_start_time (Some t) p in
      match remaining_time p' with
      | None => set_remaining_time (Some (burst_time p')) p'
      | Some _ => p'
      end
  end.

(** One pass through the body of [while i < n or ready_queue]. *)
Definition rr_body (procs : list nat) (quantum : Z) (s0 : rr_state)
  : rr_next :=
  let s := admit_arrived procs s0 in
  let sc := rr_sched s in
  match ready_queue s with
  | [] =>
      match procs !! rr_i s with
      | Some j =>
          let next_arrival := rr_key (store sc) j in
          if time sc <? next_arrival
          then RRContinue (mkRR (go_idle next_arrival sc) (rr_i s) [])
          else RRContinue s
      | None => RRBreak s
      end
  | current :: rest =>
      match store sc !! current with
      | None => RRBreak s
      | Some p =>
          let p1 := first_dispatch (time sc) p in
          match remaining_time p1 with
          | None => RRRaise TypeError s
          | Some rem =>
              let run_time := Z.min quantum rem in
              let start := time sc in
              let end_ := start + run_time in
              let p2 := set_remaining_time (Some (rem - run_time)) p1 in
              let s1 :=
                admit_arrived procs
                  (mkRR (mkSched (<[current := p2]> (store sc)) end_
                                 (schedule sc ++ [(start, end_, pid p2)]))
                        (rr_i s) rest) in
              let sc1 := rr_sched s1 in
              match store sc1 !! current with
              | None => RRBreak s1
              | Some p3 =>
                  match remaining_time p3 with
                  | None => RRRaise TypeError s1
                  | Some rem' =>
                      if 0 <? rem' then
                        RRContinue (mkRR sc1 (rr_i s1)
                                         (ready_queue s1 ++ [current]))
                      else
                        RRContinue
                          (mkRR (mkSched
                                   (<[current :=
                                        set_completion_time (Some (time sc1)) p3]>
                                      (store sc1))
                                   (time sc1) (schedule sc1))
                                (rr_i s1) (ready_queue s1))
                  end
              end
          end
      end
  end.

Definition rr_guard (procs : list nat) (s : rr_state) : bool :=
  (rr_i s <? length procs)%nat
  || match ready_queue s with [] => false | _ :: _ => true end.

Fixpoint rr_loop (fuel : nat) (procs : list nat) (quantum : Z)
         (s : rr_state) : rr_state * outcome unit :=
  match fuel with
  | O => (s, Diverges)
  | S fuel' =>
      if rr_guard procs s then
        match rr_body procs quantum s with
        | RRContinue s' => rr_loop fuel' procs quantum s'
        | RRBreak s' => (s', Returns tt)
        | RRRaise e s' => (s', Raises e)
        end
      else (s, Returns tt)
  end.

Definition rr_init (processes : list Process) : list nat * rr_state :=
  let st := reset_processes processes in
  let procs := sorted Z.ltb (rr_key st) (seq 0 (length st)) in
  let t0 := match procs !! 0%nat with
            | Some j => rr_key st j
            | None => 0
            end in
  (procs, mkRR (mkSched st t0 []) 0 []).

Definition burst_at (st : list Process) (j : nat) : nat :=
  match st !! j with
  | Some p => Z.to_nat (burst_time p)
  | None => 0
  end.

(** Each pass either jumps over an idle gap, and then the next pass
    admits a process, or runs a slice of at least one unit. *)
Definition rr_fuel (procs : list nat) (st : list Process) : nat :=
  S (sum_list_with (λ j, burst_at st j + 2)%nat procs).

Definition round_robin (processes : list Process) (quantum : Z)
  : list Process * outcome Timeline :=
  if quantum <=? 0 then (processes, Raises ValueError)
  else
    let '(procs, s0) := rr_init processes in
    match rr_loop (rr_fuel procs (store (rr_sched s0))) procs quantum s0 with
    | (s, Returns _) => metrics_and_return (rr_sched s)
    | (s, Raises e) => (store (rr_sched s), Raises e)
    | (s, Diverges) => (store (rr_sched s), Diverges)
    end.

(** * Specification vocabulary and invariants *)

(** Well-formed input: positive bursts, non-negative arrivals, pids
    unique. *)
Definition rec_wf (p : Process) : Prop :=
  0 < burst_time p ∧ 0 ≤ arrival_time p.

Definition well_formed (ps : list Process) : Prop :=
  Forall rec_wf ps ∧ NoDup (map pid ps).

(** The three processes of the worked examples. *)
Definition ex_P1 := mkProcess "P1" 0 4 0 None None None None None.

Definition ex_P2 := mkProcess "P2" 1 3 0 None None None None None.

Definition ex_P3 := mkProcess "P3" 2 1 0 None None None None None.

Definition ex_procs := [ex_P1; ex_P2; ex_P3].

(** The record [compute_metrics] leaves behind. *)
Definition derive (p : Process) : Process :=
  match completion_time p with
  | None => p
  | Some c =>
      set_waiting_time (Some (c - arrival_time p - burst_time p))
        (set_turnaround_time (Some (c - arrival_time p)) p)
  end.

(** Waiting and turnaround time of a finished record, as the loop adds
    them up. *)
Definition finished_waiting (p : Process) : option Z :=
  (λ c, c - arrival_time p - burst_time p) <$> completion_time p.

Definition finished_turnaround (p : Process) : option Z :=
  (λ c, c - arrival_time p) <$> completion_time p.

Definition sum_list (l : list Z) : Z := foldr Z.add 0 l.

Definition rr_next_state (r : rr_next) : rr_state :=
  match r with
  | RRContinue s | RRBreak s | RRRaise _ s => s
  end.

Definition block_start (b : GanttBlock) : Z := b.1.1.

Definition block_end (b : GanttBlock) : Z := b.1.2.

Definition block_label (b : GanttBlock) : string := b.2.

(** Every interval has [end > start]. *)
Definition positive_blocks (tl : Timeline) : Prop :=
  Forall (λ b, block_start b < block_end b) tl.

(** Each interval starts where the previous one ends. *)
Fixpoint contiguous (tl : Timeline) : Prop :=
  match tl with
  | b1 :: rest =>
      match rest with
      | b2 :: _ => block_end b1 = block_start b2
      | [] => True
      end ∧ contiguous rest
  | [] => True
  end.

(** The start times of the processes together with the starts of the
    idle intervals, and the completion times. *)
Definition start_points (st : list Process) (tl : Timeline) (x : Z) : Prop :=
  (∃ p, p ∈ st ∧ start_time p = Some x)
  ∨ (∃ b, b ∈ tl ∧ block_label b = idle_label ∧ block_start b = x).

Definition completion_points (st : list Process) (x : Z) : Prop :=
  ∃ p, p ∈ st ∧ completion_time p = Some x.

Definition is_min (x : Z) (P : Z → Prop) : Prop := P x ∧ ∀ y, P y → x ≤ y.

Definition is_max (x : Z) (P : Z → Prop) : Prop := P x ∧ ∀ y, P y → y ≤ x.

(** The chart covers exactly [[min start, final completion)]: it begins
    at the least start point and ends at the greatest completion time. *)
Definition covers (st : list Process) (tl : Timeline) : Prop :=
  (tl = [] ∧ st = [])
  ∨ ∃ b0 b1, head tl = Some b0 ∧ last tl = Some b1
             ∧ is_min (block_start b0) (start_points st tl)
             ∧ is_max (block_end b1) (completion_points st).

Definition timeline_ok (st : list Process) (tl : Timeline) : Prop :=
  positive_blocks tl ∧ contiguous tl ∧ covers st tl.

(** The per-record invariants of the data model. *)
Definition record_ok (p : Process) : Prop :=
  ∃ s c ta w,
    start_time p = Some s ∧ completion_time p = Some c
    ∧ turnaround_time p = Some ta ∧ waiting_time p = Some w
    ∧ c >= s ∧ s >= arrival_time p
    ∧ ta = c - arrival_time p
    ∧ w = ta - burst_time p ∧ w >= 0.

(** The averages of the records are within the range of the floats:
    [compute_metrics] returns on them. *)
Definition averages_fit (st : list Process) : bool :=
  match snd (compute_metrics st) with
  | Returns _ => true
  | _ => false
  end.

(** How a run that has built the records [st] and the chart [tl] ends:
    the call returns the chart, unless an average of the records is
    beyond the floats, and then it raises [OverflowError]; the caller's
    records are [st] either way. *)
Definition hands_back (st : list Process) (tl : Timeline)
  : list Process * outcome Timeline :=
  (st, if averages_fit st then Returns tl else Raises OverflowError).

(** The run ends, having built records and a chart with [P]. *)
Definition ends_with (r : list Process * outcome Timeline)
           (P : list Process → Timeline → Prop) : Prop :=
  ∃ st tl, r = hands_back st tl ∧ P st tl.

(** Every record of the caller's list [ps] has [P] after the call: [st]
    holds the same processes at the same places, each with [P]. *)
Definition every_record (ps st : list Process) (P : Process → Prop) : Prop :=
  Forall2 (λ p0 p, static_fields p = static_fields p0 ∧ P p) ps st.

(** The record has a start and a completion time. *)
Definition scheduled (p : Process) : Prop :=
  ∃ s c, start_time p = Some s ∧ completion_time p = Some c.

(** A chart that runs from [t0] to [t1] without gap or overlap. *)
Fixpoint chain (t0 : Z) (tl : Timeline) (t1 : Z) : Prop :=
  match tl with
  | [] => t0 = t1
  | b :: rest =>
      block_start b = t0 ∧ t0 < block_end b ∧ chain (block_end b) rest t1
  end.

(** A record that has run: it started no earlier than it arrived and no
    earlier than the chart begins, and at least [burst_time] passed
    before it completed. *)
Definition finished_ok (t0 t1 : Z) (p : Process) : Prop :=
  ∃ s c, start_time p = Some s ∧ completion_time p = Some c
         ∧ arrival_time p ≤ s ∧ t0 ≤ s ∧ s + burst_time p ≤ c ∧ c ≤ t1.

Definition final_ok (t0 : Z) (s : sched) : Prop :=
  chain t0 (schedule s) (time s)
  ∧ Forall (finished_ok t0 (time s)) (store s)
  ∧ (schedule s = [] → store s = [])
  ∧ (schedule s ≠ [] →
     start_points (store s) (schedule s) t0
     ∧ completion_points (store s) (time s)).

(** A record is untouched, or it has run to completion. *)
Definition rec_inv (t0 t : Z) (p : Process) : Prop :=
  match start_time p, completion_time p with
  | None, None => True
  | Some s, Some c =>
      arrival_time p ≤ s ∧ t0 ≤ s ∧ s + burst_time p ≤ c ∧ c ≤ t
  | _, _ => False
  end.

(** A block of the chart is an idle block or the one run of a finished
    record. *)
Definition block_inv (st : list Process) (b : GanttBlock) : Prop :=
  block_label b = idle_label
  ∨ ∃ p, p ∈ st ∧ pid p = block_label b
         ∧ start_time p = Some (block_start b)
         ∧ completion_time p = Some (block_end b).

Definition run_inv (t0 : Z) (s : sched) : Prop :=
  chain t0 (schedule s) (time s)
  ∧ Forall (rec_inv t0 (time s)) (store s)
  ∧ (schedule s ≠ [] → start_points (store s) (schedule s) t0)
  ∧ Forall (block_inv (store s)) (schedule s).

Definition fcfs_inv (s : sched) (todo : list nat) : Prop :=
  run_inv 0 s
  ∧ Forall rec_wf (store s)
  ∧ NoDup todo
  ∧ (∀ i, i ∈ todo → ∃ p, store s !! i = Some p ∧ completion_time p = None)
  ∧ (∀ i p, store s !! i = Some p → i ∉ todo → completion_time p ≠ None)
  ∧ (schedule s ≠ [] → completion_points (store s) (time s)).

Definition np_inv (n : nat) (t0 : Z) (s : sched) (c : nat) : Prop :=
  run_inv t0 s
  ∧ Forall rec_wf (store s)
  ∧ length (store s) = n
  ∧ (c + length (List.filter (unfinished (store s)) (seq 0 n)) = n)%nat
  ∧ (schedule s = [] → c = 0%nat)
  ∧ (schedule s ≠ [] →
     completion_points (store s) (time s) ∨ ready_list (seq 0 n) s ≠ []).

Definition np_measure (n : nat) (s : sched) (c : nat) : nat :=
  (2 * (n - c) + match ready_list (seq 0 n) s with [] => 1 | _ => 0 end)%nat.

(** A record is waiting with its whole burst, is part-way through it, or
    is finished. *)
Definition rr_rec_inv (t0 t : Z) (p : Process) : Prop :=
  ∃ r, remaining_time p = Some r ∧ 0 ≤ r ∧ r ≤ burst_time p
       ∧ match start_time p, completion_time p with
         | None, None => r = burst_time p
         | Some s, None =>
             arrival_time p ≤ s ∧ t0 ≤ s ∧ s + (burst_time p - r) ≤ t
         | Some s, Some c =>
             arrival_time p ≤ s ∧ t0 ≤ s ∧ s + burst_time p ≤ c ∧ c ≤ t
         | None, Some _ => False
         end.

Definition rem_at (st : list Process) (j : nat) : nat :=
  match st !! j with
  | Some p => match remaining_time p with
              | Some r => Z.to_nat r
              | None => 0
              end
  | None => 0
  end.

Definition rr_wait (procs : list nat) (s : rr_state) : nat :=
  match procs !! rr_i s with
  | Some j => if rr_key (store (rr_sched s)) j <=? time (rr_sched s)
              then 0 else 1
  | None => 0
  end.

(** What is left to do: the remaining time of the queued processes and
    of the one on the CPU ([fl]), the bursts of those still to arrive,
    and the idle jump that may come first. *)
Definition rr_measure (procs fl : list nat) (s : rr_state) : nat :=
  (sum_list_with (rem_at (store (rr_sched s))) (ready_queue s ++ fl)
   + sum_list_with (λ j, burst_at (store (rr_sched s)) j + 2)
       (drop (rr_i s) procs)
   + rr_wait procs s)%nat.

(** The loop invariant; [fl] holds the process that has been popped and
    not yet put back, if any. *)
Definition rr_inv (procs : list nat) (t0 : Z) (fl : list nat) (s : rr_state)
  : Prop :=
  let sc := rr_sched s in
  chain t0 (schedule sc) (time sc)
  ∧ Forall (rr_rec_inv t0 (time sc)) (store sc)
  ∧ Forall rec_wf (store sc)
  ∧ NoDup (ready_queue s ++ fl)
  ∧ (∀ j, j ∈ ready_queue s ++ fl → j ∈ take (rr_i s) procs)
  ∧ (∀ j, j ∈ ready_queue s →
          ∃ p r, store sc !! j = Some p ∧ completion_time p = None
                 ∧ remaining_time p = Some r ∧ 0 < r
                 ∧ arrival_time p ≤ time sc)
  ∧ (∀ j p, j ∈ take (rr_i s) procs → j ∉ ready_queue s ++ fl →
            store sc !! j = Some p → completion_time p ≠ None)
  ∧ (∀ j, j ∈ drop (rr_i s) procs →
          ∃ p, store sc !! j = Some p ∧ start_time p = None
               ∧ completion_time p = None)
  ∧ (schedule sc ≠ [] → start_points (store sc) (schedule sc) t0)
  ∧ (schedule sc = [] → Forall (λ p, start_time p = None) (store sc))
  ∧ (schedule sc ≠ [] →
     completion_points (store sc) (time sc)
     ∨ ready_queue s ++ fl ≠ [] ∨ (rr_i s < length procs)%nat)
  ∧ (∀ j, j ∈ fl →
          ∃ p, store sc !! j = Some p ∧ completion_time p = None
               ∧ start_time p ≠ None ∧ arrival_time p ≤ time sc).

(** The loop states reachable from a given one: those at which the loop
    condition is evaluated. *)
Inductive np_reach (key : Process → Z * Z * string) (remaining : list nat)
          (n : nat) : sched → nat → sched → nat → Prop :=
| np_reach_refl s c : np_reach key remaining n s c s c
| np_reach_step s c s1 c1 s2 c2 :
    (c < n)%nat →
    np_step key remaining s c = Some (s1, c1) →
    np_reach key remaining n s1 c1 s2 c2 →
    np_reach key remaining n s c s2 c2.



(** P1 has not completed, P2 completed at 7. *)
Definition ex_half_done : list Process :=
  [ex_P1; set_completion_time (Some 7) ex_P2].

(** * Further vocabulary: what the runs do beyond the claims *)

(** A record that has a start and a completion ran in one piece. *)
Definition ran_whole (p : Process) : Prop :=
  ∀ s c, start_time p = Some s → completion_time p = Some c →
         c = s + burst_time p.

(** Started, finished [burst_time] later, and waited exactly from its
    arrival to its start. *)
Definition no_preemption (p : Process) : Prop :=
  ∃ s, start_time p = Some s
       ∧ completion_time p = Some (s + burst_time p)
       ∧ waiting_time p = Some (s - arrival_time p).



(** [a] comes before [b] in the list. *)
Definition before {A} (a b : A) (l : list A) : Prop :=
  ∃ l1 l2 l3, l = l1 ++ a :: l2 ++ b :: l3.

(** No later element has a smaller key than an earlier one. *)
Fixpoint sorted_by {A K} (ltb : K → K → bool) (key : A → K) (l : list A)
  : Prop :=
  match l with
  | [] => True
  | a :: rest =>
      Forall (λ b, ltb (key b) (key a) = false) rest ∧ sorted_by ltb key rest
  end.

(** The earliest arrival among the records. *)
Definition least_arrival (ps : list Process) (t : Z) : Prop :=
  is_min t (λ x, ∃ p, p ∈ ps ∧ arrival_time p = x).

(** Two processes, the first of which arrives at time 5. *)
Definition ex_late : list Process :=
  [mkProcess "A" 5 3 0 None None None None None;
   mkProcess "B" 20 3 0 None None None None None].

(** The arrival times of the records that have not completed. *)
Definition pending_arrival (st : list Process) (x : Z) : Prop :=
  ∃ i p, st !! i = Some p ∧ completion_time p = None ∧ arrival_time p = x.

(** SJF after P1 of [ex_gap] has run: P2 arrives only at 10. *)
Definition ex_gap : list Process :=
  [mkProcess "P1" 0 2 0 None None None None None;
   mkProcess "P2" 10 1 0 None None None None None].

Definition ex_gap_after_P1 : sched :=
  run_to_completion 0 (reset_one (mkProcess "P1" 0 2 0 None None None None None))
                    (np_init ex_gap).

(** The CPU time the chart gives to the label [l]. *)
Fixpoint work_done (tl : Timeline) (l : string) : Z :=
  match tl with
  | [] => 0
  | b :: rest =>
      (if String.eqb (block_label b) l
       then block_end b - block_start b else 0)
      + work_done rest l
  end.

(** A block is no longer than the quantum, unless it is an idle block. *)
Definition slice_ok (q : Z) (b : GanttBlock) : Prop :=
  block_label b = idle_label ∨ block_end b - block_start b ≤ q.

(** A block is an idle block, a full quantum, or the last run of a
    process, which completes when the block ends. *)
Definition slice_exact (q : Z) (st : list Process) (b : GanttBlock) : Prop :=
  block_label b = idle_label
  ∨ block_end b - block_start b = q
  ∨ ∃ p, p ∈ st ∧ pid p = block_label b
         ∧ completion_time p = Some (block_end b).

(** A record has got as much CPU time as its burst has gone down, and
    has nothing left once it has completed. *)
Definition served (tl : Timeline) (p : Process) : Prop :=
  ∃ r, remaining_time p = Some r
       ∧ (completion_time p ≠ None → r = 0)
       ∧ (pid p ≠ idle_label → work_done tl (pid p) = burst_time p - r).

Definition rr_extra_inv (q : Z) (sc : sched) : Prop :=
  Forall (served (schedule sc)) (store sc)
  ∧ Forall (slice_exact q (store sc)) (schedule sc).

(** * The chart renderer, [print_gantt_chart]

    The function only prints; the model returns the text it writes to
    standard output.  [len] counts characters, so here every [ascii] of
    a model string stands for one character. *)

Definition newline : string := String (Ascii.ascii_of_nat 10) EmptyString.

(** [print(x)] *)
Definition print_line (x : string) : string := x +:+ newline.

Fixpoint str_repeat (s : string) (n : nat) : string :=
  match n with
  | O => EmptyString
  | S n' => s +:+ str_repeat s n'
  end.

(** [s * n]: the empty string when [n <= 0]. *)
Definition py_mul (s : string) (n : Z) : string := str_repeat s (Z.to_nat n).

(** [len(s)] *)
Definition py_len (s : string) : Z := Z.of_nat (String.length s).

(** Where the slice index [k] falls in [s]: negative indices count from
    the end, and everything is clamped to [0 .. len(s)]. *)
Definition slice_bound (s : string) (k : Z) : nat :=
  if 0 <=? k then Z.to_nat (Z.min k (py_len s))
  else Z.to_nat (Z.max 0 (py_len s + k)).

(** [s[:k]] and [s[k:]] *)
Definition py_slice_to (s : string) (k : Z) : string :=
  String.substring 0 (slice_bound s k) s.
Definition py_slice_from (s : string) (k : Z) : string :=
  String.substring (slice_bound s k) (String.length s) s.

(** [f"{n}"] for an integer. *)
Definition py_str (n : Z) : string :=
  DecimalString.NilZero.string_of_int (Z.to_int n).

Record chart := mkChart {
  bar : string;
  labels : string;
  current_time : Z
}.

(** [while len(labels) < pid_pos: labels += " "]; every pass adds one
    character, so [pid_pos - len(labels)] passes are all there can be. *)
Fixpoint pad_labels (fuel : nat) (lab : string) (pid_pos : Z) : string :=
  match fuel with
  | O => lab
  | S fuel' =>
      if py_len lab <? pid_pos then pad_labels fuel' (lab +:+ " ") pid_pos
      else lab
  end.

(** [labels[:pid_pos] + pid_str + labels[pid_pos + len(pid_str):]
     if pid_pos + len(pid_str) <= len(labels) else labels + pid_str] *)
Definition place_label (lab pid_str : string) (pid_pos : Z) : string :=
  if pid_pos + py_len pid_str <=? py_len lab
  then py_slice_to lab pid_pos +:+ pid_str
       +:+ py_slice_from lab (pid_pos + py_len pid_str)
  else lab +:+ pid_str.

(** The body of the first [for start, end, pid in schedule]. *)
Definition chart_body (c : chart) (b : GanttBlock) : chart :=
  let '(start, end_, pid_str) := b in
  let c1 :=
    if current_time c <? start then
      let idle_length := start - current_time c in
      mkChart (bar c +:+ py_mul "-" idle_length)
              (labels c +:+ py_mul " " idle_length)
              start
    else c in
  let length := end_ - start in
  let timeline := bar c1 +:+ py_mul "#" length in
  let pid_pos := current_time c1 + length / 2 in
  let lab := pad_labels (Z.to_nat (pid_pos - py_len (labels c1)))
                        (labels c1) pid_pos in
  mkChart timeline (place_label lab pid_str pid_pos) end_.

(** The body of the second loop, which writes the times underneath. *)
Definition ruler_body (time_line : string) (b : GanttBlock) : string :=
  let '(start, end_, _) := b in
  let time_line1 :=
    if py_len time_line =? 0 then time_line +:+ py_str start
    else time_line in
  let span := end_ - start in
  time_line1 +:+ (py_mul " " (span - 1) +:+ py_str end_).

Definition gantt_chart (schedule : Timeline) : chart :=
  match schedule with
  | [] => mkChart EmptyString EmptyString 0
  | (start0, _, _) :: _ =>
      fold_left chart_body schedule (mkChart EmptyString EmptyString start0)
  end.

Definition gantt_ruler (schedule : Timeline) : string :=
  fold_left ruler_body schedule EmptyString.

Definition print_gantt_chart (schedule : Timeline) : string :=
  match schedule with
  | [] => print_line "No schedule to show."
  | _ :: _ =>
      print_line (newline +:+ "Gantt Chart (time in units):")
      +:+ print_line (bar (gantt_chart schedule))
      +:+ print_line (labels (gantt_chart schedule))
      +:+ print_line (gantt_ruler schedule)
      +:+ print_line EmptyString
  end.

(** The blocks follow one another in time, possibly with gaps, none of
    them of negative length. *)
Fixpoint in_order (t : Z) (tl : Timeline) : Prop :=
  match tl with
  | [] => True
  | b :: rest =>
      t ≤ block_start b ∧ block_start b ≤ block_end b
      ∧ in_order (block_end b) rest
  end.

(** The bar of a chart without gaps: one ['#'] for every time unit from
    the start of the first block to the end of the last. *)
Definition solid_bar (tl : Timeline) : Prop :=
  ∀ b0 b1, head tl = Some b0 → last tl = Some b1 →
           bar (gantt_chart tl) = py_mul "#" (block_end b1 - block_start b0).

(** A chart with a gap between its two blocks. *)
Definition ex_gapped : Timeline := [(0, 2, "A"); (4, 6, "B")].

(** The averages are not negative and waiting does not exceed
    turnaround. *)
Definition averages_sane (m : Metrics) : Prop :=
  (0 <= avg_waiting_time m)%Q
  ∧ (avg_waiting_time m <= avg_turnaround_time m)%Q.

(** What [compute_metrics] reports is sane, when it reports; the only
    other outcome is the [OverflowError] of a division. *)
Definition metrics_sane (out : outcome Metrics) : Prop :=
  match out with
  | Returns m => averages_sane m
  | Raises e => e = OverflowError
  | Diverges => False
  end.

(** The string [s] begins with [p]. *)
Definition has_prefix (p s : string) : Prop := ∃ t, s = p +:+ t.

(** * The table printer, [print_process_table] *)

(** [f"{s:<w}"]: left-aligned in a field of width [w], never cut. *)
Definition ljust (s : string) (w : Z) : string :=
  s +:+ py_mul " " (w - py_len s).

(** [(x if x is not None else '-')] as the format sees it. *)
Definition opt_str (x : option Z) : string :=
  match x with
  | Some n => py_str n
  | None => "-"
  end.

Definition table_header : string :=
  ljust "PID" 8 +:+ ljust "Arrive" 8 +:+ ljust "Burst" 8 +:+ ljust "Prio" 8
  +:+ ljust "Start" 8 +:+ ljust "Complete" 10 +:+ ljust "Turnaround" 12
  +:+ ljust "Waiting" 8.

Definition table_row (p : Process) : string :=
  ljust (pid p) 8 +:+ ljust (py_str (arrival_time p)) 8
  +:+ ljust (py_str (burst_time p)) 8 +:+ ljust (py_str (priority p)) 8
  +:+ ljust (opt_str (start_time p)) 8
  +:+ ljust (opt_str (completion_time p)) 10
  +:+ ljust (opt_str (turnaround_time p)) 12
  +:+ ljust (opt_str (waiting_time p)) 8.

(** [sorted(processes, key=lambda x: x.pid)] *)
Definition table_order (processes : list Process) : list Process :=
  sorted String.ltb pid processes.

Definition table_rows (processes : list Process) : string :=
  fold_left (λ out p, out +:+ print_line (table_row p))
            (table_order processes) EmptyString.

Definition print_process_table (processes : list Process) : string :=
  print_line (newline +:+ "Process Table:")
  +:+ print_line (py_mul "-" 72)
  +:+ print_line table_header
  +:+ print_line (py_mul "-" 72)
  +:+ table_rows processes
  +:+ print_line (py_mul "-" 72).

(** The text of the rows of the records in [l], in that order. *)
Definition rows_of (l : list Process) : string :=
  foldr (λ p out, print_line (table_row p) +:+ out) EmptyString l.

(** Every field of the row fits the width of its column. *)
Definition fits_columns (p : Process) : Prop :=
  py_len (pid p) ≤ 8 ∧ py_len (py_str (arrival_time p)) ≤ 8
  ∧ py_len (py_str (burst_time p)) ≤ 8 ∧ py_len (py_str (priority p)) ≤ 8
  ∧ py_len (opt_str (start_time p)) ≤ 8
  ∧ py_len (opt_str (completion_time p)) ≤ 10
  ∧ py_len (opt_str (turnaround_time p)) ≤ 12
  ∧ py_len (opt_str (waiting_time p)) ≤ 8.

(** While the loop runs: the run of a record that has a [start_time]
    and a [completion_time] is a block of the chart. *)
Definition block_of (tl : Timeline) (p : Process) : Prop :=
  ∀ s c, start_time p = Some s → completion_time p = Some c →
         (s, c, pid p) ∈ tl.

(** The runs that have been made are blocks, and every block is idle or
    the run of a record. *)
Definition chart_matches_records (st : list Process) (tl : Timeline) : Prop :=
  Forall (block_of tl) st ∧ Forall (block_inv st) tl.

(** The record has run from [start_time] to [completion_time] in one
    block of the chart. *)
Definition run_is_block (tl : Timeline) (p : Process) : Prop :=
  ∃ s c, start_time p = Some s ∧ completion_time p = Some c
         ∧ (s, c, pid p) ∈ tl.

(** Chart and records of the caller's list [ps] agree: every record has
    run in a block of the chart, and every block is idle or the run of
    a record. *)
Definition chart_matches (ps st : list Process) (tl : Timeline) : Prop :=
  every_record ps st (run_is_block tl) ∧ Forall (block_inv st) tl.

(** While the loop runs: once a record has a start there is a block of
    its pid that begins there, and once it has completed one that ends
    there. *)
Definition first_and_last_block (tl : Timeline) (p : Process) : Prop :=
  (∀ s, start_time p = Some s → ∃ e, (s, e, pid p) ∈ tl)
  ∧ (∀ c, completion_time p = Some c → ∃ s, (s, c, pid p) ∈ tl).

(** The record has started and completed, and the chart has a block of
    its pid that begins at its [start_time] and one that ends at its
    [completion_time]. *)
Definition bracketed (tl : Timeline) (p : Process) : Prop :=
  ∃ s c e b, start_time p = Some s ∧ completion_time p = Some c
             ∧ (s, e, pid p) ∈ tl ∧ (b, c, pid p) ∈ tl.

(** The record has completed and carries its metrics. *)
Definition has_metrics (p : Process) : Prop :=
  ∃ c, completion_time p = Some c
       ∧ turnaround_time p = Some (c - arrival_time p)
       ∧ waiting_time p = Some (c - arrival_time p - burst_time p).

(** Every record of the caller's list has completed and carries its
    metrics. *)
Definition all_served (ps st : list Process) : Prop :=
  every_record ps st has_metrics.

(** The record at position [i] has completed. *)
Definition done_at (st : list Process) (i : nat) : Prop :=
  ∃ p, st !! i = Some p ∧ completion_time p ≠ None.

(** One process with a burst beyond the largest double. *)
Definition ex_huge : list Process :=
  [mkProcess "x" 0 (2 * 10 ^ 308) 0 None None None None None].

(** Input that is not well formed: a burst of zero, a negative burst, a
    negative arrival time and the same pid twice. *)
Definition ex_odd : list Process :=
  [mkProcess "A" 3 0 0 None None None None None;
   mkProcess "A" (-2) (-1) 1 None None None None None;
   mkProcess "B" 0 5 0 None None None None None].

(** What the loop of SJF and Priority needs to go on, whatever the
    records: the counter counts the completed ones. *)
Definition np_live (n : nat) (s : sched) (c : nat) : Prop :=
  length (store s) = n
  ∧ (c + length (List.filter (unfinished (store s)) (seq 0 n)) = n)%nat.

(** The passes a queued process can still take: one for every unit of
    remaining time, and one even when there is none. *)
Definition rr_weight (st : list Process) (j : nat) : nat :=
  match st !! j with
  | Some p => match remaining_time p with
              | Some r => Z.to_nat (Z.max 1 r)
              | None => 1
              end
  | None => 1
  end.

Definition rr_potential (procs fl : list nat) (s : rr_state) : nat :=
  (sum_list_with (rr_weight (store (rr_sched s))) (ready_queue s ++ fl)
   + sum_list_with (λ j, rr_weight (store (rr_sched s)) j + 1)
       (drop (rr_i s) procs)
   + rr_wait procs s)%nat.

(** What the loop of Round Robin needs to go on, whatever the records. *)
Definition rr_live (procs fl : list nat) (s : rr_state) : Prop :=
  let st := store (rr_sched s) in
  NoDup (ready_queue s ++ fl)
  ∧ (∀ j, j ∈ ready_queue s ++ fl → j ∈ take (rr_i s) procs)
  ∧ (∀ j, j ∈ ready_queue s ++ fl →
          ∃ p r, st !! j = Some p ∧ remaining_time p = Some r)
  ∧ (∀ j, j ∈ drop (rr_i s) procs →
          ∃ p, st !! j = Some p ∧ remaining_time p = Some (burst_time p))
  ∧ (∀ j, j ∈ take (rr_i s) procs → j ∉ ready_queue s ++ fl →
          done_at st j).

(** * Properties *)

(** ** Static fields are a frame of every operation *)

Lemma static_set_start v p :
  static_fields (set_start_time v p) = static_fields p.
Proof. reflexivity. Qed.
Lemma static_set_completion v p :
  static_fields (set_completion_time v p) = static_fields p.
Proof. reflexivity. Qed.
Lemma static_set_remaining v p :
  static_fields (set_remaining_time v p) = static_fields p.
Proof. reflexivity. Qed.
Lemma static_reset_one p : static_fields (reset_one p) = static_fields p.
Proof. reflexivity. Qed.

Lemma static_first_dispatch t p :
  static_fields (first_dispatch t p) = static_fields p.
Proof.
  unfold first_dispatch.
  destruct (start_time p); [reflexivity|].
  destruct (remaining_time _); reflexivity.
Qed.

Lemma static_insert (st : list Process) (i : nat) (p p' : Process) :
  st !! i = Some p →
  static_fields p' = static_fields p →
  map static_fields (<[i := p']> st) = map static_fields st.
Proof.
  intros Hi Hs.
  change (static_fields <$> <[i := p']> st = static_fields <$> st).
  rewrite list_fmap_insert, Hs.
  apply list_insert_id.
  rewrite list_lookup_fmap, Hi. reflexivity.
Qed.

Lemma static_reset ps :
  map static_fields (reset_processes ps) = map static_fields ps.
Proof.
  unfold reset_processes. rewrite map_map. reflexivity.
Qed.

Lemma reset_by_static ps ps' :
  map static_fields ps = map static_fields ps' →
  reset_processes ps = reset_processes ps'.
Proof.
  revert ps'. induction ps as [|p ps IH]; intros [|p' ps'] H; try discriminate.
  - reflexivity.
  - simpl in H. injection H as H1 H2 H3 H4 Hps.
    simpl. f_equal; [|apply IH, Hps].
    unfold reset_one. congruence.
Qed.

Lemma metrics_loop_spec ps tw tt :
  metrics_loop ps tw tt
  = (map derive ps,
     tw + sum_list (omap finished_waiting ps),
     tt + sum_list (omap finished_turnaround ps)).
Proof.
  revert tw tt. induction ps as [|p ps IH]; intros tw tt; simpl.
  - unfold sum_list; simpl. rewrite !Z.add_0_r. reflexivity.
  - unfold metrics_body, derive, finished_waiting, finished_turnaround.
    destruct (completion_time p) as [c|]; simpl; rewrite IH; unfold sum_list; simpl;
      rewrite <- ?Z.add_assoc; reflexivity.
Qed.

Lemma compute_metrics_store ps : fst (compute_metrics ps) = map derive ps.
Proof.
  unfold compute_metrics. rewrite metrics_loop_spec. reflexivity.
Qed.

Lemma static_derive p : static_fields (derive p) = static_fields p.
Proof. unfold derive. destruct (completion_time p); reflexivity. Qed.

Lemma static_compute_metrics ps :
  map static_fields (fst (compute_metrics ps)) = map static_fields ps.
Proof.
  rewrite compute_metrics_store, map_map.
  apply map_ext. intros p. apply static_derive.
Qed.

Lemma metrics_and_return_store s :
  fst (metrics_and_return s) = map derive (store s).
Proof.
  unfold metrics_and_return. rewrite <- compute_metrics_store.
  destruct (compute_metrics (store s)). reflexivity.
Qed.

Lemma static_metrics_and_return s :
  map static_fields (fst (metrics_and_return s))
  = map static_fields (store s).
Proof.
  rewrite metrics_and_return_store, <- compute_metrics_store.
  apply static_compute_metrics.
Qed.

Lemma static_run_to_completion i p s :
  store s !! i = Some p →
  map static_fields (store (run_to_completion i p s))
  = map static_fields (store s).
Proof. intros H. simpl. eapply static_insert; eauto. Qed.

Lemma static_fcfs_body s i :
  map static_fields (store (fcfs_body s i)) = map static_fields (store s).
Proof.
  unfold fcfs_body. destruct (store s !! i) as [p|] eqn:E; [|reflexivity].
  destruct (time s <? arrival_time p);
    rewrite static_run_to_completion; auto.
Qed.

Lemma static_fcfs_loop procs s :
  map static_fields (store (fold_left fcfs_body procs s))
  = map static_fields (store s).
Proof.
  revert s. induction procs as [|i procs IH]; intros s; simpl; [reflexivity|].
  rewrite IH. apply static_fcfs_body.
Qed.

Lemma static_np_step key remaining s c s' c' :
  np_step key remaining s c = Some (s', c') →
  map static_fields (store s') = map static_fields (store s).
Proof.
  unfold np_step. destruct (ready_list _ _) as [|r rs].
  - destruct (min_int _); intros [= <- <-]. reflexivity.
  - destruct (store s !! _) as [p|] eqn:E; intros [= <- <-].
    apply static_run_to_completion, E.
Qed.

Lemma static_np_loop key fuel remaining n s c s' :
  np_loop key fuel remaining n s c = Some s' →
  map static_fields (store s') = map static_fields (store s).
Proof.
  revert s c. induction fuel as [|fuel IH]; intros s c; simpl; [discriminate|].
  destruct (c <? n)%nat; [|intros [= <-]; reflexivity].
  destruct (np_step key remaining s c) as [[s1 c1]|] eqn:E;
    [|intros [= <-]; reflexivity].
  intros H. rewrite (IH _ _ H). eapply static_np_step, E.
Qed.

Lemma static_admit fuel procs s :
  map static_fields (store (rr_sched (admit_while fuel procs s)))
  = map static_fields (store (rr_sched s)).
Proof.
  revert s. induction fuel as [|fuel IH]; intros s; simpl; [reflexivity|].
  destruct (procs !! rr_i s) as [j|]; [|reflexivity].
  destruct (store (rr_sched s) !! j) as [p|] eqn:E; [|reflexivity].
  destruct (arrival_time p <=? time (rr_sched s)); [|reflexivity].
  rewrite IH. simpl. eapply static_insert; eauto.
Qed.

Lemma static_rr_body procs q s :
  map static_fields (store (rr_sched (rr_next_state (rr_body procs q s))))
  = map static_fields (store (rr_sched s)).
Proof.
  unfold rr_body, admit_arrived.
  set (s1 := admit_while _ procs s).
  assert (H1 : map static_fields (store (rr_sched s1))
               = map static_fields (store (rr_sched s)))
    by apply static_admit.
  destruct (ready_queue s1) as [|cur rest].
  - destruct (procs !! rr_i s1); simpl; [|exact H1].
    destruct (_ <? _); simpl; exact H1.
  - destruct (store (rr_sched s1) !! cur) as [p|] eqn:E; simpl; [|exact H1].
    destruct (remaining_time (first_dispatch _ p)) as [rem|] eqn:Er; simpl;
      [|exact H1].
    match goal with |- context [admit_while ?f procs ?x] => set (s2 := admit_while f procs x) end.
    assert (H2 : map static_fields (store (rr_sched s2))
                 = map static_fields (store (rr_sched s))).
    { unfold s2. rewrite static_admit. simpl. rewrite <- H1.
      eapply static_insert; eauto.
      rewrite static_set_remaining. apply static_first_dispatch. }
    destruct (store (rr_sched s2) !! cur) as [p3|] eqn:E3; simpl; [|exact H2].
    destruct (remaining_time p3); simpl; [|exact H2].
    destruct (0 <? _); simpl; [exact H2|].
    rewrite <- H2. eapply static_insert; eauto.
Qed.

Lemma static_rr_loop fuel procs q s :
  map static_fields (store (rr_sched (fst (rr_loop fuel procs q s))))
  = map static_fields (store (rr_sched s)).
Proof.
  revert s. induction fuel as [|fuel IH]; intros s; simpl; [reflexivity|].
  destruct (rr_guard procs s); [|reflexivity].
  pose proof (static_rr_body procs q s) as Hb.
  destruct (rr_body procs q s) as [s'|s'|e s']; simpl in *;
    [rewrite IH|..]; exact Hb.
Qed.

Lemma static_fcfs ps :
  map static_fields (fst (fcfs ps)) = map static_fields ps.
Proof.
  unfold fcfs. cbv zeta.
  rewrite static_metrics_and_return, static_fcfs_loop. simpl.
  apply static_reset.
Qed.

Lemma static_non_preemptive key ps :
  map static_fields (fst (non_preemptive key ps)) = map static_fields ps.
Proof.
  unfold non_preemptive.
  destruct (np_loop _ _ _ _ _ _) as [s|] eqn:E; simpl.
  - rewrite static_metrics_and_return, (static_np_loop _ _ _ _ _ _ _ E).
    simpl. apply static_reset.
  - apply static_reset.
Qed.

Lemma static_round_robin ps q :
  map static_fields (fst (round_robin ps q)) = map static_fields ps.
Proof.
  unfold round_robin. destruct (q <=? 0); [reflexivity|].
  unfold rr_init. cbv zeta.
  match goal with |- context [rr_loop ?f ?p q ?s] =>
    pose proof (static_rr_loop f p q s) as H;
    destruct (rr_loop f p q s) as [s' [[]|e|]] end;
    cbn [fst snd rr_sched store] in *;
    rewrite ?static_metrics_and_return, H; apply static_reset.
Qed.

(** ** Timelines *)

Lemma chain_le t0 tl t1 : chain t0 tl t1 → t0 ≤ t1.
Proof.
  revert t0. induction tl as [|b tl IH]; intros t0; simpl.
  - lia.
  - intros (_ & Hlt & Hc). apply IH in Hc. lia.
Qed.

Lemma chain_snoc t0 tl t1 t2 l :
  chain t0 tl t1 → t1 < t2 → chain t0 (tl ++ [(t1, t2, l)]) t2.
Proof.
  revert t0. induction tl as [|b tl IH]; intros t0; simpl.
  - intros -> Hlt. unfold block_start, block_end. simpl. auto.
  - intros (Hs & Hlt & Hc) H2. auto.
Qed.

Lemma chain_positive t0 tl t1 : chain t0 tl t1 → positive_blocks tl.
Proof.
  revert t0. induction tl as [|b tl IH]; intros t0; simpl.
  - constructor.
  - intros (Hs & Hlt & Hc). constructor; [lia | eapply IH, Hc].
Qed.

Lemma chain_contiguous t0 tl t1 : chain t0 tl t1 → contiguous tl.
Proof.
  revert t0. induction tl as [|b tl IH]; intros t0; simpl; [auto|].
  intros (Hs & Hlt & Hc). split; [|eapply IH, Hc].
  destruct tl as [|b2 tl]; [auto|]. simpl in Hc. symmetry. apply Hc.
Qed.

Lemma chain_head t0 tl t1 b :
  chain t0 tl t1 → head tl = Some b → block_start b = t0.
Proof. destruct tl; simpl; [discriminate|]. intros (H & _) [= ->]. exact H. Qed.

Lemma chain_last t0 tl t1 b :
  chain t0 tl t1 → last tl = Some b → block_end b = t1.
Proof.
  revert t0. induction tl as [|b' tl IH]; intros t0; [discriminate|].
  intros (Hs & Hlt & Hc) Hl.
  destruct tl as [|b2 tl].
  - simpl in *. injection Hl as ->. exact Hc.
  - eapply IH; [exact Hc|]. exact Hl.
Qed.

Lemma chain_bounds t0 tl t1 b :
  chain t0 tl t1 → b ∈ tl → t0 ≤ block_start b ∧ block_end b ≤ t1.
Proof.
  revert t0. induction tl as [|b' tl IH]; intros t0 Hc Hin.
  - inversion Hin.
  - destruct Hc as (Hs & Hlt & Hc).
    apply elem_of_cons in Hin as [->|Hin].
    + apply chain_le in Hc. lia.
    + destruct (IH _ Hc Hin). lia.
Qed.

(** ** What every finished run looks like *)

Lemma derive_start p : start_time (derive p) = start_time p.
Proof. unfold derive. destruct (completion_time p); reflexivity. Qed.

Lemma derive_completion p : completion_time (derive p) = completion_time p.
Proof. unfold derive. destruct (completion_time p) eqn:E; simpl; auto. Qed.

(** ** The true division *)

Lemma pow2_pos e : (0 < pow2 e)%Q.
Proof. apply Qpower_0_lt. reflexivity. Qed.

Lemma pow2_le e1 e2 : e1 <= e2 → (pow2 e1 <= pow2 e2)%Q.
Proof. intros H. apply Qpower_le_compat_l; [exact H | discriminate]. Qed.

Lemma pow2_lt_inv e1 e2 : (pow2 e1 < pow2 e2)%Q → e1 < e2.
Proof.
  intros H. destruct (Z.lt_ge_cases e1 e2) as [?|Hge]; [assumption|].
  apply pow2_le in Hge. lra.
Qed.

Lemma pow2_add a b : (pow2 (a + b) == pow2 a * pow2 b)%Q.
Proof. apply Qpower_plus. discriminate. Qed.

Lemma pow2_Z k : 0 <= k → (pow2 k == inject_Z (2 ^ k))%Q.
Proof.
  intros H. unfold pow2. rewrite Zpower_Qpower by exact H. reflexivity.
Qed.

Lemma floor_bounds q :
  (inject_Z (Qfloor q) <= q)%Q ∧ (q < inject_Z (Qfloor q) + 1)%Q.
Proof.
  split; [apply Qfloor_le|].
  pose proof (Qlt_floor q) as H. rewrite inject_Z_plus in H. exact H.
Qed.

(** Rounding to the nearest integer is monotone and leaves the integers
    where they are. *)
Lemma round_half_even_le q1 q2 :
  (q1 <= q2)%Q → round_half_even q1 <= round_half_even q2.
Proof.
  intros Hle. unfold round_half_even.
  pose proof (Qfloor_resp_le _ _ Hle) as Hf.
  destruct (floor_bounds q1) as [Hl1 Hu1], (floor_bounds q2) as [Hl2 Hu2].
  set (f1 := Qfloor q1) in *. set (f2 := Qfloor q2) in *.
  destruct (Z.eq_dec f1 f2) as [E|Hne].
  - rewrite <- E in *.
    destruct (Qcompare_spec (q1 - inject_Z f1) (1 # 2)) as [H1|H1|H1],
             (Qcompare_spec (q2 - inject_Z f1) (1 # 2)) as [H2|H2|H2];
      try lia; try (exfalso; lra); destruct (Z.even f1); lia.
  - destruct (q1 - inject_Z f1 ?= 1 # 2)%Q, (q2 - inject_Z f2 ?= 1 # 2)%Q;
      try destruct (Z.even f1); try destruct (Z.even f2); lia.
Qed.

Lemma round_half_even_Z m : round_half_even (inject_Z m) = m.
Proof.
  unfold round_half_even. rewrite Qfloor_Z.
  destruct (Qcompare_spec (inject_Z m - inject_Z m) (1 # 2));
    [exfalso; lra | reflexivity | exfalso; lra].
Qed.

Lemma round_half_even_nonneg q : (0 <= q)%Q → 0 <= round_half_even q.
Proof.
  intros H. apply round_half_even_le in H.
  change 0%Q with (inject_Z 0) in H. rewrite round_half_even_Z in H. exact H.
Qed.

Lemma Qlog2_spec q :
  (0 < q)%Q → (pow2 (Qlog2 q) <= q)%Q ∧ (q < pow2 (Qlog2 q + 1))%Q.
Proof.
  intros Hq. destruct q as [a b]. unfold Qlog2. cbn [Qnum Qden].
  assert (Ha : 0 < a) by (unfold Qlt in Hq; simpl in Hq; lia).
  destruct (Z.log2_spec a Ha) as [Hal Hau].
  destruct (Z.log2_spec (Z.pos b) (Pos2Z.is_pos b)) as [Hbl Hbu].
  pose proof (Z.log2_nonneg a) as Hla.
  pose proof (Z.log2_nonneg (Z.pos b)) as Hlb.
  set (la := Z.log2 a) in *. set (lb := Z.log2 (Z.pos b)) in *.
  assert (Eq : (a # b == inject_Z a / inject_Z (Z.pos b))%Q)
    by apply Qmake_Qdiv.
  rewrite Zle_Qle in Hal, Hbl. rewrite Zlt_Qlt in Hau, Hbu.
  rewrite <- pow2_Z in Hal, Hbl, Hau, Hbu by lia.
  assert (EA : (pow2 (la + 1) == 2 * pow2 la)%Q)
    by (rewrite pow2_add; change (pow2 1) with 2%Q; ring).
  assert (EB : (pow2 (lb + 1) == 2 * pow2 lb)%Q)
    by (rewrite pow2_add; change (pow2 1) with 2%Q; ring).
  rewrite EA in Hau. rewrite EB in Hbu.
  pose proof (pow2_pos la) as Pa. pose proof (pow2_pos lb) as Pb.
  assert (E0 : (pow2 (la - lb) * pow2 lb == pow2 la)%Q).
  { rewrite <- pow2_add. replace (la - lb + lb) with la by lia. reflexivity. }
  assert (E1 : (pow2 (la - lb + 1) == 2 * pow2 (la - lb))%Q)
    by (rewrite pow2_add; change (pow2 1) with 2%Q; ring).
  assert (E2 : (pow2 (la - lb - 1 + 1) == pow2 (la - lb))%Q)
    by (replace (la - lb - 1 + 1) with (la - lb) by lia; reflexivity).
  assert (E3 : (2 * pow2 (la - lb - 1) == pow2 (la - lb))%Q).
  { rewrite <- E2, pow2_add. change (pow2 1) with 2%Q. ring. }
  pose proof (pow2_pos (la - lb)) as Pe.
  pose proof (pow2_pos (la - lb - 1)) as Pe1.
  set (X := pow2 (la - lb)) in *. set (X1 := pow2 (la - lb - 1)) in *.
  set (A := pow2 la) in *. set (B := pow2 lb) in *.
  set (qa := inject_Z a) in *. set (qb := inject_Z (Z.pos b)) in *.
  assert (Hqb : (0 < qb)%Q) by lra.
  destruct (Qle_bool X (a # b)) eqn:Et.
  - apply Qle_bool_iff in Et. split; [exact Et|].
    rewrite E1, Eq. apply Qlt_shift_div_r; [exact Hqb|].
    assert ((X * B <= X * qb)%Q) by (apply Qmult_le_l; lra).
    lra.
  - assert (Hn : ¬ (X <= a # b)%Q).
    { intros H. apply Qle_bool_iff in H. congruence. }
    apply Qnot_le_lt in Hn. split.
    + rewrite Eq. apply Qle_shift_div_l; [exact Hqb|].
      assert ((X1 * qb <= X1 * (2 * B))%Q) by (apply Qmult_le_l; lra).
      assert ((X1 * (2 * B) == X * B)%Q) by (rewrite <- E3; ring).
      fold X1. lra.
    + rewrite E2. exact Hn.
Qed.

Lemma float_exp_spec q :
  (0 < q)%Q →
  (pow2 (Qlog2 (Qabs q)) <= q)%Q ∧ (q < pow2 (Qlog2 (Qabs q) + 1))%Q.
Proof.
  intros Hq. assert (E : (Qabs q == q)%Q) by (apply Qabs_pos; lra).
  destruct (Qlog2_spec (Qabs q)) as [H1 H2]; [lra|]. split; lra.
Qed.

Lemma scaled_le q1 q2 u :
  (0 < u)%Q → (q1 <= q2)%Q →
  (inject_Z (round_half_even (q1 / u)) * u
   <= inject_Z (round_half_even (q2 / u)) * u)%Q.
Proof.
  intros Hu H. apply Qmult_le_compat_r; [|lra].
  rewrite <- Zle_Qle. apply round_half_even_le.
  apply Qmult_le_compat_r; [exact H|].
  apply Qlt_le_weak, Qinv_lt_0_compat, Hu.
Qed.

Lemma nearest_float_nonneg q : (0 <= q)%Q → (0 <= nearest_float q)%Q.
Proof.
  intros H. unfold nearest_float. cbv zeta. rewrite Qred_correct.
  pose proof (pow2_pos (float_exp q)) as Hu.
  apply Qmult_le_0_compat; [|lra].
  change 0%Q with (inject_Z 0). rewrite <- Zle_Qle.
  apply round_half_even_nonneg. apply Qle_shift_div_l; [exact Hu|]. lra.
Qed.

(** Rounding to the nearest double is monotone: two binades meet in a
    power of two, which is a double of both. *)
Lemma nearest_float_le q1 q2 :
  (0 <= q1)%Q → (q1 <= q2)%Q → (nearest_float q1 <= nearest_float q2)%Q.
Proof.
  intros H1 H12.
  destruct (Qlt_le_dec 0 q1) as [Hpos|Hz].
  - unfold nearest_float. cbv zeta. rewrite !Qred_correct.
    destruct (float_exp_spec q1 Hpos) as [Hl1 Hu1].
    destruct (float_exp_spec q2) as [Hl2 Hu2]; [lra|].
    unfold float_exp.
    set (L1 := Qlog2 (Qabs q1)) in *. set (L2 := Qlog2 (Qabs q2)) in *.
    assert (HL : L1 <= L2).
    { assert (H : (pow2 L1 < pow2 (L2 + 1))%Q) by lra.
      apply pow2_lt_inv in H. lia. }
    set (e1 := Z.max (L1 - 52) (-1074)). set (e2 := Z.max (L2 - 52) (-1074)).
    pose proof (pow2_pos e1) as Hu1'. pose proof (pow2_pos e2) as Hu2'.
    destruct (Z.eq_dec e1 e2) as [E|Hne].
    + rewrite <- E. apply scaled_le; assumption.
    + assert (He : e1 < e2) by lia.
      assert (Hk : e2 = L2 - 52) by lia.
      apply Qle_trans with (pow2 L2).
      * assert (Ek : (pow2 L2 == inject_Z (2 ^ (L2 - e1)) * pow2 e1)%Q).
        { rewrite <- pow2_Z by lia. rewrite <- pow2_add.
          replace (L2 - e1 + e1) with L2 by lia. reflexivity. }
        rewrite Ek. apply Qmult_le_compat_r; [|lra].
        rewrite <- Zle_Qle.
        rewrite <- (round_half_even_Z (2 ^ (L2 - e1))).
        apply round_half_even_le. apply Qle_shift_div_r; [exact Hu1'|].
        rewrite <- Ek.
        assert (Hp : (pow2 (L1 + 1) <= pow2 L2)%Q) by (apply pow2_le; lia).
        lra.
      * assert (Ek : (pow2 L2 == inject_Z (2 ^ 52) * pow2 e2)%Q).
        { rewrite <- pow2_Z by lia. rewrite <- pow2_add.
          replace (52 + e2) with L2 by lia. reflexivity. }
        rewrite Ek at 1. apply Qmult_le_compat_r; [|lra].
        rewrite <- Zle_Qle.
        rewrite <- (round_half_even_Z (2 ^ 52)) at 1.
        apply round_half_even_le. apply Qle_shift_div_l; [exact Hu2'|].
        rewrite <- Ek. exact Hl2.
  - apply Qle_trans with 0%Q; [|apply nearest_float_nonneg; lra].
    unfold nearest_float. cbv zeta. rewrite Qred_correct.
    pose proof (pow2_pos (float_exp q1)) as Hu.
    assert (Hr : round_half_even (q1 / pow2 (float_exp q1)) <= 0).
    { assert (H : (q1 / pow2 (float_exp q1) <= inject_Z 0)%Q).
      { apply Qle_shift_div_r; [exact Hu|]. change (inject_Z 0) with 0%Q.
        lra. }
      apply round_half_even_le in H. rewrite round_half_even_Z in H.
      exact H. }
    rewrite Zle_Qle in Hr. change (inject_Z 0) with 0%Q in Hr.
    assert (H0 : (0 == 0 * pow2 (float_exp q1))%Q) by ring.
    rewrite H0. apply Qmult_le_compat_r; lra.
Qed.

(** The division on examples: a quotient that is not a double, the
    largest double and the first integer beyond it, a tie, and the
    least quotient that is not rounded to zero. *)
Example py_true_div_examples :
  py_true_div 8 3 = Returns (6004799503160661 # 2251799813685248)%Q
  ∧ py_true_div 1 10 = Returns (3602879701896397 # 36028797018963968)%Q
  ∧ py_true_div (2 ^ 1024 - 2 ^ 970 - 1) 1
    = Returns (inject_Z (2 ^ 1024 - 2 ^ 971))
  ∧ py_true_div (2 ^ 1024 - 2 ^ 970) 1 = Raises OverflowError
  ∧ py_true_div (2 * 10 ^ 308) 1 = Raises OverflowError
  ∧ py_true_div (2 ^ 53 + 1) 1 = Returns (inject_Z (2 ^ 53))
  ∧ py_true_div (2 ^ 53 + 3) 1 = Returns (inject_Z (2 ^ 53 + 4))
  ∧ py_true_div 1 (2 ^ 1075) = Returns 0%Q
  ∧ py_true_div 3 (2 ^ 1076) = Returns (1 # 2 ^ 1074)%Q.
Proof. repeat split; vm_compute; reflexivity. Qed.

(** The division returns a float or raises [OverflowError], nothing
    else. *)
Lemma py_true_div_outcome a b :
  b ≠ 0 →
  (∃ x, py_true_div a b = Returns x) ∨ py_true_div a b = Raises OverflowError.
Proof.
  intros Hb. unfold py_true_div.
  destruct (Z.eqb_spec b 0); [contradiction|].
  destruct (Qle_bool _ _); eauto.
Qed.

Lemma average_outcome total n :
  (∃ x, average total n = Returns x) ∨ average total n = Raises OverflowError.
Proof.
  unfold average. destruct (Z.ltb_spec 0 (Z.of_nat n)); [|eauto].
  apply py_true_div_outcome. lia.
Qed.

(** ** [compute_metrics] and the end of a run *)

Lemma compute_metrics_outcome ps :
  snd (compute_metrics ps)
  = and_then (average (sum_list (omap finished_waiting ps)) (length ps))
      (λ avg_waiting,
       and_then (average (sum_list (omap finished_turnaround ps)) (length ps))
         (λ avg_turnaround,
          Returns (mkMetrics avg_waiting avg_turnaround))).
Proof. unfold compute_metrics. rewrite metrics_loop_spec. reflexivity. Qed.

Lemma compute_metrics_returns_or_overflows ps :
  (∃ m, snd (compute_metrics ps) = Returns m)
  ∨ snd (compute_metrics ps) = Raises OverflowError.
Proof.
  rewrite compute_metrics_outcome.
  destruct (average_outcome (sum_list (omap finished_waiting ps)) (length ps))
    as [[x ->]| ->]; [|right; reflexivity].
  destruct (average_outcome (sum_list (omap finished_turnaround ps))
                            (length ps))
    as [[y ->]| ->]; [left; eexists; reflexivity | right; reflexivity].
Qed.

Lemma derive_idem p : derive (derive p) = derive p.
Proof.
  unfold derive. destruct (completion_time p) as [c|] eqn:E; simpl;
    rewrite E; reflexivity.
Qed.

Lemma finished_waiting_derive ps :
  omap finished_waiting (map derive ps) = omap finished_waiting ps.
Proof.
  induction ps as [|p ps IH]; [reflexivity|]. simpl.
  assert (E : finished_waiting (derive p) = finished_waiting p).
  { unfold finished_waiting. rewrite derive_completion.
    unfold derive. destruct (completion_time p); reflexivity. }
  rewrite E. change (list_omap Process Z) with (@omap list _ Process Z).
  rewrite IH. reflexivity.
Qed.

Lemma finished_turnaround_derive ps :
  omap finished_turnaround (map derive ps) = omap finished_turnaround ps.
Proof.
  induction ps as [|p ps IH]; [reflexivity|]. simpl.
  assert (E : finished_turnaround (derive p) = finished_turnaround p).
  { unfold finished_turnaround. rewrite derive_completion.
    unfold derive. destruct (completion_time p); reflexivity. }
  rewrite E. change (list_omap Process Z) with (@omap list _ Process Z).
  rewrite IH. reflexivity.
Qed.

(** The averages of the records [compute_metrics] leaves are the
    averages it has just computed. *)
Lemma compute_metrics_derive ps :
  snd (compute_metrics (map derive ps)) = snd (compute_metrics ps).
Proof.
  rewrite !compute_metrics_outcome, length_map.
  rewrite finished_waiting_derive, finished_turnaround_derive. reflexivity.
Qed.

Lemma metrics_and_return_spec s :
  metrics_and_return s = hands_back (map derive (store s)) (schedule s).
Proof.
  unfold metrics_and_return, hands_back, averages_fit.
  rewrite compute_metrics_derive, <- compute_metrics_store.
  destruct (compute_metrics_returns_or_overflows (store s))
    as [[m Hm]|Hm]; destruct (compute_metrics (store s)) as [st out];
    simpl in *; rewrite Hm; reflexivity.
Qed.

Lemma hands_back_store st tl : fst (hands_back st tl) = st.
Proof. reflexivity. Qed.

(** The two ways a run can end, told apart. *)
Lemma ends_with_returns r P st tl :
  ends_with r P → r = (st, Returns tl) → P st tl.
Proof.
  intros (st' & tl' & -> & H). unfold hands_back.
  destruct (averages_fit st'); [|discriminate]. intros [= <- <-]. exact H.
Qed.

Lemma ends_with_impl r (P Q : list Process → Timeline → Prop) :
  (∀ st tl, r = hands_back st tl → P st tl → Q st tl) →
  ends_with r P → ends_with r Q.
Proof. intros H (st & tl & E & HP). exists st, tl. eauto. Qed.

Lemma ends_with_and r (P Q : list Process → Timeline → Prop) :
  ends_with r P → (∀ st tl, r = hands_back st tl → Q st tl) →
  ends_with r (λ st tl, P st tl ∧ Q st tl).
Proof. intros (st & tl & E & HP) H. exists st, tl. eauto. Qed.

Lemma every_record_intro ps st (P : Process → Prop) :
  map static_fields st = map static_fields ps →
  Forall P st → every_record ps st P.
Proof.
  revert st. induction ps as [|p0 ps IH]; intros [|p st] H HP;
    try discriminate; [constructor|].
  simpl in H. injection H as H1 H2 H3 H4 Hps.
  apply Forall_cons in HP as [Hp HP].
  constructor; [|apply IH; assumption].
  split; [unfold static_fields; congruence | exact Hp].
Qed.

Lemma every_record_elim ps st (P : Process → Prop) :
  every_record ps st P →
  map static_fields st = map static_fields ps ∧ Forall P st.
Proof.
  induction 1 as [|p0 p ps st [Hs Hp] _ [IH1 IH2]]; [split; constructor|].
  split; [simpl; congruence | constructor; assumption].
Qed.

Lemma final_records t0 s :
  final_ok t0 s → Forall rec_wf (store s) →
  Forall record_ok (map derive (store s)).
Proof.
  intros (_ & Hrec & _) Hwf.
  change (Forall record_ok (derive <$> store s)).
  rewrite Forall_fmap.
  rewrite Forall_forall in *. intros p Hp.
  destruct (Hrec p Hp) as (st & c & Hst & Hc & Ha & _ & Hb & _).
  destruct (Hwf p Hp) as [Hburst _].
  unfold record_ok, compose, derive. rewrite Hc. simpl.
  exists st, c, (c - arrival_time p), (c - arrival_time p - burst_time p).
  repeat split; auto; lia.
Qed.

Lemma start_points_derive st tl x :
  start_points (map derive st) tl x ↔ start_points st tl x.
Proof.
  unfold start_points. split; (intros [(p & Hp & Hs)|H]; [left|right; exact H]).
  - change (p ∈ derive <$> st) in Hp.
    apply list_elem_of_fmap in Hp as (p0 & -> & Hp0).
    exists p0. rewrite derive_start in Hs. auto.
  - exists (derive p). rewrite derive_start. split; [|exact Hs].
    change (derive p ∈ derive <$> st). apply list_elem_of_fmap. eauto.
Qed.

Lemma completion_points_derive st x :
  completion_points (map derive st) x ↔ completion_points st x.
Proof.
  unfold completion_points. split; intros (p & Hp & Hs).
  - change (p ∈ derive <$> st) in Hp.
    apply list_elem_of_fmap in Hp as (p0 & -> & Hp0).
    exists p0. rewrite derive_completion in Hs. auto.
  - exists (derive p). rewrite derive_completion. split; [|exact Hs].
    change (derive p ∈ derive <$> st). apply list_elem_of_fmap. eauto.
Qed.

Lemma final_timeline t0 s :
  final_ok t0 s → timeline_ok (map derive (store s)) (schedule s).
Proof.
  intros (Hch & Hrec & Hnil & Hne).
  split; [eapply chain_positive, Hch|].
  split; [eapply chain_contiguous, Hch|].
  destruct (schedule s) as [|b tl] eqn:Es.
  - left. rewrite Hnil; auto.
  - right. rewrite <- Es in *.
    assert (Hs : schedule s ≠ []) by (rewrite Es; discriminate).
    destruct (Hne Hs) as [Hsp Hcp].
    destruct (last (schedule s)) as [b1|] eqn:El;
      [|apply last_None in El; contradiction].
    exists b, b1. split; [rewrite Es; reflexivity|]. split; [reflexivity|].
    rewrite (chain_head _ _ _ b Hch) by (rewrite Es; reflexivity).
    rewrite (chain_last _ _ _ b1 Hch El).
    rewrite Forall_forall in Hrec.
    split; split.
    + apply start_points_derive, Hsp.
    + intros y Hy. apply (proj1 (start_points_derive _ _ _)) in Hy.
      destruct Hy as [(p & Hp & Hy)|(b' & Hb' & _ & <-)].
      * destruct (Hrec p Hp) as (st & c & Hst & _ & _ & Ht0 & _). congruence.
      * eapply chain_bounds; eauto.
    + apply completion_points_derive, Hcp.
    + intros y Hy. apply (proj1 (completion_points_derive _ _)) in Hy.
      destruct Hy as (p & Hp & Hy).
      destruct (Hrec p Hp) as (st & c & _ & Hc & _ & _ & _ & Ht1). congruence.
Qed.

(** ** The invariant of the run-to-completion loops (FCFS, SJF, Priority) *)

Lemma rec_inv_mono t0 t t' p : t ≤ t' → rec_inv t0 t p → rec_inv t0 t' p.
Proof.
  unfold rec_inv. intros Ht.
  destruct (start_time p), (completion_time p); auto.
  intros (? & ? & ? & ?). repeat split; auto; lia.
Qed.

Lemma elem_of_insert_keep (st : list Process) (i : nat) (p p' q : Process) :
  st !! i = Some p → q ∈ st → q ≠ p → q ∈ <[i := p']> st.
Proof.
  intros Hi Hq Hne.
  apply list_elem_of_lookup in Hq as [j Hj].
  apply list_elem_of_lookup. exists j.
  rewrite list_lookup_insert_ne; [exact Hj|].
  intros ->. congruence.
Qed.

Lemma start_points_grow st st' tl ext x :
  (∀ q, q ∈ st → start_time q = Some x → q ∈ st') →
  start_points st tl x → start_points st' (tl ++ ext) x.
Proof.
  intros Hkeep [(p & Hp & Hs)|(b & Hb & Hl & Hx)].
  - left. exists p. auto.
  - right. exists b. split; [apply elem_of_app; auto | auto].
Qed.

Lemma block_inv_grow st st' b :
  (∀ q, q ∈ st → completion_time q ≠ None → q ∈ st') →
  block_inv st b → block_inv st' b.
Proof.
  intros Hkeep [Hl|(p & Hp & Hpid & Hs & Hc)]; [left; exact Hl|].
  right. exists p. repeat split; auto. apply Hkeep; auto. congruence.
Qed.

Lemma run_inv_idle t0 s t :
  run_inv t0 s → time s < t → run_inv t0 (go_idle t s).
Proof.
  intros (Hch & Hrec & Hfirst & Hbl) Ht. unfold go_idle, run_inv. simpl.
  split; [apply chain_snoc; auto|].
  split; [eapply Forall_impl; [exact Hrec|];
          intros p; apply rec_inv_mono; lia|].
  split.
  - intros _. destruct (schedule s) as [|b tl] eqn:Es.
    + simpl in Hch. subst t0. right. exists (time s, t, idle_label).
      split; [apply list_elem_of_singleton; reflexivity | auto].
    + eapply start_points_grow; [|apply Hfirst; discriminate]. auto.
  - apply Forall_app. split; [exact Hbl|].
    constructor; [|constructor]. left. reflexivity.
Qed.

Lemma run_inv_dispatch t0 s i p :
  run_inv t0 s →
  store s !! i = Some p →
  completion_time p = None →
  arrival_time p ≤ time s →
  0 < burst_time p →
  run_inv t0 (run_to_completion i p s)
  ∧ completion_points (store (run_to_completion i p s))
                      (time (run_to_completion i p s)).
Proof.
  intros (Hch & Hrec & Hfirst & Hbl) Hi Hc Ha Hb.
  pose proof (chain_le _ _ _ Hch) as Ht0.
  pose proof (lookup_lt_Some _ _ _ Hi) as Hlen.
  set (p' := set_completion_time (Some (time s + burst_time p))
               (set_start_time (Some (time s)) p)).
  assert (Hp' : p' ∈ <[i := p']> (store s))
    by (apply list_elem_of_insert; exact Hlen).
  assert (Hkeep : ∀ q, q ∈ store s → completion_time q ≠ None →
                       q ∈ <[i := p']> (store s)).
  { intros q Hq Hqc. eapply elem_of_insert_keep; eauto. congruence. }
  assert (Hkeep' : ∀ q x, q ∈ store s → start_time q = Some x →
                          q ∈ <[i := p']> (store s)).
  { intros q x Hq Hqs. apply Hkeep; auto.
    rewrite Forall_forall in Hrec. specialize (Hrec q Hq).
    unfold rec_inv in Hrec. rewrite Hqs in Hrec.
    destruct (completion_time q); [discriminate | contradiction]. }
  unfold run_to_completion, run_inv. simpl. fold p'.
  split; [|exists p'; split; [exact Hp' | reflexivity]].
  split; [apply chain_snoc; auto; lia|].
  split.
  { apply Forall_insert.
    - eapply Forall_impl; [exact Hrec|]. intros q. apply rec_inv_mono. lia.
    - unfold rec_inv, p'. simpl. repeat split; auto; lia. }
  split.
  - intros _. destruct (schedule s) as [|b tl] eqn:Es.
    + simpl in Hch. subst t0. left. exists p'. split; [exact Hp'|reflexivity].
    + eapply start_points_grow; [|apply Hfirst; discriminate].
      intros q Hq Hqs. eapply Hkeep'; eauto.
  - apply Forall_app. split.
    + eapply Forall_impl; [exact Hbl|]. intros b. apply block_inv_grow, Hkeep.
    + constructor; [|constructor]. right. exists p'.
      split; [exact Hp' | repeat split].
Qed.

Lemma rec_wf_by_static st st' :
  map static_fields st = map static_fields st' →
  Forall rec_wf st → Forall rec_wf st'.
Proof.
  revert st'. induction st as [|p st IH]; intros [|p' st'] H; try discriminate.
  - auto.
  - simpl in H. injection H as H1 H2 H3 H4 Hst.
    intros Hf. apply Forall_cons in Hf as [Hp Hf].
    constructor; [|eapply IH; eauto].
    unfold rec_wf in *. rewrite <- H2, <- H3. exact Hp.
Qed.

Lemma sorted_insert_perm {A K} (ltb : K → K → bool) (key : A → K) x l :
  sorted_insert ltb key x l ≡ₚ x :: l.
Proof.
  induction l as [|y l IH]; simpl; [reflexivity|].
  destruct (ltb (key y) (key x)); [|reflexivity].
  rewrite IH. apply Permutation_swap.
Qed.

Lemma sorted_perm {A K} (ltb : K → K → bool) (key : A → K) l :
  sorted ltb key l ≡ₚ l.
Proof.
  induction l as [|x l IH]; simpl; [reflexivity|].
  rewrite sorted_insert_perm, IH. reflexivity.
Qed.

(** ** FCFS *)

Lemma fcfs_body_inv s i todo :
  fcfs_inv s (i :: todo) →
  fcfs_inv (fcfs_body s i) todo ∧ schedule (fcfs_body s i) ≠ [].
Proof.
  intros (Hrun & Hwf & Hnd & Htodo & Hdone & _).
  destruct (Htodo i) as (p & Hi & Hc); [left|].
  apply NoDup_cons in Hnd as [Hni Hnd].
  unfold fcfs_body. rewrite Hi.
  set (s1 := if time s <? arrival_time p then go_idle (arrival_time p) s else s).
  assert (Hs1 : run_inv 0 s1 ∧ store s1 = store s ∧ arrival_time p ≤ time s1).
  { unfold s1. destruct (Z.ltb_spec (time s) (arrival_time p)).
    - split; [apply run_inv_idle; auto|]. simpl. split; [reflexivity|lia].
    - auto. }
  destruct Hs1 as (Hrun1 & Hst1 & Ha1).
  pose proof (proj1 (Forall_forall _ _) Hwf p
                (list_elem_of_lookup_2 _ _ _ Hi)) as [Hb _].
  rewrite <- Hst1 in Hi.
  destruct (run_inv_dispatch 0 s1 i p Hrun1 Hi Hc Ha1 Hb) as [Hrun2 Hcp].
  split.
  - split; [exact Hrun2|].
    split. { simpl. rewrite Hst1. apply Forall_insert; [exact Hwf|].
             apply (proj1 (Forall_forall _ _) Hwf p).
             rewrite Hst1 in Hi. eapply list_elem_of_lookup_2, Hi. }
    split; [exact Hnd|].
    split; [|split; [|intros _; exact Hcp]].
    + intros j Hj. destruct (Htodo j) as (q & Hq & Hqc); [right; exact Hj|].
      exists q. split; [|exact Hqc]. simpl. rewrite Hst1.
      rewrite list_lookup_insert_ne; [exact Hq|]. intros ->. contradiction.
    + intros j q. simpl. rewrite Hst1. intros Hq Hj.
      destruct (decide (i = j)) as [->|Hne].
      * rewrite list_lookup_insert_eq in Hq
          by (rewrite <- Hst1; eapply lookup_lt_Some, Hi).
        injection Hq as <-. discriminate.
      * rewrite list_lookup_insert_ne in Hq by exact Hne.
        eapply Hdone; [exact Hq|].
        intros [->|?]%elem_of_cons; contradiction.
  - simpl. intros H. apply app_eq_nil in H as [_ H]. discriminate.
Qed.

Lemma fcfs_loop_inv todo s :
  fcfs_inv s todo →
  fcfs_inv (fold_left fcfs_body todo s) []
  ∧ (todo ≠ [] ∨ schedule s ≠ [] →
     schedule (fold_left fcfs_body todo s) ≠ []).
Proof.
  revert s. induction todo as [|i todo IH]; intros s Hinv; simpl.
  - split; [exact Hinv|]. intros [H|H]; [contradiction | exact H].
  - destruct (fcfs_body_inv _ _ _ Hinv) as [Hinv' Hne].
    destruct (IH _ Hinv') as [Hfin Hs]. split; [exact Hfin|].
    intros _. apply Hs. right. exact Hne.
Qed.

Lemma reset_lookup ps i p :
  reset_processes ps !! i = Some p →
  start_time p = None ∧ completion_time p = None
  ∧ remaining_time p = Some (burst_time p).
Proof.
  unfold reset_processes. intros H.
  change ((reset_one <$> ps) !! i = Some p) in H.
  rewrite list_lookup_fmap in H.
  destruct (ps !! i); simpl in H; [|discriminate].
  injection H as <-. auto.
Qed.

Lemma reset_rec_inv t0 t ps : Forall (rec_inv t0 t) (reset_processes ps).
Proof.
  apply Forall_forall. intros p Hp.
  apply list_elem_of_lookup in Hp as [i Hi].
  apply reset_lookup in Hi as (Hs & Hc & _).
  unfold rec_inv. rewrite Hs, Hc. exact I.
Qed.

Lemma reset_wf ps : Forall rec_wf ps → Forall rec_wf (reset_processes ps).
Proof. apply rec_wf_by_static. symmetry. apply static_reset. Qed.

Lemma run_inv_init t0 ps : run_inv t0 (mkSched (reset_processes ps) t0 []).
Proof.
  unfold run_inv. simpl. split; [reflexivity|].
  split; [apply reset_rec_inv|]. split; [intros []; reflexivity | constructor].
Qed.

Lemma fcfs_correct_from_zero ps :
  well_formed ps →
  ∃ s, final_ok 0 s ∧ Forall rec_wf (store s)
       ∧ fcfs ps = hands_back (map derive (store s)) (schedule s).
Proof.
  intros [Hwf _]. unfold fcfs.
  set (st := reset_processes ps).
  set (procs := sorted pair_ltb (fcfs_key st) (seq 0 (length st))).
  assert (Hperm : procs ≡ₚ seq 0 (length st)) by apply sorted_perm.
  assert (Hinit : fcfs_inv (mkSched st 0 []) procs).
  { split; [apply run_inv_init|]. split; [apply reset_wf, Hwf|].
    split; [rewrite Hperm; apply NoDup_seq|]. simpl.
    split; [|split; [|intros []; reflexivity]].
    - intros i Hi. rewrite Hperm in Hi. apply elem_of_seq in Hi.
      destruct (lookup_lt_is_Some_2 st i) as [p Hp]; [lia|].
      exists p. split; [exact Hp|]. apply reset_lookup in Hp. tauto.
    - intros i p Hp Hi. exfalso. apply Hi. rewrite Hperm.
      apply elem_of_seq. apply lookup_lt_Some in Hp. lia. }
  destruct (fcfs_loop_inv _ _ Hinit) as [Hfin Hne].
  set (s := fold_left fcfs_body procs (mkSched st 0 [])) in *.
  exists s.
  destruct Hfin as ((Hch & Hrec & Hfirst & Hbl) & Hwf' & _ & _ & Hdone & Hcp).
  split; [|split; [exact Hwf' | apply metrics_and_return_spec]].
  split; [exact Hch|]. split; [|split].
  - apply Forall_lookup. intros i p Hp.
    pose proof (Hdone i p Hp (not_elem_of_nil _)) as Hc.
    pose proof (proj1 (Forall_lookup _ _) Hrec i p Hp) as Hr.
    unfold rec_inv in Hr. unfold finished_ok.
    destruct (start_time p) as [t|], (completion_time p) as [c|];
      try contradiction.
    exists t, c. tauto.
  - intros Hs. destruct procs as [|i procs'] eqn:Ep.
    + apply Permutation_nil_l in Hperm.
      assert (Hl : length st = 0%nat)
        by (destruct (length st); [reflexivity | discriminate]).
      pose proof (static_fcfs_loop [] (mkSched st 0 [])) as Hsf.
      simpl in Hsf. subst s. simpl. destruct st; [reflexivity | discriminate].
    + exfalso. apply Hne; [left; discriminate | exact Hs].
  - intros Hs. split; [apply Hfirst, Hs | apply Hcp, Hs].
Qed.

Lemma fcfs_correct ps :
  well_formed ps →
  ∃ s t0, final_ok t0 s ∧ Forall rec_wf (store s)
          ∧ fcfs ps = hands_back (map derive (store s)) (schedule s).
Proof.
  intros Hwf. destruct (fcfs_correct_from_zero ps Hwf) as (s & H).
  exists s, 0. exact H.
Qed.

(** ** Orders: what [min] returns *)

Section MinFrom.
Context {A K : Type} (ltb : K → K → bool) (key : A → K).
Hypothesis ltb_irrefl : ∀ a, ltb a a = false.
Hypothesis ltb_trans :
  ∀ a b c, ltb a b = true → ltb b c = true → ltb a c = true.
Hypothesis ltb_total : ∀ a b, ltb a b = true ∨ a = b ∨ ltb b a = true.

Lemma ltb_asym a b : ltb a b = true → ltb b a = false.
Proof.
  intros H. destruct (ltb b a) eqn:E; [|reflexivity].
  rewrite <- (ltb_irrefl a). symmetry. eapply ltb_trans; eauto.
Qed.

Lemma ltb_negtrans a b c :
  ltb a b = false → ltb b c = false → ltb a c = false.
Proof.
  intros Hab Hbc. destruct (ltb a c) eqn:Hac; [|reflexivity].
  destruct (ltb_total a b) as [H|[->|H]]; [congruence|congruence|].
  destruct (ltb_total b c) as [H'|[->|H']]; [congruence|congruence|].
  pose proof (ltb_trans _ _ _ H' H) as Hca.
  apply ltb_asym in Hca. congruence.
Qed.

Lemma min_from_spec xs x :
  min_from ltb key x xs ∈ x :: xs
  ∧ ∀ y, y ∈ x :: xs → ltb (key y) (key (min_from ltb key x xs)) = false.
Proof.
  revert x. induction xs as [|z xs IH]; intros x.
  - simpl. split; [left|]. intros y Hy.
    apply list_elem_of_singleton in Hy as ->. apply ltb_irrefl.
  - unfold min_from. simpl.
    set (x' := if ltb (key z) (key x) then z else x).
    destruct (IH x') as [Hin Hle]. fold (min_from ltb key x' xs).
    set (m := min_from ltb key x' xs) in *.
    assert (Hx' : ltb (key x') (key m) = false) by (apply Hle; left).
    split.
    + apply elem_of_cons in Hin as [Hm|Hm].
      * rewrite Hm. unfold x'. destruct (ltb (key z) (key x)).
        -- right; left. -- left.
      * right; right; exact Hm.
    + intros y Hy. apply elem_of_cons in Hy as [->|Hy].
      * unfold x' in Hx'. destruct (ltb (key z) (key x)) eqn:Ez.
        -- eapply ltb_negtrans; [|exact Hx']. apply ltb_asym, Ez.
        -- exact Hx'.
      * apply elem_of_cons in Hy as [->|Hy]; [|apply Hle; right; exact Hy].
        unfold x' in Hx'. destruct (ltb (key z) (key x)) eqn:Ez.
        -- exact Hx'.
        -- eapply ltb_negtrans; [exact Ez | exact Hx'].
Qed.
End MinFrom.

Lemma min_int_spec l m :
  min_int l = Some m → m ∈ l ∧ ∀ x, x ∈ l → m ≤ x.
Proof.
  unfold min_int, py_min. destruct l as [|x xs]; [discriminate|].
  intros [= <-].
  destruct (min_from_spec Z.ltb id Z.ltb_irrefl) with (xs := xs) (x := x)
    as [Hin Hle].
  - intros a b c. rewrite !Z.ltb_lt. lia.
  - intros a b. rewrite !Z.ltb_lt. lia.
  - split; [exact Hin|]. intros y Hy. specialize (Hle y Hy).
    apply Z.ltb_ge in Hle. exact Hle.
Qed.

Lemma string_ltb_lt a b :
  String.ltb a b = true ↔ OrderedTypeEx.String_as_OT.lt a b.
Proof.
  rewrite <- OrderedTypeEx.String_as_OT.cmp_lt.
  unfold String.ltb, OrderedTypeEx.String_as_OT.cmp.
  destruct (String.compare a b); split; congruence.
Qed.

Lemma string_ltb_irrefl a : String.ltb a a = false.
Proof.
  destruct (String.ltb a a) eqn:E; [|reflexivity].
  apply string_ltb_lt, OrderedTypeEx.String_as_OT.lt_not_eq in E.
  exfalso. apply E. reflexivity.
Qed.

Lemma string_ltb_trans a b c :
  String.ltb a b = true → String.ltb b c = true → String.ltb a c = true.
Proof.
  rewrite !string_ltb_lt. apply OrderedTypeEx.String_as_OT.lt_trans.
Qed.

Lemma string_ltb_total a b :
  String.ltb a b = true ∨ a = b ∨ String.ltb b a = true.
Proof.
  unfold String.ltb. rewrite (String.compare_antisym b a).
  destruct (String.compare a b) eqn:E; simpl; auto.
  right; left. apply String.compare_eq_iff, E.
Qed.

Lemma triple_ltb_irrefl k : triple_ltb k k = false.
Proof.
  unfold triple_ltb. rewrite !Z.ltb_irrefl, !Z.eqb_refl, string_ltb_irrefl.
  reflexivity.
Qed.

Lemma triple_ltb_iff k1 k2 :
  triple_ltb k1 k2 = true ↔
  k1.1.1 < k2.1.1
  ∨ (k1.1.1 = k2.1.1
     ∧ (k1.1.2 < k2.1.2
        ∨ (k1.1.2 = k2.1.2 ∧ String.ltb k1.2 k2.2 = true))).
Proof.
  unfold triple_ltb.
  rewrite !orb_true_iff, !andb_true_iff, !orb_true_iff, !andb_true_iff.
  rewrite !Z.ltb_lt, !Z.eqb_eq. reflexivity.
Qed.

Lemma triple_ltb_trans k1 k2 k3 :
  triple_ltb k1 k2 = true → triple_ltb k2 k3 = true →
  triple_ltb k1 k3 = true.
Proof.
  rewrite !triple_ltb_iff.
  intros [H1|[E1 [H1|[E1' H1]]]] [H2|[E2 [H2|[E2' H2]]]];
    try (left; lia); try (right; split; [lia|]; left; lia).
  right. split; [lia|]. right. split; [lia|].
  eapply string_ltb_trans; eauto.
Qed.

Lemma triple_ltb_total k1 k2 :
  triple_ltb k1 k2 = true ∨ k1 = k2 ∨ triple_ltb k2 k1 = true.
Proof.
  rewrite !triple_ltb_iff.
  destruct k1 as [[a1 b1] c1], k2 as [[a2 b2] c2]. simpl.
  destruct (Z.lt_total a1 a2) as [?|[->|?]]; [auto| |auto].
  destruct (Z.lt_total b1 b2) as [?|[->|?]]; [auto| |auto 6].
  destruct (string_ltb_total c1 c2) as [?|[->|?]]; auto 8.
Qed.

(** ** SJF and Priority *)

Lemma in_unfinished st l i :
  i ∈ List.filter (unfinished st) l ↔
  i ∈ l ∧ ∃ p, st !! i = Some p ∧ completion_time p = None.
Proof.
  rewrite list_elem_of_In, filter_In, <- list_elem_of_In.
  unfold unfinished. split; intros [Hi H]; (split; [exact Hi|]).
  - destruct (st !! i) as [p|]; [|discriminate].
    destruct (completion_time p) eqn:E; [discriminate|]. eauto.
  - destruct H as (p & -> & ->). reflexivity.
Qed.

Lemma in_ready st t l i :
  i ∈ List.filter (is_ready st t) l ↔
  i ∈ l ∧ ∃ p, st !! i = Some p ∧ completion_time p = None
               ∧ arrival_time p ≤ t.
Proof.
  rewrite list_elem_of_In, filter_In, <- list_elem_of_In.
  unfold is_ready. split; intros [Hi H]; (split; [exact Hi|]).
  - destruct (st !! i) as [p|]; [|discriminate].
    destruct (completion_time p) eqn:E; [discriminate|].
    apply Z.leb_le in H. eauto.
  - destruct H as (p & -> & -> & H). apply Z.leb_le, H.
Qed.

Lemma in_arrivals st l x :
  x ∈ arrivals st l ↔ ∃ i p, i ∈ l ∧ st !! i = Some p ∧ arrival_time p = x.
Proof.
  unfold arrivals. rewrite list_elem_of_omap. split.
  - intros (i & Hi & H). destruct (st !! i) as [p|] eqn:E; [|discriminate].
    injection H as <-. eauto.
  - intros (i & p & Hi & Hp & <-). exists i. rewrite Hp. auto.
Qed.

Lemma unfinished_insert_ne st i p' j :
  i ≠ j → unfinished (<[i := p']> st) j = unfinished st j.
Proof. intros H. unfold unfinished. rewrite list_lookup_insert_ne; auto. Qed.

Lemma filter_unfinished_skip st i p' l :
  i ∉ l →
  List.filter (unfinished (<[i := p']> st)) l = List.filter (unfinished st) l.
Proof.
  induction l as [|j l IH]; intros Hi; simpl; [reflexivity|].
  apply not_elem_of_cons in Hi as [Hne Hi].
  rewrite unfinished_insert_ne, IH; auto.
Qed.

(** Finishing one process shortens the list of unfinished ones by one. *)
Lemma filter_unfinished_finish st i p p' l :
  st !! i = Some p → completion_time p = None →
  completion_time p' ≠ None →
  NoDup l → i ∈ l →
  S (length (List.filter (unfinished (<[i := p']> st)) l))
  = length (List.filter (unfinished st) l).
Proof.
  intros Hi Hc Hc'. induction l as [|j l IH]; intros Hnd Hin.
  - inversion Hin.
  - apply NoDup_cons in Hnd as [Hj Hnd]. simpl.
    destruct (decide (i = j)) as [<-|Hne].
    + rewrite filter_unfinished_skip by exact Hj.
      assert (E1 : unfinished (<[i := p']> st) i = false).
      { unfold unfinished.
        rewrite list_lookup_insert_eq by (eapply lookup_lt_Some, Hi).
        destruct (completion_time p'); [reflexivity|congruence]. }
      assert (E2 : unfinished st i = true)
        by (unfold unfinished; rewrite Hi, Hc; reflexivity).
      rewrite E1, E2. reflexivity.
    + apply elem_of_cons in Hin as [?|Hin]; [contradiction|].
      rewrite unfinished_insert_ne by exact Hne.
      destruct (unfinished st j); simpl; rewrite IH; auto.
Qed.

Section NonPreemptiveProofs.
Variable key : Process → Z * Z * string.
Variable n : nat.
Variable t0 : Z.

Lemma np_step_inv s c :
  np_inv n t0 s c → (c < n)%nat →
  ∃ s' c', np_step key (seq 0 n) s c = Some (s', c')
           ∧ np_inv n t0 s' c'
           ∧ (np_measure n s' c' < np_measure n s c)%nat.
Proof.
  intros (Hrun & Hwf & Hlen & Hcount & Hnil & Hlast) Hc.
  unfold np_step, np_measure.
  destruct (ready_list (seq 0 n) s) as [|r rs] eqn:Er.
  - (* nothing is ready: jump to the next arrival *)
    set (U := List.filter (unfinished (store s)) (seq 0 n)) in *.
    destruct (min_int (arrivals (store s) U)) as [m|] eqn:Em.
    + apply min_int_spec in Em as [Hm Hmin].
      apply in_arrivals in Hm as (i & p & Hi & Hp & Ha).
      apply in_unfinished in Hi as (Hi & p1 & Hp1 & Hpc).
      rewrite Hp in Hp1. injection Hp1 as <-.
      assert (Hlt : time s < m).
      { destruct (Z.lt_ge_cases (time s) m) as [?|Hge]; [assumption|].
        exfalso. assert (Hr : i ∈ ready_list (seq 0 n) s).
        { apply in_ready. split; [exact Hi|]. exists p.
          repeat split; auto. lia. }
        rewrite Er in Hr. inversion Hr. }
      assert (Hr' : ready_list (seq 0 n) (go_idle m s) ≠ []).
      { intros E. assert (Hr : i ∈ ready_list (seq 0 n) (go_idle m s)).
        { apply in_ready. split; [exact Hi|]. exists p. simpl.
          repeat split; auto. lia. }
        rewrite E in Hr. inversion Hr. }
      exists (go_idle m s), c. split; [reflexivity|]. split.
      * split; [apply run_inv_idle; auto|]. simpl.
        split; [exact Hwf|]. split; [exact Hlen|]. split; [exact Hcount|].
        split; [|intros _; right; exact Hr'].
        intros H. apply app_eq_nil in H as [_ H]. discriminate.
      * destruct (ready_list (seq 0 n) (go_idle m s)); [contradiction|lia].
    + (* with [completed < n] some process is unfinished *)
      exfalso. destruct U as [|i U'] eqn:EU; [simpl in Hcount; lia|].
      assert (Hi : i ∈ U) by (rewrite EU; left).
      apply in_unfinished in Hi as (Hi & p & Hp & Hpc).
      assert (Ha : arrival_time p ∈ arrivals (store s) (i :: U')).
      { apply in_arrivals. exists i, p. split; [left | auto]. }
      unfold min_int, py_min in Em.
      destruct (arrivals (store s) (i :: U')); [inversion Ha|discriminate].
  - (* dispatch the process with the least key *)
    set (i := min_from triple_ltb (key_at key (store s)) r rs).
    assert (Hi : i ∈ ready_list (seq 0 n) s).
    { rewrite Er.
      apply (min_from_spec triple_ltb (key_at key (store s))
               triple_ltb_irrefl triple_ltb_trans triple_ltb_total). }
    apply in_ready in Hi as (Hi & p & Hp & Hpc & Ha).
    rewrite Hp.
    pose proof (proj1 (Forall_forall _ _) Hwf p
                  (list_elem_of_lookup_2 _ _ _ Hp)) as [Hb _].
    destruct (run_inv_dispatch t0 s i p Hrun Hp Hpc Ha Hb) as [Hrun' Hcp].
    exists (run_to_completion i p s), (S c). split; [reflexivity|]. split.
    + split; [exact Hrun'|]. simpl.
      split; [apply Forall_insert; [exact Hwf|];
              apply (proj1 (Forall_forall _ _) Hwf p),
                    (list_elem_of_lookup_2 _ _ _ Hp)|].
      split; [rewrite length_insert; exact Hlen|].
      split.
      { pose proof (filter_unfinished_finish (store s) i p
                      (set_completion_time (Some (time s + burst_time p))
                         (set_start_time (Some (time s)) p))
                      (seq 0 n) Hp Hpc) as Hf.
        simpl in Hf. rewrite <- Hf in Hcount;
          [lia | discriminate | apply NoDup_seq | exact Hi]. }
      split; [|intros _; left; exact Hcp].
      intros H. apply app_eq_nil in H as [_ H]. discriminate.
    + destruct (ready_list (seq 0 n) (run_to_completion i p s)); lia.
Qed.

Lemma np_loop_total fuel s c :
  np_inv n t0 s c → (np_measure n s c < fuel)%nat →
  ∃ sf, np_loop key fuel (seq 0 n) n s c = Some sf
        ∧ final_ok t0 sf ∧ Forall rec_wf (store sf).
Proof.
  revert s c. induction fuel as [|fuel IH]; intros s c Hinv Hm; [lia|].
  simpl. destruct (Nat.ltb_spec c n) as [Hc|Hc].
  - destruct (np_step_inv s c Hinv Hc) as (s' & c' & -> & Hinv' & Hdec).
    apply IH; [exact Hinv' | lia].
  - exists s. split; [reflexivity|].
    destruct Hinv as ((Hch & Hrec & Hfirst & Hbl)
                      & Hwf & Hlen & Hcount & Hnil & Hlast).
    split; [|exact Hwf].
    assert (HU : List.filter (unfinished (store s)) (seq 0 n) = []).
    { destruct (List.filter _ _); [reflexivity | simpl in Hcount; lia]. }
    split; [exact Hch|]. split; [|split].
    + apply Forall_lookup. intros i p Hp.
      pose proof (proj1 (Forall_lookup _ _) Hrec i p Hp) as Hr.
      unfold rec_inv in Hr. unfold finished_ok.
      destruct (start_time p) as [t|], (completion_time p) as [e|] eqn:Ec;
        try contradiction.
      * exists t, e. tauto.
      * exfalso. assert (Hi : i ∈ List.filter (unfinished (store s)) (seq 0 n)).
        { apply in_unfinished. split; [|eauto].
          apply elem_of_seq. apply lookup_lt_Some in Hp. lia. }
        rewrite HU in Hi. inversion Hi.
    + intros Hs. specialize (Hnil Hs). rewrite HU in Hcount.
      simpl in Hcount. destruct (store s); [reflexivity|].
      simpl in Hlen. lia.
    + intros Hs. split; [apply Hfirst, Hs|].
      destruct (Hlast Hs) as [H|H]; [exact H|]. exfalso. apply H.
      destruct (ready_list (seq 0 n) s) as [|i l] eqn:Er; [reflexivity|].
      assert (Hi : i ∈ ready_list (seq 0 n) s) by (rewrite Er; left).
      apply in_ready in Hi as (Hi & p & Hp & Hpc & _).
      assert (Hi' : i ∈ List.filter (unfinished (store s)) (seq 0 n))
        by (apply in_unfinished; eauto).
      rewrite HU in Hi'. inversion Hi'.
Qed.
End NonPreemptiveProofs.

Lemma filter_unfinished_reset ps l :
  (∀ i, i ∈ l → (i < length ps)%nat) →
  List.filter (unfinished (reset_processes ps)) l = l.
Proof.
  induction l as [|i l IH]; intros H; simpl; [reflexivity|].
  unfold unfinished at 1.
  destruct (lookup_lt_is_Some_2 (reset_processes ps) i) as [p Hp].
  { unfold reset_processes. rewrite length_map. apply H. left. }
  rewrite Hp. apply reset_lookup in Hp as (_ & -> & _).
  rewrite IH; [reflexivity|]. intros j Hj. apply H. right. exact Hj.
Qed.

Lemma np_inv_init ps :
  Forall rec_wf ps →
  np_inv (length ps) (time (np_init ps)) (np_init ps) 0.
Proof.
  intros Hwf. unfold np_init, np_inv. simpl.
  split; [apply run_inv_init|]. split; [apply reset_wf, Hwf|].
  split; [unfold reset_processes; apply length_map|].
  split; [|split; [reflexivity | intros []; reflexivity]].
  rewrite filter_unfinished_reset, length_seq; [reflexivity|].
  intros i Hi. apply elem_of_seq in Hi. lia.
Qed.

Lemma non_preemptive_correct key ps :
  well_formed ps →
  ∃ s t0, final_ok t0 s ∧ Forall rec_wf (store s)
          ∧ non_preemptive key ps
            = hands_back (map derive (store s)) (schedule s).
Proof.
  intros [Hwf _]. unfold non_preemptive.
  assert (Hl : length (store (np_init ps)) = length ps)
    by (unfold np_init, reset_processes; simpl; apply length_map).
  rewrite Hl, length_seq.
  destruct (np_loop_total key (length ps) (time (np_init ps))
              (np_fuel (length ps)) (np_init ps) 0 (np_inv_init ps Hwf))
    as (sf & -> & Hfin & Hwf').
  - unfold np_measure, np_fuel.
    destruct (ready_list _ _); lia.
  - exists sf, (time (np_init ps)). rewrite metrics_and_return_spec. auto.
Qed.

(** ** Round Robin *)

Lemma set_remaining_same p r :
  remaining_time p = Some r → set_remaining_time (Some r) p = p.
Proof. destruct p. simpl. intros ->. reflexivity. Qed.

Lemma take_drop_disjoint {A} (l : list A) i x :
  NoDup l → x ∈ take i l → x ∈ drop i l → False.
Proof.
  intros Hnd H1 H2. rewrite <- (take_drop i l) in Hnd.
  apply NoDup_app in Hnd as (_ & Hd & _). exact (Hd x H1 H2).
Qed.

Lemma elem_of_take_S {A} (l : list A) i x y :
  l !! i = Some y → x ∈ take (S i) l ↔ x ∈ take i l ∨ x = y.
Proof.
  intros H. rewrite (take_S_r _ _ _ H), elem_of_app, list_elem_of_singleton.
  reflexivity.
Qed.

Lemma drop_lookup_cons {A} (l : list A) i y :
  l !! i = Some y → drop i l = y :: drop (S i) l.
Proof. intros H. apply drop_S, H. Qed.

Lemma first_dispatch_remaining t p r :
  remaining_time p = Some r → remaining_time (first_dispatch t p) = Some r.
Proof.
  unfold first_dispatch. intros H.
  destruct (start_time p); [exact H|]. simpl. rewrite H. exact H.
Qed.

Lemma first_dispatch_start t p r :
  remaining_time p = Some r →
  start_time (first_dispatch t p)
  = match start_time p with Some s => Some s | None => Some t end.
Proof.
  unfold first_dispatch. intros H.
  destruct (start_time p) eqn:E; [exact E|]. simpl. rewrite H. reflexivity.
Qed.

Lemma first_dispatch_completion t p :
  completion_time (first_dispatch t p) = completion_time p.
Proof.
  unfold first_dispatch. destruct (start_time p); [reflexivity|].
  simpl. destruct (remaining_time p); reflexivity.
Qed.

Lemma first_dispatch_static t p :
  pid (first_dispatch t p) = pid p
  ∧ arrival_time (first_dispatch t p) = arrival_time p
  ∧ burst_time (first_dispatch t p) = burst_time p.
Proof.
  unfold first_dispatch. destruct (start_time p); [auto|].
  simpl. destruct (remaining_time p); auto.
Qed.

Lemma rem_at_insert_ne st i p' j :
  i ≠ j → rem_at (<[i := p']> st) j = rem_at st j.
Proof. intros H. unfold rem_at. rewrite list_lookup_insert_ne; auto. Qed.

Lemma sum_rem_insert_notin st i p' l :
  i ∉ l →
  sum_list_with (rem_at (<[i := p']> st)) l = sum_list_with (rem_at st) l.
Proof.
  induction l as [|j l IH]; intros Hi; simpl; [reflexivity|].
  apply not_elem_of_cons in Hi as [Hne Hi].
  rewrite rem_at_insert_ne, IH; auto.
Qed.

Lemma burst_at_insert st i p p' j :
  st !! i = Some p → burst_time p' = burst_time p →
  burst_at (<[i := p']> st) j = burst_at st j.
Proof.
  intros Hi Hb. unfold burst_at.
  destruct (decide (i = j)) as [<-|Hne].
  - rewrite list_lookup_insert_eq by (eapply lookup_lt_Some, Hi).
    rewrite Hi, Hb. reflexivity.
  - rewrite list_lookup_insert_ne; auto.
Qed.

Lemma sum_burst_insert st i p p' l :
  st !! i = Some p → burst_time p' = burst_time p →
  sum_list_with (λ j, burst_at (<[i := p']> st) j + 2)%nat l
  = sum_list_with (λ j, burst_at st j + 2)%nat l.
Proof.
  intros Hi Hb. induction l as [|j l IH]; simpl; [reflexivity|].
  rewrite (burst_at_insert _ _ _ _ _ Hi Hb), IH. reflexivity.
Qed.

Lemma rr_key_insert st i p p' j :
  st !! i = Some p → arrival_time p' = arrival_time p →
  rr_key (<[i := p']> st) j = rr_key st j.
Proof.
  intros Hi Ha. unfold rr_key.
  destruct (decide (i = j)) as [<-|Hne].
  - rewrite list_lookup_insert_eq by (eapply lookup_lt_Some, Hi).
    rewrite Hi, Ha. reflexivity.
  - rewrite list_lookup_insert_ne; auto.
Qed.

(** Updating a record keeps the start points when the start time is
    kept or was unset. *)
Lemma start_points_update (st : list Process) i p p' tl ext x :
  st !! i = Some p →
  (start_time p' = start_time p ∨ start_time p = None) →
  start_points st tl x → start_points (<[i := p']> st) (tl ++ ext) x.
Proof.
  intros Hi Hs [(q & Hq & Hqs)|(b & Hb & Hl & Hx)].
  - left. apply list_elem_of_lookup in Hq as [j Hj].
    destruct (decide (i = j)) as [<-|Hne].
    + rewrite Hi in Hj. injection Hj as <-.
      exists p'. split.
      * apply list_elem_of_insert. eapply lookup_lt_Some, Hi.
      * destruct Hs as [Hs|Hs]; congruence.
    + exists q. split; [|exact Hqs].
      apply list_elem_of_lookup. exists j.
      rewrite list_lookup_insert_ne; auto.
  - right. exists b. split; [apply elem_of_app; auto | auto].
Qed.

Lemma rr_rec_inv_mono t0 t t' p :
  t ≤ t' → rr_rec_inv t0 t p → rr_rec_inv t0 t' p.
Proof.
  intros Ht (r & ? & ? & ? & H). exists r. repeat split; auto.
  destruct (start_time p), (completion_time p); auto; lia.
Qed.

Section RoundRobinProofs.
Variable procs : list nat.
Variable t0 : Z.
Hypothesis procs_nodup : NoDup procs.

Lemma admit_one_inv fl s j p :
  rr_inv procs t0 fl s →
  procs !! rr_i s = Some j →
  store (rr_sched s) !! j = Some p →
  arrival_time p ≤ time (rr_sched s) →
  store (rr_sched (admit_one j p s)) = store (rr_sched s)
  ∧ rr_inv procs t0 fl (admit_one j p s)
  ∧ (rr_measure procs fl (admit_one j p s) < rr_measure procs fl s)%nat.
Proof.
  intros (Hch & Hrec & Hwf & Hnd & Hadm & Hq & Hfin & Hpend & Hfirst
          & Hnil & Hlast & Hfl) Hi Hp Ha.
  pose proof (drop_lookup_cons _ _ _ Hi) as Hdrop.
  assert (Hjd : j ∈ drop (rr_i s) procs) by (rewrite Hdrop; left).
  destruct (Hpend j Hjd) as (p' & Hp' & Hps & Hpc).
  rewrite Hp in Hp'. injection Hp' as <-.
  pose proof (proj1 (Forall_forall _ _) Hrec p
                (list_elem_of_lookup_2 _ _ _ Hp)) as (r & Hr & Hr0 & Hrb & Hcase).
  rewrite Hps, Hpc in Hcase. subst r.
  pose proof (proj1 (Forall_forall _ _) Hwf p
                (list_elem_of_lookup_2 _ _ _ Hp)) as [Hb _].
  assert (Hst : <[j := set_remaining_time (Some (burst_time p)) p]>
                  (store (rr_sched s)) = store (rr_sched s)).
  { rewrite set_remaining_same by exact Hr. apply list_insert_id, Hp. }
  assert (Hjq : j ∉ ready_queue s ++ fl).
  { intros H.
    exact (take_drop_disjoint procs (rr_i s) j procs_nodup (Hadm j H) Hjd). }
  split; [exact Hst|]. unfold admit_one, rr_inv, rr_measure, rr_wait.
  simpl. rewrite Hst. split.
  - split; [exact Hch|]. split; [exact Hrec|]. split; [exact Hwf|].
    split.
    { rewrite <- app_assoc. simpl.
      apply NoDup_app in Hnd as (Hn1 & Hn2 & Hn3).
      apply NoDup_app. split; [exact Hn1|]. split.
      - intros x Hx [->|Hx']%elem_of_cons.
        + apply Hjq, elem_of_app. left. exact Hx.
        + exact (Hn2 x Hx Hx').
      - apply NoDup_cons. split; [|exact Hn3].
        intros H. apply Hjq, elem_of_app. right. exact H. }
    split.
    { intros x Hx. apply (elem_of_take_S _ _ _ _ Hi).
      rewrite <- app_assoc in Hx. simpl in Hx.
      apply elem_of_app in Hx as [Hx|[->|Hx]%elem_of_cons].
      - left. apply Hadm, elem_of_app. left. exact Hx.
      - right. reflexivity.
      - left. apply Hadm, elem_of_app. right. exact Hx. }
    split.
    { intros x [Hx| ->%list_elem_of_singleton]%elem_of_app.
      - apply Hq, Hx.
      - exists p, (burst_time p). auto. }
    split.
    { intros x px Hx Hnx Hpx.
      apply (elem_of_take_S _ _ _ _ Hi) in Hx as [Hx| ->].
      - apply (Hfin x px Hx); [|exact Hpx].
        intros H. apply Hnx. rewrite <- app_assoc. simpl.
        apply elem_of_app in H as [H|H]; apply elem_of_app;
          [left | right; right]; exact H.
      - exfalso. apply Hnx. rewrite <- app_assoc. apply elem_of_app.
        right. left. }
    split.
    { intros x Hx. apply Hpend. rewrite Hdrop. right. exact Hx. }
    split; [exact Hfirst|]. split; [exact Hnil|]. split; [|exact Hfl].
    intros Hs. destruct (Hlast Hs) as [H|[H|H]]; [left; exact H|..].
    + right; left. intros E. apply app_eq_nil in E as [E _].
      apply app_eq_nil in E as [_ E]. discriminate.
    + right; left. intros E. apply app_eq_nil in E as [E _].
      apply app_eq_nil in E as [_ E]. discriminate.
  - rewrite Hi, Hdrop. unfold rr_key at 2. rewrite Hp.
    destruct (Z.leb_spec (arrival_time p) (time (rr_sched s))); [|lia].
    rewrite !sum_list_with_app. simpl.
    assert (Hrem : rem_at (store (rr_sched s)) j = Z.to_nat (burst_time p))
      by (unfold rem_at; rewrite Hp, Hr; reflexivity).
    assert (Hbu : burst_at (store (rr_sched s)) j = Z.to_nat (burst_time p))
      by (unfold burst_at; rewrite Hp; reflexivity).
    rewrite Hrem, Hbu.
    destruct (procs !! S (rr_i s)); [destruct (_ <=? _)|]; lia.
Qed.

Lemma admit_inv fl fuel s :
  rr_inv procs t0 fl s →
  let s' := admit_while fuel procs s in
  rr_inv procs t0 fl s'
  ∧ rr_sched s' = rr_sched s
  ∧ (rr_measure procs fl s' ≤ rr_measure procs fl s)%nat
  ∧ ((length procs ≤ fuel + rr_i s)%nat →
     ∀ j, procs !! rr_i s' = Some j →
          time (rr_sched s') < rr_key (store (rr_sched s')) j).
Proof.
  revert s. induction fuel as [|fuel IH]; intros s Hinv; simpl.
  - split; [exact Hinv|]. split; [reflexivity|]. split; [lia|].
    intros Hlen j Hj. apply lookup_lt_Some in Hj. lia.
  - destruct (procs !! rr_i s) as [j|] eqn:Hi;
      [|split; [exact Hinv|]; split; [reflexivity|]; split; [lia|];
        intros _ j Hj; congruence].
    destruct Hinv as (Hch & Hrec & Hwf & Hnd & Hadm & Hq & Hfin & Hpend
                      & Hrest).
    assert (Hjd : j ∈ drop (rr_i s) procs)
      by (rewrite (drop_lookup_cons _ _ _ Hi); left).
    destruct (Hpend j Hjd) as (p & Hp & _). rewrite Hp.
    assert (Hinv : rr_inv procs t0 fl s)
      by (unfold rr_inv; tauto).
    destruct (Z.leb_spec (arrival_time p) (time (rr_sched s))) as [Ha|Ha].
    + destruct (admit_one_inv fl s j p Hinv Hi Hp Ha) as (Hst & Hinv1 & Hm1).
      destruct (IH _ Hinv1) as (Hinv2 & Hsc2 & Hm2 & Hpost).
      split; [exact Hinv2|]. split.
      { rewrite Hsc2. unfold admit_one. simpl.
        unfold admit_one in Hst. simpl in Hst. rewrite Hst.
        destruct (rr_sched s); reflexivity. }
      split; [lia|].
      intros Hlen. apply Hpost. simpl. lia.
    + split; [exact Hinv|]. split; [reflexivity|]. split; [lia|].
      intros _ j' Hj'. rewrite Hi in Hj'. injection Hj' as <-.
      unfold rr_key. rewrite Hp. exact Ha.
Qed.
(** Nothing is ready: the jump to the next arrival. *)
Lemma rr_idle_inv s j :
  rr_inv procs t0 [] s →
  ready_queue s = [] →
  procs !! rr_i s = Some j →
  time (rr_sched s) < rr_key (store (rr_sched s)) j →
  let s' := mkRR (go_idle (rr_key (store (rr_sched s)) j) (rr_sched s))
                 (rr_i s) [] in
  rr_inv procs t0 [] s'
  ∧ (rr_measure procs [] s' < rr_measure procs [] s)%nat.
Proof.
  intros (Hch & Hrec & Hwf & Hnd & Hadm & Hq & Hfin & Hpend & Hfirst
          & Hnil & Hlast & Hfl) Eq Hi Hlt. simpl.
  rewrite Eq in *. split.
  - unfold rr_inv. simpl.
    split; [apply chain_snoc; auto|].
    split. { eapply Forall_impl; [exact Hrec|]. intros p (r & ? & ? & ? & H).
             exists r. repeat split; auto.
             destruct (start_time p), (completion_time p); auto; lia. }
    split; [exact Hwf|]. split; [exact Hnd|]. split; [exact Hadm|].
    split; [intros x Hx; inversion Hx|]. split; [exact Hfin|].
    split; [exact Hpend|].
    split.
    { intros _. destruct (schedule (rr_sched s)) as [|b tl] eqn:Es.
      - simpl in Hch. right. eexists. split; [left|]. split; [reflexivity|].
        unfold block_start. simpl. congruence.
      - eapply start_points_grow; [|apply Hfirst; discriminate]. auto. }
    split. { intros H. apply app_eq_nil in H as [_ H]. discriminate. }
    split; [|intros x Hx; inversion Hx].
    intros _. right; right. eapply lookup_lt_Some, Hi.
  - unfold rr_measure, rr_wait. simpl. rewrite Hi.
    destruct (Z.leb_spec (rr_key (store (rr_sched s)) j)
                         (rr_key (store (rr_sched s)) j)); [|lia].
    destruct (Z.leb_spec (rr_key (store (rr_sched s)) j)
                         (time (rr_sched s))); lia.
Qed.
(** The head of the queue runs one slice. *)
Lemma rr_slice_inv q s cur rest :
  0 < q →
  rr_inv procs t0 [] s →
  ready_queue s = cur :: rest →
  (∀ j, procs !! rr_i s = Some j →
        time (rr_sched s) < rr_key (store (rr_sched s)) j) →
  ∃ p r,
    store (rr_sched s) !! cur = Some p
    ∧ remaining_time (first_dispatch (time (rr_sched s)) p) = Some r
    ∧ let run := Z.min q r in
      let p2 := set_remaining_time (Some (r - run))
                  (first_dispatch (time (rr_sched s)) p) in
      let s2 := mkRR (mkSched (<[cur := p2]> (store (rr_sched s)))
                              (time (rr_sched s) + run)
                              (schedule (rr_sched s)
                               ++ [(time (rr_sched s),
                                    time (rr_sched s) + run, pid p2)]))
                     (rr_i s) rest in
      rr_inv procs t0 [cur] s2
      ∧ (rr_measure procs [cur] s2 < rr_measure procs [] s)%nat.
Proof.
  intros Hq0 (Hch & Hrec & Hwf & Hnd & Hadm & Hq & Hfin & Hpend & Hfirst
              & Hnil & Hlast & Hfl) Eq Hpost.
  rewrite Eq in *. rewrite app_nil_r in *.
  destruct (Hq cur) as (p & r & Hp & Hpc & Hr & Hr0 & Ha); [left|].
  pose proof (list_elem_of_lookup_2 _ _ _ Hp) as Hpin.
  pose proof (proj1 (Forall_forall _ _) Hrec p Hpin)
    as (r' & Hr' & _ & Hrb & Hcase).
  rewrite Hr in Hr'. injection Hr' as <-. rewrite Hpc in Hcase.
  pose proof (proj1 (Forall_forall _ _) Hwf p Hpin) as Hwfp.
  pose proof (chain_le _ _ _ Hch) as Ht0.
  pose proof (lookup_lt_Some _ _ _ Hp) as Hlen.
  apply NoDup_cons in Hnd as [Hcur Hnd].
  exists p, r. split; [exact Hp|].
  split; [apply first_dispatch_remaining, Hr|].
  set (t := time (rr_sched s)) in *.
  set (pd := first_dispatch t p).
  destruct (first_dispatch_static t p) as (Hpid & Harr & Hbur).
  pose proof (first_dispatch_start t p r Hr) as Hpds.
  pose proof (first_dispatch_completion t p) as Hpdc.
  fold pd in Hpid, Harr, Hbur, Hpds, Hpdc.
  cbv zeta. set (run := Z.min q r).
  assert (Hrun : 0 < run ∧ run ≤ r) by (unfold run; lia).
  set (p2 := set_remaining_time (Some (r - run)) pd).
  assert (Hp2in : p2 ∈ <[cur := p2]> (store (rr_sched s)))
    by (apply list_elem_of_insert, Hlen).
  split.
  - unfold rr_inv. simpl.
    split; [apply chain_snoc; [exact Hch | lia]|].
    split.
    { apply Forall_insert.
      - eapply Forall_impl; [exact Hrec|]. intros x.
        apply rr_rec_inv_mono. lia.
      - exists (r - run). unfold p2. simpl. rewrite Hbur, Harr, Hpds, Hpdc, Hpc.
        split; [reflexivity|]. split; [lia|]. split; [lia|].
        destruct (start_time p) as [st|]; lia. }
    split.
    { apply Forall_insert; [exact Hwf|].
      unfold rec_wf, p2. simpl. rewrite Hbur, Harr. exact Hwfp. }
    split.
    { rewrite <- Permutation_cons_append. apply NoDup_cons. auto. }
    split.
    { intros j Hj. apply Hadm.
      apply elem_of_app in Hj as [Hj| ->%list_elem_of_singleton];
        [right; exact Hj | left]. }
    split.
    { intros j Hj. destruct (Hq j) as (pj & rj & Hpj & ? & ? & ? & ?);
        [right; exact Hj|].
      exists pj, rj. rewrite list_lookup_insert_ne
        by (intros ->; contradiction).
      repeat split; auto. lia. }
    split.
    { intros j pj Hj Hnj Hpj.
      assert (Hne : cur ≠ j).
      { intros ->. apply Hnj, elem_of_app. right. left. }
      rewrite list_lookup_insert_ne in Hpj by exact Hne.
      apply (Hfin j pj Hj); [|exact Hpj].
      intros [->|H]%elem_of_cons; [congruence|].
      apply Hnj, elem_of_app. left. exact H. }
    split.
    { intros j Hj. destruct (Hpend j Hj) as (pj & Hpj & ?).
      exists pj. split; [|assumption].
      rewrite list_lookup_insert_ne; [exact Hpj|].
      intros ->. eapply (take_drop_disjoint procs); eauto.
      apply Hadm. left. }
    split.
    { intros _. destruct (schedule (rr_sched s)) as [|b tl] eqn:Es.
      - left. exists p2. split; [exact Hp2in|].
        unfold p2. simpl. rewrite Hpds.
        pose proof (proj1 (Forall_forall _ _) (Hnil eq_refl) p Hpin) as Hn.
        simpl in Hn. rewrite Hn. simpl in Hch. congruence.
      - eapply start_points_update; [exact Hp| |apply Hfirst; discriminate].
        unfold p2. simpl. rewrite Hpds.
        destruct (start_time p); auto. }
    split. { intros H. apply app_eq_nil in H as [_ H]. discriminate. }
    split.
    { intros _. right; left. intros H.
      apply app_eq_nil in H as [_ H]. discriminate. }
    intros j ->%list_elem_of_singleton. exists p2.
    rewrite list_lookup_insert_eq by exact Hlen.
    split; [reflexivity|]. unfold p2. simpl. rewrite Hpdc, Hpds, Harr.
    split; [exact Hpc|]. split; [destruct (start_time p); discriminate|].
    lia.
  - unfold rr_measure, rr_wait. simpl. rewrite app_nil_r.
    rewrite sum_list_with_app. simpl.
    rewrite (sum_rem_insert_notin _ _ _ _ Hcur).
    rewrite (sum_burst_insert _ _ _ p2 _ Hp)
      by (unfold p2; simpl; exact Hbur).
    assert (E1 : rem_at (<[cur := p2]> (store (rr_sched s))) cur
                 = Z.to_nat (r - run)).
    { unfold rem_at. rewrite list_lookup_insert_eq by exact Hlen.
      reflexivity. }
    assert (E2 : rem_at (store (rr_sched s)) cur = Z.to_nat r)
      by (unfold rem_at; rewrite Hp, Hr; reflexivity).
    rewrite Eq. simpl. rewrite E1, E2.
    destruct (procs !! rr_i s) as [j|] eqn:Ei; [|lia].
    rewrite (rr_key_insert _ _ _ p2 _ Hp)
      by (unfold p2; simpl; exact Harr).
    specialize (Hpost j eq_refl). fold t in Hpost. fold t.
    destruct (Z.leb_spec (rr_key (store (rr_sched s)) j) t); [lia|].
    destruct (Z.leb_spec (rr_key (store (rr_sched s)) j) (t + run)); lia.
Qed.

(** The slice left work to do: back to the tail of the queue. *)
Lemma rr_requeue_inv s cur p r :
  rr_inv procs t0 [cur] s →
  store (rr_sched s) !! cur = Some p →
  remaining_time p = Some r → 0 < r →
  let s' := mkRR (rr_sched s) (rr_i s) (ready_queue s ++ [cur]) in
  rr_inv procs t0 [] s'
  ∧ rr_measure procs [] s' = rr_measure procs [cur] s.
Proof.
  intros (Hch & Hrec & Hwf & Hnd & Hadm & Hq & Hfin & Hpend & Hfirst
          & Hnil & Hlast & Hfl) Hp Hr Hr0. simpl.
  split; [|unfold rr_measure, rr_wait; simpl; rewrite app_nil_r; reflexivity].
  unfold rr_inv. simpl. rewrite app_nil_r.
  split; [exact Hch|]. split; [exact Hrec|]. split; [exact Hwf|].
  split; [exact Hnd|]. split; [exact Hadm|].
  split.
  { intros j [Hj| ->%list_elem_of_singleton]%elem_of_app; [apply Hq, Hj|].
    destruct (Hfl cur) as (p' & Hp' & Hpc & _ & Ha); [left|].
    rewrite Hp in Hp'. injection Hp' as <-. exists p, r. auto. }
  split; [exact Hfin|]. split; [exact Hpend|]. split; [exact Hfirst|].
  split; [exact Hnil|]. split; [exact Hlast|].
  intros j Hj. inversion Hj.
Qed.

(** The slice used up the burst: the process completes. *)
Lemma rr_complete_inv s cur p r :
  rr_inv procs t0 [cur] s →
  store (rr_sched s) !! cur = Some p →
  remaining_time p = Some r → r ≤ 0 →
  let s' := mkRR (mkSched (<[cur := set_completion_time
                                      (Some (time (rr_sched s))) p]>
                             (store (rr_sched s)))
                          (time (rr_sched s)) (schedule (rr_sched s)))
                 (rr_i s) (ready_queue s) in
  rr_inv procs t0 [] s'
  ∧ (rr_measure procs [] s' ≤ rr_measure procs [cur] s)%nat.
Proof.
  intros (Hch & Hrec & Hwf & Hnd & Hadm & Hq & Hfin & Hpend & Hfirst
          & Hnil & Hlast & Hfl) Hp Hr Hr0. simpl.
  pose proof (list_elem_of_lookup_2 _ _ _ Hp) as Hpin.
  pose proof (lookup_lt_Some _ _ _ Hp) as Hlen.
  destruct (Hfl cur) as (p' & Hp' & Hpc & Hps & Ha); [left|].
  rewrite Hp in Hp'. injection Hp' as <-.
  pose proof (proj1 (Forall_forall _ _) Hrec p Hpin)
    as (r' & Hr' & Hr0' & Hrb & Hcase).
  rewrite Hr in Hr'. injection Hr' as <-. rewrite Hpc in Hcase.
  destruct (start_time p) as [st|] eqn:Est; [|contradiction].
  apply NoDup_app in Hnd as (Hnq & Hdisj & _).
  assert (Hcur : cur ∉ ready_queue s).
  { intros H. apply (Hdisj cur H). left. }
  set (p4 := set_completion_time (Some (time (rr_sched s))) p).
  assert (Hp4in : p4 ∈ <[cur := p4]> (store (rr_sched s)))
    by (apply list_elem_of_insert, Hlen).
  split.
  - unfold rr_inv. simpl. rewrite app_nil_r.
    split; [exact Hch|].
    split.
    { apply Forall_insert; [exact Hrec|].
      exists r. unfold p4. simpl. rewrite Est.
      split; [exact Hr|]. repeat split; auto; lia. }
    split.
    { apply Forall_insert; [exact Hwf|].
      apply (proj1 (Forall_forall _ _) Hwf p Hpin). }
    split; [exact Hnq|].
    split. { intros j Hj. apply Hadm, elem_of_app. left. exact Hj. }
    split.
    { intros j Hj. destruct (Hq j Hj) as (pj & rj & Hpj & H).
      exists pj, rj. rewrite list_lookup_insert_ne
        by (intros ->; contradiction). auto. }
    split.
    { intros j pj Hj Hnj Hpj.
      destruct (decide (cur = j)) as [<-|Hne].
      - rewrite list_lookup_insert_eq in Hpj by exact Hlen.
        injection Hpj as <-. discriminate.
      - rewrite list_lookup_insert_ne in Hpj by exact Hne.
        apply (Hfin j pj Hj); [|exact Hpj].
        intros [H| ->%list_elem_of_singleton]%elem_of_app;
          [contradiction | congruence]. }
    split.
    { intros j Hj. destruct (Hpend j Hj) as (pj & Hpj & ?).
      exists pj. split; [|assumption].
      rewrite list_lookup_insert_ne; [exact Hpj|].
      intros ->. eapply (take_drop_disjoint procs); eauto.
      apply Hadm, elem_of_app. right. left. }
    split.
    { intros Hs. rewrite <- (app_nil_r (schedule (rr_sched s))).
      eapply start_points_update; [exact Hp| |apply Hfirst, Hs].
      left. reflexivity. }
    split.
    { intros Hs. exfalso.
      pose proof (proj1 (Forall_forall _ _) (Hnil Hs) p Hpin) as Hn.
      simpl in Hn. congruence. }
    split.
    { intros _. left. exists p4. split; [exact Hp4in | reflexivity]. }
    intros j Hj. inversion Hj.
  - unfold rr_measure, rr_wait. simpl. rewrite app_nil_r.
    rewrite sum_list_with_app.
    rewrite (sum_rem_insert_notin _ _ _ _ Hcur).
    rewrite (sum_burst_insert _ _ _ p4 _ Hp) by reflexivity.
    destruct (procs !! rr_i s) as [j|]; [|lia].
    rewrite (rr_key_insert _ _ _ p4 _ Hp) by reflexivity. lia.
Qed.
(** One pass of the main loop keeps the invariant and makes
    progress; it never raises. *)
Lemma rr_body_inv q s :
  0 < q →
  rr_inv procs t0 [] s →
  match rr_body procs q s with
  | RRContinue s' =>
      rr_inv procs t0 [] s'
      ∧ (rr_measure procs [] s' < rr_measure procs [] s)%nat
  | RRBreak s' => rr_inv procs t0 [] s' ∧ rr_guard procs s' = false
  | RRRaise _ _ => False
  end.
Proof.
  intros Hq0 Hinv. unfold rr_body, admit_arrived.
  destruct (admit_inv [] (length procs - rr_i s) s Hinv)
    as (Hinv1 & Hsc1 & Hm1 & Hpost1).
  assert (Hpost : ∀ j, procs !! rr_i (admit_while (length procs - rr_i s) procs s)
                       = Some j →
                       time (rr_sched (admit_while (length procs - rr_i s) procs s))
                       < rr_key (store (rr_sched
                                   (admit_while (length procs - rr_i s) procs s))) j)
    by (apply Hpost1; lia).
  clear Hpost1.
  set (s1 := admit_while (length procs - rr_i s) procs s) in *.
  destruct (ready_queue s1) as [|cur rest] eqn:Eq.
  - destruct (procs !! rr_i s1) as [j|] eqn:Ei.
    + specialize (Hpost j eq_refl).
      rewrite (proj2 (Z.ltb_lt _ _) Hpost).
      destruct (rr_idle_inv s1 j Hinv1 Eq Ei Hpost) as [H1 H2].
      split; [exact H1 | lia].
    + split; [exact Hinv1|]. unfold rr_guard. rewrite Eq.
      apply lookup_ge_None in Ei.
      destruct (Nat.ltb_spec (rr_i s1) (length procs)); [lia | reflexivity].
  - destruct (rr_slice_inv q s1 cur rest Hq0 Hinv1 Eq Hpost)
      as (p & r & Hp & Hr & Hinv2 & Hm2).
    rewrite Hp, Hr. cbv zeta in Hinv2, Hm2.
    set (p2 := set_remaining_time (Some (r - q `min` r))
                 (first_dispatch (time (rr_sched s1)) p)) in *.
    match type of Hinv2 with rr_inv _ _ _ ?x => set (s2 := x) in * end.
    destruct (admit_inv [cur] (length procs - rr_i s2) s2 Hinv2)
      as (Hinv3 & Hsc3 & Hm3 & _).
    set (s3 := admit_while (length procs - rr_i s2) procs s2) in *.
    assert (Hp3 : store (rr_sched s3) !! cur = Some p2).
    { rewrite Hsc3. unfold s2. simpl.
      apply list_lookup_insert_eq. eapply lookup_lt_Some, Hp. }
    rewrite Hp3.
    change (remaining_time p2) with (Some (r - q `min` r)).
    cbv iota beta.
    destruct (Z.ltb_spec 0 (r - q `min` r)) as [Hpos|Hneg].
    + destruct (rr_requeue_inv s3 cur p2 _ Hinv3 Hp3 eq_refl Hpos)
        as [H1 H2].
      split; [exact H1 | lia].
    + destruct (rr_complete_inv s3 cur p2 _ Hinv3 Hp3 eq_refl Hneg)
        as [H1 H2].
      split; [exact H1 | lia].
Qed.

Lemma rr_loop_total q fuel s :
  0 < q →
  rr_inv procs t0 [] s →
  (rr_measure procs [] s < fuel)%nat →
  ∃ sf, rr_loop fuel procs q s = (sf, Returns tt)
        ∧ rr_inv procs t0 [] sf ∧ rr_guard procs sf = false.
Proof.
  intros Hq0. revert s. induction fuel as [|fuel IH]; intros s Hinv Hm;
    [lia|].
  simpl. destruct (rr_guard procs s) eqn:Eg; [|eauto].
  pose proof (rr_body_inv q s Hq0 Hinv) as Hb.
  destruct (rr_body procs q s) as [s'|s'|e s'].
  - destruct Hb as [Hinv' Hdec]. apply IH; [exact Hinv' | lia].
  - destruct Hb as [Hinv' Hg]. eauto.
  - contradiction.
Qed.
End RoundRobinProofs.

Lemma rr_inv_init ps :
  Forall rec_wf ps →
  rr_inv (fst (rr_init ps)) (time (rr_sched (snd (rr_init ps)))) []
         (snd (rr_init ps)).
Proof.
  intros Hwf. unfold rr_init. cbv zeta. cbn [fst snd].
  set (st := reset_processes ps).
  set (procs := sorted Z.ltb (rr_key st) (seq 0 (length st))).
  assert (Hperm : procs ≡ₚ seq 0 (length st)) by apply sorted_perm.
  unfold rr_inv. simpl.
  split; [reflexivity|].
  split.
  { apply Forall_forall. intros p Hp.
    pose proof (proj1 (Forall_forall _ _) (reset_wf ps Hwf) p Hp) as [Hb _].
    apply list_elem_of_lookup in Hp as [i Hi].
    apply reset_lookup in Hi as (Hs & Hc & Hr).
    exists (burst_time p). rewrite Hs, Hc.
    split; [exact Hr|]. split; [lia|]. split; [lia|reflexivity]. }
  split; [apply reset_wf, Hwf|].
  split; [constructor|].
  split; [intros j Hj; inversion Hj|].
  split; [intros j Hj; inversion Hj|].
  split; [intros j p Hj; inversion Hj|].
  split.
  { intros j Hj. rewrite Hperm in Hj. apply elem_of_seq in Hj.
    destruct (lookup_lt_is_Some_2 st j) as [p Hp]; [lia|].
    exists p. split; [exact Hp|]. apply reset_lookup in Hp. tauto. }
  split; [intros []; reflexivity|].
  split.
  { intros _. apply Forall_forall. intros p Hp.
    apply list_elem_of_lookup in Hp as [i Hi].
    apply reset_lookup in Hi. tauto. }
  split; [intros []; reflexivity|].
  intros j Hj. inversion Hj.
Qed.

Lemma rr_final procs t0 sf :
  procs ≡ₚ seq 0 (length (store (rr_sched sf))) →
  rr_inv procs t0 [] sf → rr_guard procs sf = false →
  final_ok t0 (rr_sched sf).
Proof.
  intros Hperm (Hch & Hrec & Hwf & Hnd & Hadm & Hq & Hfin & Hpend & Hfirst
                & Hnil & Hlast & Hfl) Hg.
  unfold rr_guard in Hg. apply orb_false_iff in Hg as [Hi Hqe].
  apply Nat.ltb_ge in Hi.
  destruct (ready_queue sf) as [|x l] eqn:Eq; [|discriminate].
  assert (Hall : Forall (finished_ok t0 (time (rr_sched sf)))
                        (store (rr_sched sf))).
  { apply Forall_lookup. intros j p Hp.
    assert (Hj : j ∈ take (rr_i sf) procs).
    { rewrite take_ge by exact Hi. rewrite Hperm. apply elem_of_seq.
      apply lookup_lt_Some in Hp. lia. }
    pose proof (Hfin j p Hj (not_elem_of_nil _) Hp) as Hc.
    pose proof (proj1 (Forall_lookup _ _) Hrec j p Hp) as (r & _ & _ & _ & Hr).
    unfold finished_ok.
    destruct (start_time p) as [t|], (completion_time p) as [c|];
      try contradiction; try congruence.
    exists t, c. tauto. }
  split; [exact Hch|]. split; [exact Hall|]. split.
  - intros Hs. specialize (Hnil Hs).
    destruct (store (rr_sched sf)) as [|p st]; [reflexivity|].
    apply Forall_cons in Hnil as [Hn _]. apply Forall_cons in Hall as [Hf _].
    destruct Hf as (t & c & Ht & _). simpl in Hn. congruence.
  - intros Hs. split; [apply Hfirst, Hs|].
    destruct (Hlast Hs) as [H|[H|H]]; [exact H | contradiction | lia].
Qed.

Lemma round_robin_correct ps q :
  well_formed ps → 0 < q →
  ∃ s t0, final_ok t0 s ∧ Forall rec_wf (store s)
          ∧ round_robin ps q = hands_back (map derive (store s)) (schedule s).
Proof.
  intros [Hwf _] Hq. unfold round_robin.
  destruct (Z.leb_spec q 0) as [?|_]; [lia|].
  pose proof (rr_inv_init ps Hwf) as Hinv.
  destruct (rr_init ps) as [procs s0] eqn:Einit. cbn [fst snd] in Hinv.
  assert (Hs0 : store (rr_sched s0) = reset_processes ps
                ∧ procs ≡ₚ seq 0 (length (reset_processes ps))
                ∧ rr_i s0 = 0%nat ∧ ready_queue s0 = []
                ∧ match procs !! 0%nat with
                  | Some j => time (rr_sched s0) = rr_key (reset_processes ps) j
                  | None => True
                  end).
  { unfold rr_init in Einit. injection Einit as <- <-. simpl.
    split; [reflexivity|]. split; [apply sorted_perm|].
    split; [reflexivity|]. split; [reflexivity|].
    destruct (_ !! 0%nat); auto. }
  destruct Hs0 as (Hst & Hperm & Hi0 & Hq0 & Ht0).
  assert (Hnd : NoDup procs) by (rewrite Hperm; apply NoDup_seq).
  destruct (rr_loop_total procs (time (rr_sched s0)) Hnd q
              (rr_fuel procs (store (rr_sched s0))) s0 Hq Hinv)
    as (sf & Hloop & Hinvf & Hg).
  { unfold rr_measure, rr_fuel, rr_wait. rewrite Hi0, Hq0. simpl.
    rewrite drop_0.
    destruct (procs !! 0%nat) as [j|]; [|lia].
    rewrite Ht0, Hst, Z.leb_refl. lia. }
  rewrite Hloop.
  exists (rr_sched sf), (time (rr_sched s0)).
  rewrite metrics_and_return_spec.
  split; [|split; [apply Hinvf | reflexivity]].
  apply (rr_final procs); [|exact Hinvf | exact Hg].
  pose proof (static_rr_loop (rr_fuel procs (store (rr_sched s0))) procs q s0)
    as Hsf.
  rewrite Hloop in Hsf. simpl in Hsf.
  apply (f_equal length) in Hsf. rewrite !length_map in Hsf.
  rewrite Hsf, Hst. exact Hperm.
Qed.

(** ** Decision points of SJF and Priority *)




Lemma pid_by_static st st' :
  map static_fields st = map static_fields st' → map pid st = map pid st'.
Proof.
  intros H. apply (f_equal (map (λ x : string * Z * Z * Z, x.1.1.1))) in H.
  rewrite !map_map in H. exact H.
Qed.


Section Decisions.
Variable key : Process → Z * Z * string.
Variable n : nat.




Lemma np_reach_inv t0 s c s' c' :
  np_reach key (seq 0 n) n s c s' c' →
  np_inv n t0 s c → np_inv n t0 s' c'.
Proof.
  induction 1 as [s c|s c s1 c1 s2 c2 Hc Hstep Hr IH]; intros Hinv; [auto|].
  apply IH. destruct (np_step_inv key n t0 s c Hinv Hc)
    as (sx & cx & Hx & Hinvx & _).
  rewrite Hstep in Hx. injection Hx as <- <-. exact Hinvx.
Qed.

Lemma np_loop_inv t0 fuel s c sf :
  np_inv n t0 s c →
  np_loop key fuel (seq 0 n) n s c = Some sf →
  ∃ cf, np_inv n t0 sf cf.
Proof.
  revert s c. induction fuel as [|fuel IH]; intros s c Hinv; simpl;
    [discriminate|].
  destruct (Nat.ltb_spec c n) as [Hc|Hc]; [|intros [= <-]; eauto].
  destruct (np_step_inv key n t0 s c Hinv Hc) as (sx & cx & -> & Hinvx & _).
  eauto.
Qed.

End Decisions.

(** ** The runs depend on the records through [reset_processes] only *)

Lemma fcfs_by_reset ps ps' :
  reset_processes ps = reset_processes ps' → fcfs ps = fcfs ps'.
Proof. intros H. unfold fcfs. rewrite H. reflexivity. Qed.

Lemma non_preemptive_by_reset key ps ps' :
  reset_processes ps = reset_processes ps' →
  non_preemptive key ps = non_preemptive key ps'.
Proof. intros H. unfold non_preemptive, np_init. rewrite H. reflexivity. Qed.

Lemma round_robin_by_reset ps ps' q :
  0 < q → reset_processes ps = reset_processes ps' →
  round_robin ps q = round_robin ps' q.
Proof.
  intros Hq H. unfold round_robin, rr_init.
  destruct (Z.leb_spec q 0); [lia|]. rewrite H. reflexivity.
Qed.

Lemma run_postcondition r :
  (∃ s t0, final_ok t0 s ∧ Forall rec_wf (store s)
           ∧ r = hands_back (map derive (store s)) (schedule s)) →
  ends_with r (λ st _, Forall record_ok st)
  ∧ ends_with r (λ st tl, timeline_ok st tl).
Proof.
  intros (s & t0 & Hfin & Hwf & ->).
  split; eexists _, _; (split; [reflexivity|]).
  - eapply final_records; eauto.
  - eapply final_timeline; eauto.
Qed.

(** The records a call hands back are the caller's, whatever the
    outcome. *)
Lemma ends_with_tied r ps (P : Timeline → Process → Prop) :
  map static_fields (fst r) = map static_fields ps →
  ends_with r (λ st tl, Forall (P tl) st) →
  ends_with r (λ st tl, every_record ps st (P tl)).
Proof.
  intros Hs (st & tl & -> & HP). exists st, tl.
  split; [reflexivity|]. apply every_record_intro; assumption.
Qed.

Lemma run_ends r :
  (∃ s t0, final_ok t0 s ∧ Forall rec_wf (store s)
           ∧ r = hands_back (map derive (store s)) (schedule s)) →
  ends_with r (λ st tl, Forall record_ok st ∧ timeline_ok st tl).
Proof.
  intros (s & t0 & Hfin & Hwf & ->).
  eexists _, _. split; [reflexivity|]. split.
  - eapply final_records; eauto.
  - eapply final_timeline; eauto.
Qed.

Lemma record_ok_scheduled p : record_ok p → scheduled p.
Proof. intros (s & c & _ & _ & Hs & Hc & _). exists s, c. auto. Qed.

Section EveryAlgorithm.
Variable ps : list Process.
Variable quantum : Z.
Hypothesis ps_wf : well_formed ps.
Hypothesis quantum_pos : 0 < quantum.

(** What is shown of the final state of a run holds of all four
    algorithms. *)
Lemma every_algorithm (R : list Process → Timeline → Prop) :
  (∀ r, map static_fields (fst r) = map static_fields ps →
        (∃ s t0, final_ok t0 s ∧ Forall rec_wf (store s)
                 ∧ r = hands_back (map derive (store s)) (schedule s)) →
        ends_with r R) →
  ends_with (fcfs ps) R
  ∧ ends_with (sjf_non_preemptive ps) R
  ∧ ends_with (priority_non_preemptive ps) R
  ∧ ends_with (round_robin ps quantum) R.
Proof.
  intros H.
  split; [apply H; [apply static_fcfs | apply fcfs_correct, ps_wf]|].
  split; [apply H; [apply static_non_preemptive
                   | apply non_preemptive_correct, ps_wf]|].
  split; [apply H; [apply static_non_preemptive
                   | apply non_preemptive_correct, ps_wf]|].
  apply H; [apply static_round_robin
           | apply round_robin_correct; [exact ps_wf | exact quantum_pos]].
Qed.
End EveryAlgorithm.

(** A burst beyond the floats: the run is made, the records are
    filled in, and the last [compute_metrics] call raises. *)
Example overflow_example :
  well_formed ex_huge
  ∧ fcfs ex_huge
    = ([mkProcess "x" 0 (2 * 10 ^ 308) 0 (Some 0) (Some (2 * 10 ^ 308))
                  (Some 0) (Some (2 * 10 ^ 308)) (Some (2 * 10 ^ 308))],
       Raises OverflowError)
  ∧ snd (sjf_non_preemptive ex_huge) = Raises OverflowError
  ∧ snd (priority_non_preemptive ex_huge) = Raises OverflowError.
Proof.
  split; [split; [repeat constructor; unfold rec_wf; simpl; lia
                 | apply (bool_decide_unpack _); vm_compute; exact I]|].
  repeat split; vm_compute; reflexivity.
Qed.

(** * The claims *)

Ltac solve_well_formed :=
  split;
  [ repeat constructor; unfold rec_wf; simpl; lia
  | apply (bool_decide_unpack _); vm_compute; exact I ].

(** C1: a quantum [<= 0] makes [round_robin] raise its configuration
    error at once: no Timeline comes back, and the records are exactly
    the ones passed in. *)
Theorem round_robin_rejects_bad_quantum (records : list Process) (quantum : Z) :
  quantum <= 0 →
  round_robin records quantum = (records, Raises ValueError).
Proof.
  intros H. unfold round_robin.
  destruct (Z.leb_spec quantum 0); [reflexivity | lia].
Qed.

Lemma round_robin_rejects_bad_quantum_witness :
  0 <= 0 ∧ round_robin ex_procs 0 = (ex_procs, Raises ValueError).
Proof.
  split; [lia | apply round_robin_rejects_bad_quantum; lia].
Defined.

(** C2: on well-formed input every algorithm ends: it returns its
    chart, or, when an average is beyond the floats, raises the
    [OverflowError] of its last [compute_metrics] call.  Afterwards
    every record of the caller's list has
    [completion_time >= start_time >= arrival_time],
    [turnaround_time = completion_time - arrival_time] and
    [waiting_time = turnaround_time - burst_time >= 0]. *)
Theorem records_consistent_after_run (ps : list Process) (quantum : Z) :
  well_formed ps → 0 < quantum →
  ends_with (fcfs ps) (λ st _, every_record ps st record_ok)
  ∧ ends_with (sjf_non_preemptive ps) (λ st _, every_record ps st record_ok)
  ∧ ends_with (priority_non_preemptive ps)
              (λ st _, every_record ps st record_ok)
  ∧ ends_with (round_robin ps quantum)
              (λ st _, every_record ps st record_ok).
Proof.
  intros Hwf Hq. apply every_algorithm; [exact Hwf | exact Hq|].
  intros r Hs Hr. apply run_ends in Hr.
  destruct Hr as (st & tl & -> & Hrec & _). exists st, tl.
  split; [reflexivity|]. apply every_record_intro; assumption.
Qed.

Lemma records_consistent_after_run_witness :
  well_formed ex_procs ∧ 0 < 2
  ∧ ends_with (fcfs ex_procs) (λ st _, every_record ex_procs st record_ok)
  ∧ ends_with (sjf_non_preemptive ex_procs)
              (λ st _, every_record ex_procs st record_ok)
  ∧ ends_with (priority_non_preemptive ex_procs)
              (λ st _, every_record ex_procs st record_ok)
  ∧ ends_with (round_robin ex_procs 2)
              (λ st _, every_record ex_procs st record_ok).
Proof.
  split; [solve_well_formed|]. split; [lia|].
  apply records_consistent_after_run; [solve_well_formed | lia].
Defined.

(** C3: on well-formed input the Timeline every algorithm builds, and
    returns unless an average is beyond the floats, has [end > start]
    in every interval, each interval starts where the previous one
    ends, and it covers exactly the span from the least start (of a
    process or of an idle interval) to the final completion time, the
    processes being those of the caller's list, every one of them
    scheduled. *)
Theorem timeline_contiguous_and_covering (ps : list Process) (quantum : Z) :
  well_formed ps → 0 < quantum →
  ends_with (fcfs ps)
    (λ st tl, every_record ps st scheduled ∧ timeline_ok st tl)
  ∧ ends_with (sjf_non_preemptive ps)
      (λ st tl, every_record ps st scheduled ∧ timeline_ok st tl)
  ∧ ends_with (priority_non_preemptive ps)
      (λ st tl, every_record ps st scheduled ∧ timeline_ok st tl)
  ∧ ends_with (round_robin ps quantum)
      (λ st tl, every_record ps st scheduled ∧ timeline_ok st tl).
Proof.
  intros Hwf Hq. apply every_algorithm; [exact Hwf | exact Hq|].
  intros r Hs Hr. apply run_ends in Hr.
  destruct Hr as (st & tl & -> & Hrec & Htl). exists st, tl.
  split; [reflexivity|]. split; [|exact Htl].
  apply every_record_intro; [exact Hs|].
  eapply Forall_impl; [exact Hrec|]. apply record_ok_scheduled.
Qed.

Lemma timeline_contiguous_and_covering_witness :
  well_formed ex_procs ∧ 0 < 2
  ∧ ends_with (fcfs ex_procs)
      (λ st tl, every_record ex_procs st scheduled ∧ timeline_ok st tl)
  ∧ ends_with (sjf_non_preemptive ex_procs)
      (λ st tl, every_record ex_procs st scheduled ∧ timeline_ok st tl)
  ∧ ends_with (priority_non_preemptive ex_procs)
      (λ st tl, every_record ex_procs st scheduled ∧ timeline_ok st tl)
  ∧ ends_with (round_robin ex_procs 2)
      (λ st tl, every_record ex_procs st scheduled ∧ timeline_ok st tl).
Proof.
  split; [solve_well_formed|]. split; [lia|].
  apply timeline_contiguous_and_covering; [solve_well_formed | lia].
Defined.

(** C4: the worked FCFS example: the Timeline, the waiting times and the
    average waiting time, which is the float of 8/3: the double
    nearest to it, [6004799503160661 / 2^51], printed
    [2.6666666666666665]. *)
Theorem fcfs_worked_example :
  snd (fcfs ex_procs) = Returns [(0, 4, "P1"); (4, 7, "P2"); (7, 8, "P3")]
  ∧ map (λ p, (pid p, waiting_time p)) (fst (fcfs ex_procs))
    = [("P1", Some 0); ("P2", Some 3); ("P3", Some 5)]
  ∧ ∃ m, snd (compute_metrics (fst (fcfs ex_procs))) = Returns m
         ∧ avg_waiting_time m = nearest_float (8 # 3)
         ∧ avg_waiting_time m = (6004799503160661 # 2251799813685248)%Q
         ∧ (Qabs (avg_waiting_time m - (8 # 3)) <= 1 # 2 ^ 52)%Q.
Proof.
  split; [vm_compute; reflexivity|].
  split; [vm_compute; reflexivity|].
  eexists. split; [vm_compute; reflexivity|]. cbn [avg_waiting_time].
  split; [vm_compute; reflexivity|]. split; [reflexivity|].
  vm_compute. discriminate.
Qed.



(** P1 is not interrupted although the shorter P3 arrives at time 2. *)
Example sjf_no_preemption_example :
  snd (sjf_non_preemptive ex_procs)
  = Returns [(0, 4, "P1"); (4, 5, "P3"); (5, 8, "P2")].
Proof. vm_compute. reflexivity. Qed.

(** C6: the worked Round Robin example with quantum 2: the first slice,
    the ready queue right after it (arrivals ahead of the preempted
    process) and the whole Timeline. *)
Theorem round_robin_worked_example :
  ∃ s1,
    rr_body (fst (rr_init ex_procs)) 2 (snd (rr_init ex_procs))
    = RRContinue s1
    ∧ schedule (rr_sched s1) = [(0, 2, "P1")]
    ∧ omap (λ j, (λ p, (pid p, remaining_time p))
                   <$> store (rr_sched s1) !! j) (ready_queue s1)
      = [("P2", Some 3); ("P3", Some 1); ("P1", Some 2)]
    ∧ snd (round_robin ex_procs 2)
      = Returns [(0, 2, "P1"); (2, 4, "P2"); (4, 5, "P3");
                 (5, 7, "P1"); (7, 8, "P2")].
Proof.
  eexists. split; [vm_compute; reflexivity|].
  split; [reflexivity|]. split; vm_compute; reflexivity.
Qed.

(** C7: [compute_metrics] leaves a record without [completion_time] as
    it is and keeps it out of the sums, fills in the two derived fields
    of every other record, and divides both sums by the number of all
    records: each average is the float of that quotient; with no
    records both averages are 0. *)
Theorem compute_metrics_skips_unfinished (ps : list Process) :
  (∀ i p, ps !! i = Some p → completion_time p = None →
          fst (compute_metrics ps) !! i = Some p)
  ∧ (∀ i p c, ps !! i = Some p → completion_time p = Some c →
              ∃ p', fst (compute_metrics ps) !! i = Some p'
                    ∧ turnaround_time p' = Some (c - arrival_time p)
                    ∧ waiting_time p'
                      = Some (c - arrival_time p - burst_time p))
  ∧ ((0 < length ps)%nat →
     snd (compute_metrics ps)
     = and_then
         (py_true_div (sum_list (omap finished_waiting ps))
                      (Z.of_nat (length ps)))
         (λ avg_waiting,
          and_then
            (py_true_div (sum_list (omap finished_turnaround ps))
                         (Z.of_nat (length ps)))
            (λ avg_turnaround,
             Returns (mkMetrics avg_waiting avg_turnaround)))
     ∧ ∀ m, snd (compute_metrics ps) = Returns m →
            avg_waiting_time m
            = nearest_float (inject_Z (sum_list (omap finished_waiting ps))
                             / inject_Z (Z.of_nat (length ps)))
            ∧ avg_turnaround_time m
              = nearest_float
                  (inject_Z (sum_list (omap finished_turnaround ps))
                   / inject_Z (Z.of_nat (length ps))))
  ∧ (ps = [] → snd (compute_metrics ps) = Returns (mkMetrics 0 0)).
Proof.
  split; [|split; [|split]].
  - intros i p Hp Hc. rewrite compute_metrics_store.
    change ((derive <$> ps) !! i = Some p).
    rewrite list_lookup_fmap, Hp. simpl. unfold derive. rewrite Hc.
    reflexivity.
  - intros i p c Hp Hc. rewrite compute_metrics_store.
    exists (derive p). split.
    + change ((derive <$> ps) !! i = Some (derive p)).
      rewrite list_lookup_fmap, Hp. reflexivity.
    + unfold derive. rewrite Hc. simpl. auto.
  - intros Hn. rewrite compute_metrics_outcome. unfold average.
    destruct (Z.ltb_spec 0 (Z.of_nat (length ps))) as [_|]; [|lia].
    split; [reflexivity|]. intros m. unfold py_true_div.
    destruct (Z.eqb_spec (Z.of_nat (length ps)) 0) as [|_]; [lia|].
    cbv zeta.
    destruct (Qle_bool _ _); [discriminate|]. cbn [and_then].
    destruct (Qle_bool _ _); [discriminate|]. cbn [and_then].
    intros [= <-]. split; reflexivity.
  - intros ->. reflexivity.
Qed.

Lemma compute_metrics_skips_unfinished_witness :
  (0 < length ex_half_done)%nat
  ∧ snd (compute_metrics ex_half_done)
    = and_then (py_true_div 3 2)
        (λ avg_waiting,
         and_then (py_true_div 6 2)
           (λ avg_turnaround,
            Returns (mkMetrics avg_waiting avg_turnaround)))
  ∧ snd (compute_metrics ex_half_done) = Returns (mkMetrics (3 # 2) 3).
Proof.
  split; [simpl; lia|].
  split; [|vm_compute; reflexivity].
  apply (compute_metrics_skips_unfinished ex_half_done).
  simpl; lia.
Defined.

(** C8: each entry point is idempotent: a second call on the records
    the first call left behind returns the same Timeline and leaves the
    same records. *)
Theorem algorithms_idempotent (ps : list Process) (quantum : Z) :
  well_formed ps → 0 < quantum →
  fcfs (fst (fcfs ps)) = fcfs ps
  ∧ sjf_non_preemptive (fst (sjf_non_preemptive ps)) = sjf_non_preemptive ps
  ∧ priority_non_preemptive (fst (priority_non_preemptive ps))
    = priority_non_preemptive ps
  ∧ round_robin (fst (round_robin ps quantum)) quantum
    = round_robin ps quantum.
Proof.
  intros _ Hq.
  split; [apply fcfs_by_reset, reset_by_static, static_fcfs|].
  split;
    [apply non_preemptive_by_reset, reset_by_static, static_non_preemptive|].
  split;
    [apply non_preemptive_by_reset, reset_by_static, static_non_preemptive|].
  apply round_robin_by_reset; [exact Hq|].
  apply reset_by_static, static_round_robin.
Qed.

Lemma algorithms_idempotent_witness :
  well_formed ex_procs ∧ 0 < 2
  ∧ fcfs (fst (fcfs ex_procs)) = fcfs ex_procs
  ∧ sjf_non_preemptive (fst (sjf_non_preemptive ex_procs))
    = sjf_non_preemptive ex_procs
  ∧ priority_non_preemptive (fst (priority_non_preemptive ex_procs))
    = priority_non_preemptive ex_procs
  ∧ round_robin (fst (round_robin ex_procs 2)) 2 = round_robin ex_procs 2.
Proof.
  split; [solve_well_formed|]. split; [lia|].
  apply algorithms_idempotent; [solve_well_formed | lia].
Defined.

(** C9: on the empty list every algorithm returns the empty Timeline. *)
Theorem empty_input_empty_timeline (quantum : Z) :
  0 < quantum →
  fcfs [] = ([], Returns [])
  ∧ sjf_non_preemptive [] = ([], Returns [])
  ∧ priority_non_preemptive [] = ([], Returns [])
  ∧ round_robin [] quantum = ([], Returns []).
Proof.
  intros Hq. repeat split; try reflexivity.
  unfold round_robin. destruct (Z.leb_spec quantum 0); [lia | reflexivity].
Qed.

Lemma empty_input_empty_timeline_witness :
  0 < 3
  ∧ fcfs [] = ([], Returns [])
  ∧ sjf_non_preemptive [] = ([], Returns [])
  ∧ priority_non_preemptive [] = ([], Returns [])
  ∧ round_robin [] 3 = ([], Returns []).
Proof.
  split; [lia | apply empty_input_empty_timeline; lia].
Defined.

(** C10: no operation changes [pid], [arrival_time], [burst_time] or
    [priority] of any record, nor the length or the order of the
    caller's list. *)
Theorem static_fields_preserved (ps : list Process) (quantum : Z) :
  map static_fields (fst (fcfs ps)) = map static_fields ps
  ∧ map static_fields (fst (sjf_non_preemptive ps)) = map static_fields ps
  ∧ map static_fields (fst (priority_non_preemptive ps))
    = map static_fields ps
  ∧ map static_fields (fst (round_robin ps quantum)) = map static_fields ps
  ∧ map static_fields (fst (compute_metrics ps)) = map static_fields ps.
Proof.
  split; [apply static_fcfs|].
  split; [apply static_non_preemptive|].
  split; [apply static_non_preemptive|].
  split; [apply static_round_robin | apply static_compute_metrics].
Qed.

(** * Beyond the claims *)

(** ** Priority dispatches by [(priority, arrival_time, pid)] *)



(** ** FCFS, SJF and Priority never split a process *)

Lemma ran_whole_derive p : ran_whole p → ran_whole (derive p).
Proof.
  unfold ran_whole. rewrite derive_start, derive_completion.
  unfold derive. destruct (completion_time p); auto.
Qed.

Lemma ran_whole_reset ps : Forall ran_whole (reset_processes ps).
Proof.
  apply Forall_forall. intros p Hp.
  apply list_elem_of_lookup in Hp as [i Hi].
  apply reset_lookup in Hi as (Hs & _). intros s c. congruence.
Qed.

Lemma ran_whole_run i p s :
  Forall ran_whole (store s) →
  Forall ran_whole (store (run_to_completion i p s)).
Proof.
  intros H. simpl. apply Forall_insert; [exact H|].
  intros t c. simpl. congruence.
Qed.

Lemma ran_whole_fcfs_loop procs s :
  Forall ran_whole (store s) →
  Forall ran_whole (store (fold_left fcfs_body procs s)).
Proof.
  revert s. induction procs as [|i procs IH]; intros s H; simpl; [exact H|].
  apply IH. unfold fcfs_body. destruct (store s !! i) as [p|]; [|exact H].
  apply ran_whole_run. destruct (_ <? _); exact H.
Qed.

Lemma ran_whole_np_loop key fuel remaining n s c sf :
  np_loop key fuel remaining n s c = Some sf →
  Forall ran_whole (store s) → Forall ran_whole (store sf).
Proof.
  revert s c. induction fuel as [|fuel IH]; intros s c; simpl; [discriminate|].
  destruct (c <? n)%nat; [|intros [= <-]; auto].
  destruct (np_step key remaining s c) as [[s1 c1]|] eqn:E;
    [|intros [= <-]; auto].
  intros Hl H. apply (IH _ _ Hl).
  unfold np_step in E. destruct (ready_list remaining s).
  - destruct (min_int _); [injection E as <- <-; exact H | discriminate].
  - destruct (store s !! _); [|discriminate]. injection E as <- <-.
    apply ran_whole_run, H.
Qed.

Lemma ran_whole_fcfs ps : Forall ran_whole (fst (fcfs ps)).
Proof.
  unfold fcfs. cbv zeta. rewrite metrics_and_return_store.
  change (Forall ran_whole (derive <$> store
            (fold_left fcfs_body
               (sorted pair_ltb (fcfs_key (reset_processes ps))
                  (seq 0 (length (reset_processes ps))))
               (mkSched (reset_processes ps) 0 [])))).
  apply Forall_fmap. eapply Forall_impl; [|intros p; apply ran_whole_derive].
  apply ran_whole_fcfs_loop, ran_whole_reset.
Qed.

Lemma ran_whole_non_preemptive key ps :
  Forall ran_whole (fst (non_preemptive key ps)).
Proof.
  unfold non_preemptive.
  destruct (np_loop key _ _ _ _ _) as [sf|] eqn:E; cbn [fst].
  - rewrite metrics_and_return_store.
    change (Forall ran_whole (derive <$> store sf)).
    apply Forall_fmap. eapply Forall_impl; [|intros p; apply ran_whole_derive].
    apply (ran_whole_np_loop _ _ _ _ _ _ _ E). apply ran_whole_reset.
  - apply ran_whole_reset.
Qed.

Lemma no_preemption_from r :
  ends_with r (λ st _, Forall record_ok st) →
  Forall ran_whole (fst r) →
  ends_with r (λ st _, Forall no_preemption st).
Proof.
  intros (st & tl & -> & Hrec) Hran. exists st, tl. split; [reflexivity|].
  cbn [fst] in Hran. rewrite Forall_forall in *. intros p Hp.
  destruct (Hrec p Hp) as (s & c & ta & w & Hs & Hc & _ & Hw & _ & _ & -> & -> & _).
  pose proof (Hran p Hp s c Hs Hc) as ->.
  exists s. rewrite Hs, Hc, Hw. repeat split. f_equal. lia.
Qed.

(** X2: On well-formed input FCFS, SJF and Priority run every process of
    the caller's list in one piece:
    [completion_time = start_time + burst_time], so that the waiting
    time is the time from arrival to start. *)
Theorem non_preemptive_runs_whole (ps : list Process) :
  well_formed ps →
  ends_with (fcfs ps) (λ st _, every_record ps st no_preemption)
  ∧ ends_with (sjf_non_preemptive ps)
              (λ st _, every_record ps st no_preemption)
  ∧ ends_with (priority_non_preemptive ps)
              (λ st _, every_record ps st no_preemption).
Proof.
  intros Hwf.
  split; [apply (ends_with_tied _ ps (λ _, no_preemption));
          [apply static_fcfs|];
          apply no_preemption_from;
          [apply run_postcondition, fcfs_correct, Hwf | apply ran_whole_fcfs]|].
  split; apply (ends_with_tied _ ps (λ _, no_preemption));
    try apply static_non_preemptive;
    apply no_preemption_from;
    try (apply run_postcondition, non_preemptive_correct, Hwf);
    apply ran_whole_non_preemptive.
Qed.

Lemma non_preemptive_runs_whole_witness :
  well_formed ex_procs
  ∧ ends_with (fcfs ex_procs) (λ st _, every_record ex_procs st no_preemption)
  ∧ ends_with (sjf_non_preemptive ex_procs)
              (λ st _, every_record ex_procs st no_preemption)
  ∧ ends_with (priority_non_preemptive ex_procs)
              (λ st _, every_record ex_procs st no_preemption).
Proof.
  split; [solve_well_formed|].
  apply non_preemptive_runs_whole; solve_well_formed.
Defined.

(** ** Calling [compute_metrics] again *)

(** X9: [compute_metrics] is idempotent: a second call on the records the
    first call left returns the same averages and changes no record. *)
Theorem compute_metrics_idempotent (ps : list Process) :
  compute_metrics (fst (compute_metrics ps)) = compute_metrics ps.
Proof.
  rewrite compute_metrics_store. unfold compute_metrics.
  rewrite !metrics_loop_spec, length_map.
  rewrite finished_waiting_derive, finished_turnaround_derive.
  rewrite map_map. f_equal. apply map_ext. intros p. apply derive_idem.
Qed.

(** X10: The call of [compute_metrics] that [main] makes after an algorithm
    finds the records as the algorithm left them: it changes nothing. *)
Theorem metrics_after_run_change_nothing (ps : list Process) (quantum : Z) :
  well_formed ps → 0 < quantum →
  fst (compute_metrics (fst (fcfs ps))) = fst (fcfs ps)
  ∧ fst (compute_metrics (fst (sjf_non_preemptive ps)))
    = fst (sjf_non_preemptive ps)
  ∧ fst (compute_metrics (fst (priority_non_preemptive ps)))
    = fst (priority_non_preemptive ps)
  ∧ fst (compute_metrics (fst (round_robin ps quantum)))
    = fst (round_robin ps quantum).
Proof.
  intros Hwf Hq.
  assert (H : ∀ r, (∃ s t0, final_ok t0 s ∧ Forall rec_wf (store s)
                            ∧ r = hands_back (map derive (store s)) (schedule s))
                   → fst (compute_metrics (fst r)) = fst r).
  { intros r (s & t0 & _ & _ & ->). rewrite hands_back_store.
    rewrite compute_metrics_store, map_map.
    apply map_ext. intros p. apply derive_idem. }
  split; [apply H, fcfs_correct, Hwf|].
  split; [apply H, non_preemptive_correct, Hwf|].
  split; [apply H, non_preemptive_correct, Hwf|].
  apply H, round_robin_correct; assumption.
Qed.

Lemma metrics_after_run_change_nothing_witness :
  well_formed ex_procs ∧ 0 < 2
  ∧ fst (compute_metrics (fst (fcfs ex_procs))) = fst (fcfs ex_procs)
  ∧ fst (compute_metrics (fst (sjf_non_preemptive ex_procs)))
    = fst (sjf_non_preemptive ex_procs)
  ∧ fst (compute_metrics (fst (priority_non_preemptive ex_procs)))
    = fst (priority_non_preemptive ex_procs)
  ∧ fst (compute_metrics (fst (round_robin ex_procs 2)))
    = fst (round_robin ex_procs 2).
Proof.
  split; [solve_well_formed|]. split; [lia|].
  apply metrics_after_run_change_nothing; [solve_well_formed | lia].
Defined.

(** ** [sorted] sorts *)

Section SortedProofs.
Context {A K : Type} (ltb : K → K → bool) (key : A → K).
Hypothesis ltb_irrefl : ∀ a, ltb a a = false.
Hypothesis ltb_trans :
  ∀ a b c, ltb a b = true → ltb b c = true → ltb a c = true.
Hypothesis ltb_total : ∀ a b, ltb a b = true ∨ a = b ∨ ltb b a = true.

Lemma sorted_insert_sorted x l :
  sorted_by ltb key l → sorted_by ltb key (sorted_insert ltb key x l).
Proof.
  induction l as [|y ys IH]; simpl.
  - intros _. split; constructor.
  - intros [Hy Hs]. destruct (ltb (key y) (key x)) eqn:E; simpl.
    + split; [|exact (IH Hs)].
      rewrite (sorted_insert_perm ltb key x ys).
      constructor; [|exact Hy].
      apply (ltb_asym ltb ltb_irrefl ltb_trans), E.
    + split; [|split; assumption].
      constructor; [exact E|].
      eapply Forall_impl; [exact Hy|]. intros z Hz. simpl in Hz.
      exact (ltb_negtrans ltb ltb_irrefl ltb_trans ltb_total _ _ _ Hz E).
Qed.

Lemma sorted_is_sorted l : sorted_by ltb key (sorted ltb key l).
Proof.
  induction l as [|x l IH]; simpl; [exact I|].
  apply sorted_insert_sorted, IH.
Qed.
End SortedProofs.

Lemma sorted_by_before {A K} (ltb : K → K → bool) (key : A → K) l a b :
  sorted_by ltb key l → before a b l → ltb (key b) (key a) = false.
Proof.
  intros Hs (l1 & l2 & l3 & ->).
  induction l1 as [|x l1 IH]; simpl in Hs.
  - destruct Hs as [Hf _].
    rewrite Forall_forall in Hf. apply Hf.
    apply elem_of_app. right. left.
  - destruct Hs as [_ Hs]. apply IH, Hs.
Qed.

Lemma before_cons_inv {A} (a b x : A) l :
  before a b (x :: l) → (a = x ∧ b ∈ l) ∨ before a b l.
Proof.
  intros ([|y l1] & l2 & l3 & E); simpl in E; injection E as -> ->.
  - left. split; [reflexivity|]. apply elem_of_app. right. left.
  - right. exists l1, l2, l3. reflexivity.
Qed.

Lemma before_or {A} (a b : A) l :
  a ∈ l → b ∈ l → a ≠ b → before a b l ∨ before b a l.
Proof.
  induction l as [|x l IH]; intros Ha Hb Hne; [inversion Ha|].
  apply elem_of_cons in Ha as [->|Ha]; apply elem_of_cons in Hb as [->|Hb].
  - congruence.
  - left. apply list_elem_of_split in Hb as (l2 & l3 & ->).
    exists [], l2, l3. reflexivity.
  - right. apply list_elem_of_split in Ha as (l2 & l3 & ->).
    exists [], l2, l3. reflexivity.
  - destruct (IH Ha Hb Hne) as [(l1 & l2 & l3 & ->)|(l1 & l2 & l3 & ->)];
      [left | right]; exists (x :: l1), l2, l3; reflexivity.
Qed.

Lemma pair_ltb_iff k1 k2 :
  pair_ltb k1 k2 = true ↔
  k1.1 < k2.1 ∨ (k1.1 = k2.1 ∧ String.ltb k1.2 k2.2 = true).
Proof.
  unfold pair_ltb. rewrite orb_true_iff, andb_true_iff, Z.ltb_lt, Z.eqb_eq.
  reflexivity.
Qed.

Lemma pair_ltb_irrefl k : pair_ltb k k = false.
Proof.
  unfold pair_ltb. rewrite Z.ltb_irrefl, Z.eqb_refl, string_ltb_irrefl.
  reflexivity.
Qed.

Lemma pair_ltb_trans k1 k2 k3 :
  pair_ltb k1 k2 = true → pair_ltb k2 k3 = true → pair_ltb k1 k3 = true.
Proof.
  rewrite !pair_ltb_iff. intros [H1|[E1 H1]] [H2|[E2 H2]];
    try (left; lia).
  right. split; [lia|]. eapply string_ltb_trans; eauto.
Qed.

Lemma pair_ltb_total k1 k2 :
  pair_ltb k1 k2 = true ∨ k1 = k2 ∨ pair_ltb k2 k1 = true.
Proof.
  rewrite !pair_ltb_iff. destruct k1 as [a1 c1], k2 as [a2 c2]. simpl.
  destruct (Z.lt_total a1 a2) as [?|[->|?]]; [auto| |auto].
  destruct (string_ltb_total c1 c2) as [?|[->|?]]; auto 6.
Qed.

(** ** FCFS serves in the order of [(arrival_time, pid)] *)

Lemma fcfs_body_step s x p :
  store s !! x = Some p → 0 < burst_time p →
  ∃ sx p',
    store (fcfs_body s x) = <[x := p']> (store s)
    ∧ start_time p' = Some sx
    ∧ completion_time p' = Some (sx + burst_time p')
    ∧ burst_time p' = burst_time p
    ∧ time s ≤ sx
    ∧ time (fcfs_body s x) = sx + burst_time p.
Proof.
  intros Hp Hb. unfold fcfs_body. rewrite Hp.
  destruct (Z.ltb_spec (time s) (arrival_time p)).
  - exists (arrival_time p). eexists. simpl.
    split; [reflexivity|]. simpl. repeat split; lia.
  - exists (time s). eexists. simpl.
    split; [reflexivity|]. simpl. repeat split; lia.
Qed.

Lemma fcfs_loop_order todo s :
  Forall rec_wf (store s) → NoDup todo →
  (∀ k, k ∈ todo → is_Some (store s !! k)) →
  time s ≤ time (fold_left fcfs_body todo s)
  ∧ (∀ k, k ∉ todo →
          store (fold_left fcfs_body todo s) !! k = store s !! k)
  ∧ (∀ k, k ∈ todo →
          ∃ p sk, store (fold_left fcfs_body todo s) !! k = Some p
                  ∧ start_time p = Some sk
                  ∧ completion_time p = Some (sk + burst_time p)
                  ∧ time s ≤ sk
                  ∧ sk + burst_time p ≤ time (fold_left fcfs_body todo s))
  ∧ (∀ a b, before a b todo →
            ∃ pa pb sa sb,
              store (fold_left fcfs_body todo s) !! a = Some pa
              ∧ store (fold_left fcfs_body todo s) !! b = Some pb
              ∧ start_time pa = Some sa ∧ start_time pb = Some sb
              ∧ sa + burst_time pa ≤ sb).
Proof.
  revert s. induction todo as [|x todo IH]; intros s Hwf Hnd Hval.
  - simpl. split; [lia|]. split; [auto|].
    split; [intros k Hk; inversion Hk|].
    intros a b ([|? ?] & ? & ? & E); discriminate.
  - apply NoDup_cons in Hnd as [Hx Hnd].
    destruct (Hval x) as [p Hp]; [left|].
    pose proof (proj1 (Forall_forall _ _) Hwf p
                  (list_elem_of_lookup_2 _ _ _ Hp)) as [Hb Harr].
    destruct (fcfs_body_step s x p Hp Hb)
      as (sx & p' & Hst & Hs' & Hc' & Hb' & Hsx & Ht).
    pose proof (lookup_lt_Some _ _ _ Hp) as Hlen.
    assert (Hwf1 : Forall rec_wf (store (fcfs_body s x))).
    { eapply rec_wf_by_static; [|exact Hwf]. symmetry.
      apply static_fcfs_body. }
    assert (Hval1 : ∀ k, k ∈ todo → is_Some (store (fcfs_body s x) !! k)).
    { intros k Hk. rewrite Hst. apply lookup_lt_is_Some.
      rewrite length_insert. apply lookup_lt_is_Some, Hval. right. exact Hk. }
    destruct (IH (fcfs_body s x) Hwf1 Hnd Hval1) as (H1 & H2 & H3 & H4).
    simpl.
    assert (Hx' : store (fold_left fcfs_body todo (fcfs_body s x)) !! x
                  = Some p').
    { rewrite (H2 x Hx), Hst. apply list_lookup_insert_eq, Hlen. }
    split; [lia|]. split; [|split].
    + intros k Hk. apply not_elem_of_cons in Hk as [Hne Hk].
      rewrite (H2 k Hk), Hst. apply list_lookup_insert_ne. congruence.
    + intros k [->|Hk]%elem_of_cons.
      * exists p', sx. rewrite Hb'. repeat split; auto; try lia.
        congruence.
      * destruct (H3 k Hk) as (pk & sk & ? & ? & ? & ? & ?).
        exists pk, sk. repeat split; auto; lia.
    + intros a b [[-> Hbin]|Hab]%before_cons_inv; [|apply H4, Hab].
      destruct (H3 b Hbin) as (pb & sb & Hpb & Hsb & _ & Hle & _).
      exists p', pb, sx, sb. rewrite Hb'. repeat split; auto. lia.
Qed.

(** X3: Of two processes, the one with the smaller [(arrival_time, pid)]
    is served first by FCFS: it has completed when the other starts.
    In particular, of two that arrive together the one with the
    smaller pid goes first. *)
Theorem fcfs_serves_in_arrival_order
        (ps : list Process) (i j : nat) (p0 q0 : Process) :
  well_formed ps →
  ps !! i = Some p0 → ps !! j = Some q0 →
  pair_ltb (arrival_time p0, pid p0) (arrival_time q0, pid q0) = true →
  ∃ p q sp sq,
    fst (fcfs ps) !! i = Some p ∧ fst (fcfs ps) !! j = Some q
    ∧ start_time p = Some sp ∧ start_time q = Some sq
    ∧ completion_time p = Some (sp + burst_time p0)
    ∧ sp + burst_time p0 ≤ sq.
Proof.
  intros [Hwf _] Hi Hj Hlt. unfold fcfs. cbv zeta.
  rewrite metrics_and_return_store.
  set (st := reset_processes ps).
  set (procs := sorted pair_ltb (fcfs_key st) (seq 0 (length st))).
  assert (Hperm : procs ≡ₚ seq 0 (length st)) by apply sorted_perm.
  assert (Hlen : length st = length ps)
    by (unfold st, reset_processes; apply length_map).
  assert (Hsti : st !! i = Some (reset_one p0)).
  { unfold st, reset_processes.
    change ((reset_one <$> ps) !! i = Some (reset_one p0)).
    rewrite list_lookup_fmap, Hi. reflexivity. }
  assert (Hstj : st !! j = Some (reset_one q0)).
  { unfold st, reset_processes.
    change ((reset_one <$> ps) !! j = Some (reset_one q0)).
    rewrite list_lookup_fmap, Hj. reflexivity. }
  assert (Hin : ∀ k, (k < length st)%nat → k ∈ procs).
  { intros k Hk. rewrite Hperm. apply elem_of_seq. lia. }
  assert (Hne : i ≠ j).
  { intros ->. rewrite Hi in Hj. injection Hj as <-.
    rewrite pair_ltb_irrefl in Hlt. discriminate. }
  assert (Hbefore : before i j procs).
  { destruct (before_or i j procs) as [H|H];
      [apply Hin; eapply lookup_lt_Some; eauto
      |apply Hin; eapply lookup_lt_Some; eauto | exact Hne | exact H |].
    pose proof (sorted_by_before pair_ltb (fcfs_key st) procs j i
                  (sorted_is_sorted pair_ltb (fcfs_key st) pair_ltb_irrefl
                     pair_ltb_trans pair_ltb_total _) H) as Hc.
    unfold fcfs_key in Hc. rewrite Hsti, Hstj in Hc. simpl in Hc.
    congruence. }
  destruct (fcfs_loop_order procs (mkSched st 0 [])) as (_ & _ & H3 & H4).
  { apply reset_wf, Hwf. }
  { rewrite Hperm. apply NoDup_seq. }
  { intros k Hk. rewrite Hperm in Hk. apply elem_of_seq in Hk.
    apply lookup_lt_is_Some. simpl. lia. }
  destruct (H4 i j Hbefore) as (pa & pb & sa & sb & Hpa & Hpb & Hsa & Hsb & Hle).
  destruct (H3 i) as (pa' & sa' & Hpa' & Hsa' & Hca' & _);
    [apply Hin; eapply lookup_lt_Some; eauto|].
  rewrite Hpa in Hpa'. injection Hpa' as <-.
  rewrite Hsa in Hsa'. injection Hsa' as <-.
  assert (Hbur : burst_time pa = burst_time p0).
  { pose proof (static_fcfs_loop procs (mkSched st 0 [])) as Hs.
    apply (f_equal (λ l, l !! i)) in Hs. simpl in Hs.
    change ((static_fields <$> store (fold_left fcfs_body procs
                                        (mkSched st 0 []))) !! i
            = (static_fields <$> st) !! i) in Hs.
    rewrite !list_lookup_fmap, Hpa, Hsti in Hs. simpl in Hs.
    injection Hs as _ _ Hs _. exact Hs. }
  rewrite Hbur in *.
  exists (derive pa), (derive pb), sa, sb.
  change (map derive ?l) with (derive <$> l).
  rewrite !list_lookup_fmap, Hpa, Hpb, !derive_start, derive_completion.
  repeat split; auto.
Qed.

Lemma fcfs_serves_in_arrival_order_witness :
  well_formed ex_procs
  ∧ ex_procs !! 1%nat = Some ex_P2 ∧ ex_procs !! 2%nat = Some ex_P3
  ∧ pair_ltb (arrival_time ex_P2, pid ex_P2) (arrival_time ex_P3, pid ex_P3)
    = true
  ∧ ∃ p q sp sq,
      fst (fcfs ex_procs) !! 1%nat = Some p
      ∧ fst (fcfs ex_procs) !! 2%nat = Some q
      ∧ start_time p = Some sp ∧ start_time q = Some sq
      ∧ completion_time p = Some (sp + burst_time ex_P2)
      ∧ sp + burst_time ex_P2 ≤ sq.
Proof.
  split; [solve_well_formed|]. split; [reflexivity|]. split; [reflexivity|].
  split; [reflexivity|].
  apply (fcfs_serves_in_arrival_order ex_procs 1 2 ex_P2 ex_P3);
    [solve_well_formed | reflexivity | reflexivity | reflexivity].
Defined.

(** ** Where the chart begins *)

Lemma begins_at r t0 s ps :
  final_ok t0 s →
  r = hands_back (map derive (store s)) (schedule s) →
  map static_fields (fst r) = map static_fields ps →
  ps ≠ [] →
  ends_with r (λ _ tl, ∃ b, head tl = Some b ∧ block_start b = t0).
Proof.
  intros (Hch & _ & Hnil & _) -> Hst Hne.
  eexists _, _. split; [reflexivity|].
  destruct (schedule s) as [|b tl] eqn:Es.
  - exfalso. cbn [fst] in Hst. rewrite (Hnil eq_refl) in Hst.
    destruct ps; [contradiction | discriminate].
  - exists b. split; [reflexivity|]. simpl in Hch. apply Hch.
Qed.

Lemma fcfs_loop_chain t0 todo s :
  Forall rec_wf (store s) →
  chain t0 (schedule s) (time s) →
  chain t0 (schedule (fold_left fcfs_body todo s))
        (time (fold_left fcfs_body todo s)).
Proof.
  revert s. induction todo as [|x todo IH]; intros s Hwf Hch; [exact Hch|].
  simpl. apply IH.
  - eapply rec_wf_by_static; [|exact Hwf]. symmetry. apply static_fcfs_body.
  - unfold fcfs_body. destruct (store s !! x) as [p|] eqn:Hp; [|exact Hch].
    pose proof (proj1 (Forall_forall _ _) Hwf p
                  (list_elem_of_lookup_2 _ _ _ Hp)) as [Hb _].
    destruct (Z.ltb_spec (time s) (arrival_time p)); simpl.
    + apply chain_snoc; [apply chain_snoc; assumption | lia].
    + apply chain_snoc; [assumption | lia].
Qed.

Lemma fcfs_begins_at_zero ps :
  well_formed ps → ps ≠ [] →
  ends_with (fcfs ps) (λ _ tl, ∃ b, head tl = Some b ∧ block_start b = 0).
Proof.
  intros Hwf Hne.
  destruct (fcfs_correct_from_zero ps Hwf) as (s & Hfin & _ & E).
  exact (begins_at (fcfs ps) 0 s ps Hfin E (static_fcfs ps) Hne).
Qed.

Lemma in_arrivals_all (ps : list Process) x :
  x ∈ arrivals (reset_processes ps) (seq 0 (length (reset_processes ps)))
  ↔ ∃ p, p ∈ ps ∧ arrival_time p = x.
Proof.
  rewrite in_arrivals. unfold reset_processes. split.
  - intros (i & p & _ & Hp & <-).
    change ((reset_one <$> ps) !! i = Some p) in Hp.
    rewrite list_lookup_fmap in Hp.
    destruct (ps !! i) as [p0|] eqn:E; [|discriminate].
    injection Hp as <-. exists p0. split; [|reflexivity].
    eapply list_elem_of_lookup_2, E.
  - intros (p & Hp & <-). apply list_elem_of_lookup in Hp as [i Hi].
    exists i, (reset_one p). split.
    + apply elem_of_seq. rewrite length_map.
      apply lookup_lt_Some in Hi. lia.
    + split; [|reflexivity].
      change ((reset_one <$> ps) !! i = Some (reset_one p)).
      rewrite list_lookup_fmap, Hi. reflexivity.
Qed.

Lemma np_init_least_arrival ps :
  ps ≠ [] → least_arrival ps (time (np_init ps)).
Proof.
  intros Hne. unfold np_init. simpl.
  destruct (min_int _) as [m|] eqn:Em.
  - apply min_int_spec in Em as [Hin Hmin]. simpl. split.
    + apply in_arrivals_all, Hin.
    + intros y Hy. apply Hmin, in_arrivals_all, Hy.
  - exfalso. destruct ps as [|p ps]; [contradiction|].
    assert (H : arrival_time p
                ∈ arrivals (reset_processes (p :: ps))
                    (seq 0 (length (reset_processes (p :: ps)))))
      by (apply in_arrivals_all; exists p; split; [left | reflexivity]).
    unfold min_int, py_min in Em.
    destruct (arrivals _ _); [inversion H | discriminate].
Qed.

Lemma non_preemptive_begins key ps :
  well_formed ps → ps ≠ [] →
  ends_with (non_preemptive key ps)
    (λ _ tl, ∃ b, head tl = Some b ∧ least_arrival ps (block_start b)).
Proof.
  intros Hwf Hne.
  assert (Hl : length (store (np_init ps)) = length ps)
    by (unfold np_init, reset_processes; simpl; apply length_map).
  destruct (np_loop_total key (length ps) (time (np_init ps))
              (np_fuel (length ps)) (np_init ps) 0
              (np_inv_init ps (proj1 Hwf)))
    as (sf & Hloop & Hfin & _).
  { unfold np_measure, np_fuel.
    destruct (ready_list (seq 0 (length ps)) (np_init ps)); lia. }
  assert (E : non_preemptive key ps
              = hands_back (map derive (store sf)) (schedule sf)).
  { unfold non_preemptive. rewrite Hl, length_seq, Hloop.
    apply metrics_and_return_spec. }
  destruct (begins_at _ _ sf ps Hfin E (static_non_preemptive key ps) Hne)
    as (st & tl & E' & b & Hb & Ht0).
  exists st, tl. split; [exact E'|]. exists b. split; [exact Hb|].
  rewrite Ht0. apply np_init_least_arrival, Hne.
Qed.

Lemma rr_init_least_arrival ps :
  ps ≠ [] → least_arrival ps (time (rr_sched (snd (rr_init ps)))).
Proof.
  intros Hne. unfold rr_init. cbv zeta. cbn [snd rr_sched time].
  set (st := reset_processes ps).
  set (procs := sorted Z.ltb (rr_key st) (seq 0 (length st))).
  assert (Hperm : procs ≡ₚ seq 0 (length st)) by apply sorted_perm.
  assert (Hsorted : sorted_by Z.ltb (rr_key st) procs).
  { apply sorted_is_sorted.
    - apply Z.ltb_irrefl.
    - intros a b c. rewrite !Z.ltb_lt. lia.
    - intros a b. rewrite !Z.ltb_lt. lia. }
  assert (Hkey : ∀ k p, ps !! k = Some p → rr_key st k = arrival_time p).
  { intros k p Hk. unfold rr_key, st, reset_processes.
    change ((reset_one <$> ps) !! k) with ((reset_one <$> ps) !! k).
    replace (map reset_one ps !! k) with (reset_one <$> (ps !! k))
      by (symmetry; apply (list_lookup_fmap reset_one ps k)).
    rewrite Hk. reflexivity. }
  assert (Hlen : length st = length ps)
    by (unfold st, reset_processes; apply length_map).
  destruct procs as [|j0 rest] eqn:Ep.
  - exfalso. apply Permutation_nil_l in Hperm.
    destruct ps; [contradiction|]. rewrite Hlen in Hperm. discriminate.
  - simpl. destruct Hsorted as [Hmin _].
    assert (Hj0 : j0 ∈ seq 0 (length st)) by (rewrite <- Hperm; left).
    apply elem_of_seq in Hj0.
    destruct (lookup_lt_is_Some_2 ps j0) as [p0 Hp0]; [lia|].
    split.
    + exists p0. split; [eapply list_elem_of_lookup_2, Hp0|].
      symmetry. apply Hkey, Hp0.
    + intros y (p & Hp & <-). apply list_elem_of_lookup in Hp as [k Hk].
      rewrite <- (Hkey k p Hk).
      assert (Hkin : k ∈ j0 :: rest).
      { rewrite Hperm. apply elem_of_seq.
        apply lookup_lt_Some in Hk. lia. }
      apply elem_of_cons in Hkin as [->|Hkin]; [lia|].
      rewrite Forall_forall in Hmin. specialize (Hmin k Hkin).
      apply Z.ltb_ge in Hmin. exact Hmin.
Qed.

Lemma round_robin_run ps q :
  well_formed ps → 0 < q →
  ∃ sf,
    rr_loop (rr_fuel (fst (rr_init ps)) (store (rr_sched (snd (rr_init ps)))))
            (fst (rr_init ps)) q (snd (rr_init ps))
    = (sf, Returns tt)
    ∧ NoDup (fst (rr_init ps))
    ∧ rr_inv (fst (rr_init ps)) (time (rr_sched (snd (rr_init ps)))) []
             (snd (rr_init ps))
    ∧ final_ok (time (rr_sched (snd (rr_init ps)))) (rr_sched sf)
    ∧ round_robin ps q
      = hands_back (map derive (store (rr_sched sf))) (schedule (rr_sched sf)).
Proof.
  intros [Hwf _] Hq. unfold round_robin.
  destruct (Z.leb_spec q 0) as [?|_]; [lia|].
  pose proof (rr_inv_init ps Hwf) as Hinv.
  destruct (rr_init ps) as [procs s0] eqn:Einit. cbn [fst snd] in *.
  assert (Hs0 : store (rr_sched s0) = reset_processes ps
                ∧ procs ≡ₚ seq 0 (length (reset_processes ps))
                ∧ rr_i s0 = 0%nat ∧ ready_queue s0 = []
                ∧ match procs !! 0%nat with
                  | Some j => time (rr_sched s0) = rr_key (reset_processes ps) j
                  | None => True
                  end).
  { unfold rr_init in Einit. injection Einit as <- <-. simpl.
    split; [reflexivity|]. split; [apply sorted_perm|].
    split; [reflexivity|]. split; [reflexivity|].
    destruct (_ !! 0%nat); auto. }
  destruct Hs0 as (Hst & Hperm & Hi0 & Hq0 & Ht0).
  assert (Hnd : NoDup procs) by (rewrite Hperm; apply NoDup_seq).
  destruct (rr_loop_total procs (time (rr_sched s0)) Hnd q
              (rr_fuel procs (store (rr_sched s0))) s0 Hq Hinv)
    as (sf & Hloop & Hinvf & Hg).
  { unfold rr_measure, rr_fuel, rr_wait. rewrite Hi0, Hq0. simpl.
    rewrite drop_0.
    destruct (procs !! 0%nat) as [j|]; [|lia].
    rewrite Ht0, Hst, Z.leb_refl. lia. }
  rewrite Hloop. exists sf. rewrite metrics_and_return_spec.
  split; [reflexivity|]. split; [exact Hnd|]. split; [exact Hinv|].
  split; [|reflexivity].
  apply (rr_final procs); [|exact Hinvf | exact Hg].
  pose proof (static_rr_loop (rr_fuel procs (store (rr_sched s0))) procs q s0)
    as Hsf.
  rewrite Hloop in Hsf. simpl in Hsf.
  apply (f_equal length) in Hsf. rewrite !length_map in Hsf.
  rewrite Hsf, Hst. exact Hperm.
Qed.

Lemma round_robin_correct_from ps q :
  well_formed ps → 0 < q →
  ∃ s, final_ok (time (rr_sched (snd (rr_init ps)))) s
       ∧ round_robin ps q = hands_back (map derive (store s)) (schedule s).
Proof.
  intros Hwf Hq.
  destruct (round_robin_run ps q Hwf Hq) as (sf & _ & _ & _ & Hfin & E).
  eauto.
Qed.

(** X4: The chart FCFS builds begins at time 0, with an idle block when
    nothing has arrived by then; the charts of SJF, Priority and Round
    Robin begin at the earliest arrival. *)
Theorem chart_begins (ps : list Process) (quantum : Z) :
  well_formed ps → ps ≠ [] → 0 < quantum →
  ends_with (fcfs ps) (λ _ tl, ∃ b, head tl = Some b ∧ block_start b = 0)
  ∧ ends_with (sjf_non_preemptive ps)
      (λ _ tl, ∃ b, head tl = Some b ∧ least_arrival ps (block_start b))
  ∧ ends_with (priority_non_preemptive ps)
      (λ _ tl, ∃ b, head tl = Some b ∧ least_arrival ps (block_start b))
  ∧ ends_with (round_robin ps quantum)
      (λ _ tl, ∃ b, head tl = Some b ∧ least_arrival ps (block_start b)).
Proof.
  intros Hwf Hne Hq.
  split; [apply fcfs_begins_at_zero; assumption|].
  split; [apply non_preemptive_begins; assumption|].
  split; [apply non_preemptive_begins; assumption|].
  destruct (round_robin_correct_from ps quantum Hwf Hq) as (s & Hfin & E).
  destruct (begins_at _ _ s ps Hfin E (static_round_robin ps quantum) Hne)
    as (st & tl & E' & b & Hb & Ht0).
  exists st, tl. split; [exact E'|]. exists b. split; [exact Hb|].
  rewrite Ht0. apply rr_init_least_arrival, Hne.
Qed.

Lemma chart_begins_witness :
  well_formed ex_late ∧ ex_late ≠ [] ∧ 0 < 2
  ∧ ends_with (fcfs ex_late)
      (λ _ tl, ∃ b, head tl = Some b ∧ block_start b = 0)
  ∧ ends_with (sjf_non_preemptive ex_late)
      (λ _ tl, ∃ b, head tl = Some b ∧ least_arrival ex_late (block_start b))
  ∧ ends_with (priority_non_preemptive ex_late)
      (λ _ tl, ∃ b, head tl = Some b ∧ least_arrival ex_late (block_start b))
  ∧ ends_with (round_robin ex_late 2)
      (λ _ tl, ∃ b, head tl = Some b ∧ least_arrival ex_late (block_start b)).
Proof.
  split; [solve_well_formed|]. split; [discriminate|]. split; [lia|].
  apply chart_begins; [solve_well_formed | discriminate | lia].
Defined.

(** ** Idle jumps of SJF and Priority *)

(** X5: At a decision point of SJF or Priority where nothing is ready, the
    loop emits one idle block from the clock to the earliest arrival of
    an unfinished process, which is later than the clock, and the next
    pass finds a ready process. *)
Theorem idle_jump_to_next_arrival
        (key : Process → Z * Z * string)
        (ps : list Process) (s : sched) (c : nat) :
  well_formed ps →
  np_reach key (seq 0 (length ps)) (length ps) (np_init ps) 0 s c →
  (c < length ps)%nat →
  ready_list (seq 0 (length ps)) s = [] →
  ∃ m, np_step key (seq 0 (length ps)) s c = Some (go_idle m s, c)
       ∧ time s < m
       ∧ is_min m (pending_arrival (store s))
       ∧ ready_list (seq 0 (length ps)) (go_idle m s) ≠ [].
Proof.
  intros [Hwf _] Hreach Hc Hready.
  pose proof (np_reach_inv key (length ps) (time (np_init ps)) _ _ _ _
                Hreach (np_inv_init ps Hwf))
    as (_ & _ & Hlen & Hcount & _).
  unfold np_step. rewrite Hready.
  set (U := List.filter (unfinished (store s)) (seq 0 (length ps))) in *.
  assert (Hpend : ∀ x, x ∈ arrivals (store s) U ↔ pending_arrival (store s) x).
  { intros x. rewrite in_arrivals. unfold pending_arrival. split.
    - intros (i & p & Hi & Hp & Hx). apply in_unfinished in Hi as (_ & p' & Hp' & Hpc).
      rewrite Hp in Hp'. injection Hp' as <-. eauto.
    - intros (i & p & Hp & Hpc & Hx). exists i, p.
      split; [|auto]. apply in_unfinished. split; [|eauto].
      apply elem_of_seq. apply lookup_lt_Some in Hp. lia. }
  destruct (min_int (arrivals (store s) U)) as [m|] eqn:Em.
  - apply min_int_spec in Em as [Hm Hmin].
    apply Hpend in Hm as Hm'. destruct Hm' as (i & p & Hp & Hpc & Ha).
    assert (Hiseq : i ∈ seq 0 (length ps)).
    { apply elem_of_seq. apply lookup_lt_Some in Hp. lia. }
    assert (Hlt : time s < m).
    { destruct (Z.lt_ge_cases (time s) m) as [?|Hge]; [assumption|].
      exfalso. assert (Hr : i ∈ ready_list (seq 0 (length ps)) s).
      { apply in_ready. split; [exact Hiseq|]. exists p.
        repeat split; auto. lia. }
      rewrite Hready in Hr. inversion Hr. }
    exists m. split; [reflexivity|]. split; [exact Hlt|]. split.
    + split; [apply Hpend, Hm|]. intros y Hy. apply Hmin, Hpend, Hy.
    + intros E. assert (Hr : i ∈ ready_list (seq 0 (length ps)) (go_idle m s)).
      { apply in_ready. split; [exact Hiseq|]. exists p. simpl.
        repeat split; auto. lia. }
      rewrite E in Hr. inversion Hr.
  - exfalso. destruct U as [|i U'] eqn:EU; [simpl in Hcount; lia|].
    assert (Hi : i ∈ List.filter (unfinished (store s)) (seq 0 (length ps)))
      by (fold U; rewrite EU; left).
    apply in_unfinished in Hi as (Hi & p & Hp & Hpc).
    assert (Ha : arrival_time p ∈ arrivals (store s) (i :: U')).
    { apply in_arrivals. exists i, p. split; [left | auto]. }
    unfold min_int, py_min in Em.
    destruct (arrivals (store s) (i :: U')); [inversion Ha | discriminate].
Qed.

Lemma idle_jump_to_next_arrival_witness :
  well_formed ex_gap
  ∧ np_reach sjf_key (seq 0 (length ex_gap)) (length ex_gap)
             (np_init ex_gap) 0 ex_gap_after_P1 1
  ∧ (1 < length ex_gap)%nat
  ∧ ready_list (seq 0 (length ex_gap)) ex_gap_after_P1 = []
  ∧ ∃ m, np_step sjf_key (seq 0 (length ex_gap)) ex_gap_after_P1 1
         = Some (go_idle m ex_gap_after_P1, 1%nat)
         ∧ time ex_gap_after_P1 < m
         ∧ is_min m (pending_arrival (store ex_gap_after_P1))
         ∧ ready_list (seq 0 (length ex_gap)) (go_idle m ex_gap_after_P1)
           ≠ [].
Proof.
  assert (Hwf : well_formed ex_gap) by solve_well_formed.
  assert (Hreach : np_reach sjf_key (seq 0 (length ex_gap)) (length ex_gap)
                     (np_init ex_gap) 0 ex_gap_after_P1 1).
  { eapply np_reach_step; [simpl; lia | vm_compute; reflexivity|].
    apply np_reach_refl. }
  assert (Hc : (1 < length ex_gap)%nat) by (simpl; lia).
  assert (Hr : ready_list (seq 0 (length ex_gap)) ex_gap_after_P1 = [])
    by (vm_compute; reflexivity).
  split; [exact Hwf|]. split; [exact Hreach|]. split; [exact Hc|].
  split; [exact Hr|].
  exact (idle_jump_to_next_arrival sjf_key ex_gap ex_gap_after_P1 1
           Hwf Hreach Hc Hr).
Defined.

(** ** Round Robin: slices and service *)

Lemma work_done_app tl1 tl2 l :
  work_done (tl1 ++ tl2) l = work_done tl1 l + work_done tl2 l.
Proof.
  induction tl1 as [|b tl1 IH]; simpl; [reflexivity|]. rewrite IH. lia.
Qed.

Lemma admit_while_clock fuel procs s :
  time (rr_sched (admit_while fuel procs s)) = time (rr_sched s)
  ∧ schedule (rr_sched (admit_while fuel procs s)) = schedule (rr_sched s).
Proof.
  revert s. induction fuel as [|fuel IH]; intros s; simpl; [auto|].
  destruct (procs !! rr_i s) as [j|]; [|auto].
  destruct (store (rr_sched s) !! j) as [p|]; [|auto].
  destruct (arrival_time p <=? time (rr_sched s)); [|auto].
  destruct (IH (admit_one j p s)) as [H1 H2]. rewrite H1, H2. auto.
Qed.

Lemma rr_body_slices procs q s :
  Forall (slice_ok q) (schedule (rr_sched s)) →
  Forall (slice_ok q)
         (schedule (rr_sched (rr_next_state (rr_body procs q s)))).
Proof.
  intros H. unfold rr_body, admit_arrived.
  destruct (admit_while_clock (length procs - rr_i s) procs s) as [Ht1 Hs1].
  set (s1 := admit_while _ procs s) in *.
  rewrite <- Hs1 in H.
  destruct (ready_queue s1) as [|cur rest].
  - destruct (procs !! rr_i s1); simpl; [|exact H].
    destruct (_ <? _); simpl; [|exact H].
    apply Forall_app. split; [exact H|].
    constructor; [left; reflexivity | constructor].
  - destruct (store (rr_sched s1) !! cur) as [p|]; simpl; [|exact H].
    destruct (remaining_time (first_dispatch _ p)) as [rem|]; simpl;
      [|exact H].
    match goal with |- context [admit_while ?f procs ?x] =>
      destruct (admit_while_clock f procs x) as [Ht2 Hs2];
      set (s2 := admit_while f procs x) in * end.
    simpl in Hs2.
    assert (H2 : Forall (slice_ok q) (schedule (rr_sched s2))).
    { rewrite Hs2. apply Forall_app. split; [exact H|].
      constructor; [|constructor]. right.
      unfold block_end, block_start. simpl. lia. }
    destruct (store (rr_sched s2) !! cur) as [p3|]; simpl; [|exact H2].
    destruct (remaining_time p3); simpl; [|exact H2].
    destruct (0 <? _); simpl; exact H2.
Qed.

Lemma rr_loop_slices fuel procs q s :
  Forall (slice_ok q) (schedule (rr_sched s)) →
  Forall (slice_ok q) (schedule (rr_sched (fst (rr_loop fuel procs q s)))).
Proof.
  revert s. induction fuel as [|fuel IH]; intros s H; simpl; [exact H|].
  destruct (rr_guard procs s); [|exact H].
  pose proof (rr_body_slices procs q s H) as Hb.
  destruct (rr_body procs q s) as [s'|s'|e s']; simpl in *;
    [apply IH|..]; exact Hb.
Qed.

(** X6: Whatever the records, no block of a Round Robin chart other than an
    idle block is longer than the quantum. *)
Theorem round_robin_slices_within_quantum
        (ps : list Process) (quantum : Z) (tl : Timeline) :
  snd (round_robin ps quantum) = Returns tl →
  Forall (slice_ok quantum) tl.
Proof.
  unfold round_robin. destruct (quantum <=? 0); [discriminate|].
  unfold rr_init. cbv zeta.
  match goal with |- context [rr_loop ?f ?p quantum ?s] =>
    pose proof (rr_loop_slices f p quantum s (Forall_nil_2 _)) as H;
    destruct (rr_loop f p quantum s) as [s' [[]|e|]] end;
    cbn [fst snd] in *; try discriminate.
  rewrite metrics_and_return_spec. unfold hands_back. cbn [snd].
  destruct (averages_fit _); [|discriminate].
  intros [= <-]. exact H.
Qed.

Lemma round_robin_slices_within_quantum_witness :
  snd (round_robin ex_procs 2)
  = Returns [(0, 2, "P1"); (2, 4, "P2"); (4, 5, "P3");
             (5, 7, "P1"); (7, 8, "P2")]
  ∧ Forall (slice_ok 2) [(0, 2, "P1"); (2, 4, "P2"); (4, 5, "P3");
                         (5, 7, "P1"); (7, 8, "P2")].
Proof.
  split; [vm_compute; reflexivity|].
  apply (round_robin_slices_within_quantum ex_procs 2).
  vm_compute; reflexivity.
Defined.

Lemma pid_differs (st : list Process) i j p p' :
  NoDup (map pid st) → st !! i = Some p → st !! j = Some p' → i ≠ j →
  pid p ≠ pid p'.
Proof.
  intros Hnd Hi Hj Hne Heq. apply Hne.
  change (NoDup (pid <$> st)) in Hnd.
  eapply NoDup_lookup; [exact Hnd| |].
  - rewrite list_lookup_fmap, Hi. reflexivity.
  - rewrite list_lookup_fmap, Hj. simpl. congruence.
Qed.

Lemma served_other tl t t' l p :
  pid p ≠ idle_label → l ≠ pid p → served tl p → served (tl ++ [(t, t', l)]) p.
Proof.
  intros _ Hl (r & Hr & Hc & Hw). exists r. split; [exact Hr|].
  split; [exact Hc|]. intros Hp. rewrite work_done_app, (Hw Hp). simpl.
  unfold block_label. simpl.
  destruct (String.eqb_spec l (pid p)); [contradiction | lia].
Qed.

Lemma served_snoc tl t t' l p :
  l ≠ pid p ∨ pid p = idle_label → served tl p → served (tl ++ [(t, t', l)]) p.
Proof.
  intros Hl (r & Hr & Hc & Hw). exists r. split; [exact Hr|].
  split; [exact Hc|]. intros Hp. rewrite work_done_app, (Hw Hp). simpl.
  unfold block_label. simpl.
  destruct (String.eqb_spec l (pid p)); [|lia].
  destruct Hl; contradiction.
Qed.

Lemma extra_idle q sc t : rr_extra_inv q sc → rr_extra_inv q (go_idle t sc).
Proof.
  intros [Hs Hb]. unfold rr_extra_inv, go_idle. simpl. split.
  - eapply Forall_impl; [exact Hs|]. intros p Hp.
    destruct (decide (pid p = idle_label)) as [E|E].
    + apply served_snoc; auto.
    + apply served_snoc; auto.
  - apply Forall_app. split; [exact Hb|].
    constructor; [left; reflexivity | constructor].
Qed.

(** A slice of [Z.min q r] for the record at [cur], which is then put
    back in the queue or marked complete. *)
Lemma extra_slice q sc cur p r pnew :
  rr_extra_inv q sc →
  NoDup (map pid (store sc)) →
  store sc !! cur = Some p →
  completion_time p = None →
  remaining_time p = Some r →
  0 < q → 0 < r →
  pid pnew = pid p → burst_time pnew = burst_time p →
  remaining_time pnew = Some (r - Z.min q r) →
  (completion_time pnew = None ∧ 0 < r - Z.min q r
   ∨ completion_time pnew = Some (time sc + Z.min q r)
     ∧ r - Z.min q r ≤ 0) →
  rr_extra_inv q
    (mkSched (<[cur := pnew]> (store sc)) (time sc + Z.min q r)
             (schedule sc ++ [(time sc, time sc + Z.min q r, pid p)])).
Proof.
  intros [Hs Hb] Hnd Hp Hpc Hr Hq Hr0 Hpid Hbur Hrem Hcase.
  pose proof (lookup_lt_Some _ _ _ Hp) as Hlen.
  unfold rr_extra_inv. simpl. split.
  - apply Forall_lookup. intros j pj Hj.
    destruct (decide (cur = j)) as [<-|Hne].
    + rewrite list_lookup_insert_eq in Hj by exact Hlen. injection Hj as <-.
      pose proof (proj1 (Forall_lookup _ _) Hs cur p Hp)
        as (r' & Hr' & _ & Hw).
      rewrite Hr in Hr'. injection Hr' as <-.
      exists (r - Z.min q r). split; [exact Hrem|]. split.
      * intros Hc. destruct Hcase as [[Hn _]|[_ Hle]]; [congruence | lia].
      * intros Hne. rewrite Hpid in *. rewrite work_done_app, (Hw Hne).
        simpl. unfold block_label, block_end, block_start. simpl.
        rewrite String.eqb_refl, Hbur. lia.
    + rewrite list_lookup_insert_ne in Hj by exact Hne.
      apply served_snoc; [|exact (proj1 (Forall_lookup _ _) Hs j pj Hj)].
      left. eapply pid_differs; eauto.
  - apply Forall_app. split.
    + eapply Forall_impl; [exact Hb|]. intros b [H|[H|(pw & Hpw & Hl & Hc)]];
        [left; exact H | right; left; exact H|].
      right; right. exists pw. split; [|auto].
      eapply elem_of_insert_keep; eauto. congruence.
    + constructor; [|constructor].
      destruct Hcase as [[_ Hpos]|[Hc _]].
      * right; left. unfold block_end, block_start. simpl. lia.
      * right; right. exists pnew.
        split; [apply list_elem_of_insert, Hlen|].
        split; [exact Hpid | exact Hc].
Qed.

Section RoundRobinService.
Variable procs : list nat.
Variable t0 : Z.
Hypothesis procs_nodup : NoDup procs.

Lemma rr_body_extra q s :
  0 < q →
  rr_inv procs t0 [] s →
  NoDup (map pid (store (rr_sched s))) →
  rr_extra_inv q (rr_sched s) →
  rr_extra_inv q (rr_sched (rr_next_state (rr_body procs q s))).
Proof.
  intros Hq0 Hinv Hpids Hex. unfold rr_body, admit_arrived.
  destruct (admit_inv procs t0 procs_nodup [] (length procs - rr_i s) s Hinv)
    as (Hinv1 & Hsc1 & _ & Hpost1).
  assert (Hpost : ∀ j, procs !! rr_i (admit_while (length procs - rr_i s) procs s)
                       = Some j →
                       time (rr_sched (admit_while (length procs - rr_i s) procs s))
                       < rr_key (store (rr_sched
                                   (admit_while (length procs - rr_i s) procs s))) j)
    by (apply Hpost1; lia).
  clear Hpost1.
  set (s1 := admit_while (length procs - rr_i s) procs s) in *.
  rewrite <- Hsc1 in Hex, Hpids.
  destruct (ready_queue s1) as [|cur rest] eqn:Eq.
  - destruct (procs !! rr_i s1) as [j|]; simpl; [|exact Hex].
    destruct (_ <? _); simpl; [|exact Hex]. apply extra_idle, Hex.
  - pose proof Hinv1 as (_ & _ & _ & _ & _ & Hqueue & _).
    destruct (Hqueue cur) as (p & r & Hp & Hpc & Hr & Hr0 & _);
      [rewrite Eq; left|].
    destruct (rr_slice_inv procs t0 procs_nodup q s1 cur rest Hq0 Hinv1 Eq Hpost)
      as (p' & r' & Hp' & Hr' & Hinv2 & _).
    rewrite Hp in Hp'. injection Hp' as <-.
    rewrite (first_dispatch_remaining _ _ _ Hr) in Hr'. injection Hr' as <-.
    destruct (first_dispatch_static (time (rr_sched s1)) p)
      as (Hpid & _ & Hbur).
    rewrite Hp, (first_dispatch_remaining _ _ _ Hr).
    cbv zeta in Hinv2.
    set (p2 := set_remaining_time (Some (r - q `min` r))
                 (first_dispatch (time (rr_sched s1)) p)) in *.
    match type of Hinv2 with rr_inv _ _ _ ?x => set (s2 := x) in * end.
    destruct (admit_inv procs t0 procs_nodup [cur]
                (length procs - rr_i s2) s2 Hinv2)
      as (_ & Hsc3 & _).
    set (s3 := admit_while (length procs - rr_i s2) procs s2) in *.
    assert (Hp3 : store (rr_sched s3) !! cur = Some p2).
    { rewrite Hsc3. unfold s2. simpl.
      apply list_lookup_insert_eq. eapply lookup_lt_Some, Hp. }
    rewrite Hp3.
    change (remaining_time p2) with (Some (r - q `min` r)).
    cbv iota beta.
    destruct (Z.ltb_spec 0 (r - q `min` r)) as [Hpos|Hneg];
      cbn [rr_next_state rr_sched]; rewrite Hsc3; unfold s2;
      cbn [rr_sched store time schedule];
      change (pid p2) with (pid (first_dispatch (time (rr_sched s1)) p));
      rewrite Hpid.
    + apply (extra_slice q (rr_sched s1) cur p r p2); auto.
      left. split; [|exact Hpos].
      unfold p2. simpl. rewrite first_dispatch_completion. exact Hpc.
    + rewrite list_insert_insert_eq.
      apply (extra_slice q (rr_sched s1) cur p r); auto.
Qed.

Lemma rr_loop_extra q fuel s sf :
  0 < q →
  rr_inv procs t0 [] s →
  NoDup (map pid (store (rr_sched s))) →
  rr_extra_inv q (rr_sched s) →
  rr_loop fuel procs q s = (sf, Returns tt) →
  rr_extra_inv q (rr_sched sf).
Proof.
  intros Hq0. revert s. induction fuel as [|fuel IH]; intros s Hinv Hpids Hex;
    simpl; [discriminate|].
  destruct (rr_guard procs s); [|intros [= <-]; exact Hex].
  pose proof (rr_body_inv procs t0 procs_nodup q s Hq0 Hinv) as Hb.
  pose proof (rr_body_extra q s Hq0 Hinv Hpids Hex) as Hx.
  pose proof (static_rr_body procs q s) as Hst.
  apply pid_by_static in Hst.
  destruct (rr_body procs q s) as [s'|s'|e s']; cbn [rr_next_state] in *.
  - destruct Hb as [Hinv' _]. apply IH; [exact Hinv'| |exact Hx].
    rewrite Hst. exact Hpids.
  - intros [= <-]. exact Hx.
  - discriminate.
Qed.
End RoundRobinService.

Lemma round_robin_service ps q :
  well_formed ps → 0 < q →
  ∃ s t0, final_ok t0 s ∧ rr_extra_inv q s
          ∧ round_robin ps q = hands_back (map derive (store s)) (schedule s).
Proof.
  intros Hwf Hq.
  destruct (round_robin_run ps q Hwf Hq) as (sf & Hloop & Hnd & Hinv & Hfin & E).
  exists (rr_sched sf), (time (rr_sched (snd (rr_init ps)))).
  split; [exact Hfin|]. split; [|exact E].
  eapply (rr_loop_extra _ _ Hnd); [exact Hq | exact Hinv | | | exact Hloop].
  - unfold rr_init. cbn [snd rr_sched store].
    rewrite (pid_by_static _ ps (static_reset ps)). apply Hwf.
  - unfold rr_init. cbn [snd rr_sched store schedule]. split; [|constructor].
    apply Forall_forall. intros p Hp.
    apply list_elem_of_lookup in Hp as [i Hi].
    apply reset_lookup in Hi as (_ & Hc & Hr).
    exists (burst_time p). split; [exact Hr|].
    split; [congruence|]. intros _. simpl. lia.
Qed.

(** X7: On well-formed input Round Robin gives every process of the
    caller's list exactly its burst: when the run ends,
    [remaining_time] is 0 in every record and the blocks that carry a
    pid add up to that record's [burst_time]. *)
Theorem round_robin_serves_whole_burst (ps : list Process) (quantum : Z) :
  well_formed ps → 0 < quantum →
  ends_with (round_robin ps quantum) (λ st tl,
    every_record ps st
      (λ p, remaining_time p = Some 0
            ∧ (pid p ≠ idle_label →
               work_done tl (pid p) = burst_time p))).
Proof.
  intros Hwf Hq.
  apply (ends_with_tied _ ps
           (λ tl p, remaining_time p = Some 0
                    ∧ (pid p ≠ idle_label →
                       work_done tl (pid p) = burst_time p)));
    [apply static_round_robin|].
  destruct (round_robin_service ps quantum Hwf Hq)
    as (s & t0 & (_ & Hfin & _) & [Hserved _] & E).
  exists (map derive (store s)), (schedule s). split; [exact E|].
  change (map derive (store s)) with (derive <$> store s).
  apply Forall_fmap. rewrite Forall_forall in *. intros p Hp. simpl.
  destruct (Hfin p Hp) as (st & c & _ & Hc & _).
  destruct (Hserved p Hp) as (r & Hr & Hr0 & Hw).
  assert (r = 0) by (apply Hr0; congruence). subst r.
  assert (E1 : remaining_time (derive p) = remaining_time p)
    by (unfold derive; destruct (completion_time p); reflexivity).
  assert (E2 : pid (derive p) = pid p)
    by (unfold derive; destruct (completion_time p); reflexivity).
  assert (E3 : burst_time (derive p) = burst_time p)
    by (unfold derive; destruct (completion_time p); reflexivity).
  rewrite E1, E2, E3. split; [exact Hr|]. intros Hne. rewrite (Hw Hne). lia.
Qed.

Lemma round_robin_serves_whole_burst_witness :
  well_formed ex_procs ∧ 0 < 2
  ∧ ends_with (round_robin ex_procs 2) (λ st tl,
      every_record ex_procs st
        (λ p, remaining_time p = Some 0
              ∧ (pid p ≠ idle_label →
                 work_done tl (pid p) = burst_time p))).
Proof.
  split; [solve_well_formed|]. split; [lia|].
  apply round_robin_serves_whole_burst; [solve_well_formed | lia].
Defined.

(** X8: On well-formed input every block of a Round Robin chart is an idle
    block, or lasts exactly one quantum, or is the last run of its
    process, which completes at the end of the block: a process is
    preempted at exactly [quantum] units unless it finishes sooner. *)
Theorem round_robin_preempts_at_quantum (ps : list Process) (quantum : Z) :
  well_formed ps → 0 < quantum →
  ends_with (round_robin ps quantum) (λ st tl,
    Forall (slice_exact quantum st) tl).
Proof.
  intros Hwf Hq.
  destruct (round_robin_service ps quantum Hwf Hq)
    as (s & t0 & _ & [_ Hblocks] & E).
  exists (map derive (store s)), (schedule s). split; [exact E|].
  eapply Forall_impl; [exact Hblocks|].
  intros b [H|[H|(p & Hp & Hl & Hc)]]; [left; exact H | right; left; exact H|].
  right; right. exists (derive p).
  split; [change (derive p ∈ derive <$> store s);
          apply list_elem_of_fmap; eauto|].
  rewrite derive_completion. split; [|exact Hc].
  unfold derive. destruct (completion_time p); simpl; exact Hl.
Qed.

Lemma round_robin_preempts_at_quantum_witness :
  well_formed ex_procs ∧ 0 < 2
  ∧ ends_with (round_robin ex_procs 2) (λ st tl,
      Forall (slice_exact 2 st) tl).
Proof.
  split; [solve_well_formed|]. split; [lia|].
  apply round_robin_preempts_at_quantum; [solve_well_formed | lia].
Defined.

(** ** The chart renderer *)

Lemma str_app_assoc (a b c : string) : (a +:+ b) +:+ c = a +:+ (b +:+ c).
Proof.
  induction a as [|x a IH]; [reflexivity|].
  change (String x ((a +:+ b) +:+ c) = String x (a +:+ (b +:+ c))).
  rewrite IH. reflexivity.
Qed.

Lemma str_app_nil_r (a : string) : a +:+ EmptyString = a.
Proof.
  induction a as [|x a IH]; [reflexivity|].
  change (String x (a +:+ EmptyString) = String x a).
  rewrite IH. reflexivity.
Qed.

Lemma str_length_app (a b : string) :
  String.length (a +:+ b) = (String.length a + String.length b)%nat.
Proof.
  induction a as [|x a IH]; [reflexivity|].
  change (S (String.length (a +:+ b))
          = S (String.length a + String.length b)).
  rewrite IH. reflexivity.
Qed.

Lemma str_repeat_add s (n m : nat) :
  str_repeat s (n + m) = str_repeat s n +:+ str_repeat s m.
Proof.
  induction n as [|n IH]; [reflexivity|].
  change (s +:+ str_repeat s (n + m)
          = (s +:+ str_repeat s n) +:+ str_repeat s m).
  rewrite IH, str_app_assoc. reflexivity.
Qed.

Lemma py_mul_add s (n m : Z) :
  0 ≤ n → 0 ≤ m → py_mul s (n + m) = py_mul s n +:+ py_mul s m.
Proof.
  intros Hn Hm. unfold py_mul. rewrite Z2Nat.inj_add by assumption.
  apply str_repeat_add.
Qed.

Lemma py_len_app a b : py_len (a +:+ b) = py_len a + py_len b.
Proof. unfold py_len. rewrite str_length_app. lia. Qed.

Lemma py_len_mul_char (x : Ascii.ascii) (n : Z) :
  py_len (py_mul (String x EmptyString) n) = Z.max 0 n.
Proof.
  unfold py_len, py_mul.
  assert (H : ∀ k, String.length (str_repeat (String x EmptyString) k) = k).
  { induction k as [|k IH]; [reflexivity|].
    change (str_repeat (String x EmptyString) (S k))
      with (String x EmptyString +:+ str_repeat (String x EmptyString) k).
    rewrite str_length_app, IH. reflexivity. }
  rewrite H. lia.
Qed.

Lemma chart_body_clock c b : current_time (chart_body c b) = block_end b.
Proof. destruct b as [[s e] l]. reflexivity. Qed.

Lemma chart_clock tl c b1 :
  last tl = Some b1 →
  current_time (fold_left chart_body tl c) = block_end b1.
Proof.
  revert c. induction tl as [|b tl IH]; intros c Hl; [discriminate|].
  simpl. destruct tl as [|b2 tl].
  - injection Hl as <-. apply chart_body_clock.
  - apply IH. exact Hl.
Qed.

Lemma chart_chain tl c t1 :
  chain (current_time c) tl t1 →
  bar (fold_left chart_body tl c)
  = bar c +:+ py_mul "#" (t1 - current_time c).
Proof.
  revert c. induction tl as [|b tl IH]; intros c; simpl.
  - intros <-. rewrite Z.sub_diag. unfold py_mul. simpl.
    symmetry. apply str_app_nil_r.
  - intros (Hs & Hlt & Hch). destruct b as [[s e] l].
    unfold block_start, block_end in *. simpl in *. subst s.
    pose proof (chain_le _ _ _ Hch) as Hle.
    rewrite IH by exact Hch. simpl.
    rewrite Z.ltb_irrefl. rewrite str_app_assoc.
    rewrite <- py_mul_add by lia. f_equal. f_equal. lia.
Qed.

Lemma contiguous_chain tl b0 b1 :
  positive_blocks tl → contiguous tl →
  head tl = Some b0 → last tl = Some b1 →
  chain (block_start b0) tl (block_end b1).
Proof.
  revert b0. induction tl as [|b tl IH]; intros b0 Hpos Hcont Hh Hl;
    [discriminate|].
  injection Hh as <-. apply Forall_cons in Hpos as [Hb Hpos].
  destruct Hcont as [Hnext Hcont]. simpl.
  split; [reflexivity|]. split; [exact Hb|].
  destruct tl as [|b2 tl].
  - injection Hl as <-. reflexivity.
  - rewrite Hnext. apply IH; auto.
Qed.

Lemma solid_bar_of_contiguous (tl : Timeline) :
  positive_blocks tl → contiguous tl → solid_bar tl.
Proof.
  intros Hpos Hcont b0 b1 Hh Hl.
  pose proof (contiguous_chain tl b0 b1 Hpos Hcont Hh Hl) as Hch.
  destruct tl as [|[[s0 e0] l0] rest]; [discriminate|].
  injection Hh as <-. unfold gantt_chart.
  rewrite (chart_chain _ (mkChart EmptyString EmptyString s0) _ Hch).
  reflexivity.
Qed.

(** X12: For a chart whose blocks have positive length and follow one another
    without gaps, the bar is a run of ['#'], one for every time unit from
    the start of the first block to the end of the last: a block
    labelled ["Idle"] is drawn like any other. *)
Theorem gantt_bar_of_contiguous_chart (tl : Timeline) :
  positive_blocks tl → contiguous tl → solid_bar tl.
Proof. exact (solid_bar_of_contiguous tl). Qed.

Lemma gantt_bar_of_contiguous_chart_witness :
  positive_blocks [(5, 8, "A"); (8, 20, "Idle"); (20, 23, "B")]
  ∧ contiguous [(5, 8, "A"); (8, 20, "Idle"); (20, 23, "B")]
  ∧ solid_bar [(5, 8, "A"); (8, 20, "Idle"); (20, 23, "B")].
Proof.
  assert (Hp : positive_blocks [(5, 8, "A"); (8, 20, "Idle"); (20, 23, "B")])
    by (repeat constructor).
  assert (Hc : contiguous [(5, 8, "A"); (8, 20, "Idle"); (20, 23, "B")])
    by (simpl; auto).
  split; [exact Hp|]. split; [exact Hc|].
  exact (gantt_bar_of_contiguous_chart _ Hp Hc).
Defined.

(** X13: The charts the four algorithms build on well-formed input are
    drawn without any ['-'] filler: the bar is ['#'] throughout, idle
    time included. *)
Theorem scheduler_charts_have_solid_bars (ps : list Process) (quantum : Z) :
  well_formed ps → 0 < quantum →
  ends_with (fcfs ps) (λ _ tl, solid_bar tl)
  ∧ ends_with (sjf_non_preemptive ps) (λ _ tl, solid_bar tl)
  ∧ ends_with (priority_non_preemptive ps) (λ _ tl, solid_bar tl)
  ∧ ends_with (round_robin ps quantum) (λ _ tl, solid_bar tl).
Proof.
  intros Hwf Hq.
  assert (H : ∀ r, ends_with r timeline_ok →
                   ends_with r (λ _ tl, solid_bar tl)).
  { intros r (st & tl & E & Hpos & Hcont & _). exists st, tl.
    split; [exact E|]. apply solid_bar_of_contiguous; assumption. }
  split; [apply H, run_postcondition, fcfs_correct, Hwf|].
  split; [apply H, run_postcondition, non_preemptive_correct, Hwf|].
  split; [apply H, run_postcondition, non_preemptive_correct, Hwf|].
  apply H, run_postcondition, round_robin_correct; assumption.
Qed.

Lemma scheduler_charts_have_solid_bars_witness :
  well_formed ex_late ∧ 0 < 2
  ∧ ends_with (fcfs ex_late) (λ _ tl, solid_bar tl)
  ∧ ends_with (sjf_non_preemptive ex_late) (λ _ tl, solid_bar tl)
  ∧ ends_with (priority_non_preemptive ex_late) (λ _ tl, solid_bar tl)
  ∧ ends_with (round_robin ex_late 2) (λ _ tl, solid_bar tl).
Proof.
  split; [solve_well_formed|]. split; [lia|].
  apply scheduler_charts_have_solid_bars; [solve_well_formed | lia].
Defined.

Lemma chart_length tl c :
  in_order (current_time c) tl →
  py_len (bar (fold_left chart_body tl c))
  = py_len (bar c) + (current_time (fold_left chart_body tl c)
                      - current_time c).
Proof.
  revert c. induction tl as [|b tl IH]; intros c; simpl.
  - intros _. lia.
  - intros (Hs & He & Hord). destruct b as [[s e] l].
    unfold block_start, block_end in *. simpl in *.
    rewrite IH by exact Hord. simpl.
    destruct (Z.ltb_spec (current_time c) s); simpl;
      rewrite !py_len_app, !py_len_mul_char; lia.
Qed.

(** X14: When the blocks follow one another in time, with or without gaps,
    the bar has one character for every time unit from the start of the
    first block to the end of the last. *)
Theorem gantt_bar_length (tl : Timeline) (b0 b1 : GanttBlock) :
  head tl = Some b0 → last tl = Some b1 →
  in_order (block_start b0) tl →
  py_len (bar (gantt_chart tl)) = block_end b1 - block_start b0.
Proof.
  intros Hh Hl Hord.
  destruct tl as [|[[s0 e0] l0] rest]; [discriminate|].
  injection Hh as <-. unfold gantt_chart.
  rewrite chart_length by exact Hord.
  rewrite (chart_clock _ _ b1 Hl). unfold block_start, py_len. simpl. lia.
Qed.

Lemma gantt_bar_length_witness :
  head ex_gapped = Some (0, 2, "A") ∧ last ex_gapped = Some (4, 6, "B")
  ∧ in_order (block_start (0, 2, "A")) ex_gapped
  ∧ py_len (bar (gantt_chart ex_gapped))
    = block_end (4, 6, "B") - block_start (0, 2, "A").
Proof.
  assert (Ho : in_order (block_start (0, 2, "A")) ex_gapped)
    by (simpl; unfold block_start, block_end; simpl; lia).
  split; [reflexivity|]. split; [reflexivity|]. split; [exact Ho|].
  exact (gantt_bar_length ex_gapped (0, 2, "A") (4, 6, "B")
           eq_refl eq_refl Ho).
Defined.

(** ** The averages after a run *)

Lemma py_true_div_le a b n x y :
  0 < n → 0 ≤ a → a ≤ b →
  py_true_div a n = Returns x → py_true_div b n = Returns y →
  (0 <= x)%Q ∧ (x <= y)%Q.
Proof.
  intros Hn Ha Hab. unfold py_true_div.
  destruct (Z.eqb_spec n 0) as [|_]; [lia|]. cbv zeta.
  destruct (Qle_bool _ _); [discriminate|]. intros [= <-].
  destruct (Qle_bool _ _); [discriminate|]. intros [= <-].
  assert (Hnq : (0 < inject_Z n)%Q)
    by (change 0%Q with (inject_Z 0); rewrite <- Zlt_Qlt; exact Hn).
  assert (Hinv : (0 <= / inject_Z n)%Q)
    by (apply Qlt_le_weak, Qinv_lt_0_compat, Hnq).
  assert (H0 : (0 <= inject_Z a / inject_Z n)%Q).
  { apply Qle_shift_div_l; [exact Hnq|].
    assert (Ha' : (inject_Z 0 <= inject_Z a)%Q)
      by (rewrite <- Zle_Qle; exact Ha).
    change (inject_Z 0) with 0%Q in Ha'. lra. }
  split; [apply nearest_float_nonneg, H0|].
  apply nearest_float_le; [exact H0|].
  apply Qmult_le_compat_r; [|exact Hinv].
  rewrite <- Zle_Qle. exact Hab.
Qed.

Lemma average_le a b n x y :
  0 ≤ a → a ≤ b →
  average a n = Returns x → average b n = Returns y →
  (0 <= x)%Q ∧ (x <= y)%Q.
Proof.
  intros Ha Hab. unfold average.
  destruct (Z.ltb_spec 0 (Z.of_nat n)) as [Hn|Hn].
  - apply py_true_div_le; assumption.
  - intros [= <-] [= <-]. split; apply Qle_refl.
Qed.

Lemma finished_sums (st : list Process) :
  Forall (λ p, ∃ c, completion_time p = Some c
                    ∧ 0 ≤ c - arrival_time p - burst_time p
                    ∧ 0 ≤ burst_time p) st →
  0 ≤ sum_list (omap finished_waiting st)
  ∧ sum_list (omap finished_waiting st)
    ≤ sum_list (omap finished_turnaround st).
Proof.
  induction 1 as [|p st (c & Hc & Hw & Hb) _ IH]; [simpl; unfold sum_list; simpl; lia|].
  change (omap finished_waiting (p :: st))
    with (match finished_waiting p with
          | Some y => y :: omap finished_waiting st
          | None => omap finished_waiting st end).
  change (omap finished_turnaround (p :: st))
    with (match finished_turnaround p with
          | Some y => y :: omap finished_turnaround st
          | None => omap finished_turnaround st end).
  assert (E1 : finished_waiting p
               = Some (c - arrival_time p - burst_time p))
    by (unfold finished_waiting; rewrite Hc; reflexivity).
  assert (E2 : finished_turnaround p = Some (c - arrival_time p))
    by (unfold finished_turnaround; rewrite Hc; reflexivity).
  rewrite E1, E2. unfold sum_list in *. simpl. lia.
Qed.

Lemma averages_after r :
  (∃ s t0, final_ok t0 s ∧ Forall rec_wf (store s)
           ∧ r = hands_back (map derive (store s)) (schedule s)) →
  ends_with r (λ st _, metrics_sane (snd (compute_metrics st))).
Proof.
  intros (s & t0 & (_ & Hfin & _) & Hwf & ->).
  eexists _, _. split; [reflexivity|].
  assert (Hs : Forall (λ p, ∃ c, completion_time p = Some c
                                 ∧ 0 ≤ c - arrival_time p - burst_time p
                                 ∧ 0 ≤ burst_time p)
                      (map derive (store s))).
  { change (map derive (store s)) with (derive <$> store s).
    apply Forall_fmap. rewrite Forall_forall in *. intros p Hp. simpl.
    destruct (Hfin p Hp) as (t & c & _ & Hc & Ha & _ & Hb & _).
    destruct (Hwf p Hp) as [Hbur _].
    exists c. rewrite derive_completion. split; [exact Hc|].
    unfold derive. rewrite Hc. simpl. lia. }
  apply finished_sums in Hs as [H0 Hle].
  rewrite compute_metrics_outcome.
  destruct (average_outcome
              (sum_list (omap finished_waiting (map derive (store s))))
              (length (map derive (store s)))) as [[x Hx]|Hx];
    rewrite Hx; [|reflexivity]. cbn [and_then].
  destruct (average_outcome
              (sum_list (omap finished_turnaround (map derive (store s))))
              (length (map derive (store s)))) as [[y Hy]|Hy];
    rewrite Hy; [|reflexivity]. cbn [and_then metrics_sane].
  exact (average_le _ _ _ x y H0 Hle Hx Hy).
Qed.

(** X11: On well-formed input, the averages [compute_metrics] reports for
    the records an algorithm left are not negative, and the average
    waiting time is at most the average turnaround time; it reports
    them unless a division raises [OverflowError]. *)
Theorem averages_after_run_sane (ps : list Process) (quantum : Z) :
  well_formed ps → 0 < quantum →
  ends_with (fcfs ps)
    (λ st _, metrics_sane (snd (compute_metrics st)))
  ∧ ends_with (sjf_non_preemptive ps)
      (λ st _, metrics_sane (snd (compute_metrics st)))
  ∧ ends_with (priority_non_preemptive ps)
      (λ st _, metrics_sane (snd (compute_metrics st)))
  ∧ ends_with (round_robin ps quantum)
      (λ st _, metrics_sane (snd (compute_metrics st))).
Proof.
  intros Hwf Hq.
  split; [apply averages_after, fcfs_correct, Hwf|].
  split; [apply averages_after, non_preemptive_correct, Hwf|].
  split; [apply averages_after, non_preemptive_correct, Hwf|].
  apply averages_after, round_robin_correct; assumption.
Qed.

Lemma averages_after_run_sane_witness :
  well_formed ex_procs ∧ 0 < 2
  ∧ ends_with (fcfs ex_procs)
      (λ st _, metrics_sane (snd (compute_metrics st)))
  ∧ ends_with (sjf_non_preemptive ex_procs)
      (λ st _, metrics_sane (snd (compute_metrics st)))
  ∧ ends_with (priority_non_preemptive ex_procs)
      (λ st _, metrics_sane (snd (compute_metrics st)))
  ∧ ends_with (round_robin ex_procs 2)
      (λ st _, metrics_sane (snd (compute_metrics st))).
Proof.
  split; [solve_well_formed|]. split; [lia|].
  apply averages_after_run_sane; [solve_well_formed | lia].
Defined.

(** ** Where the labels go *)

Lemma has_prefix_app p s t : has_prefix p s → has_prefix p (s +:+ t).
Proof. intros [u ->]. exists (u +:+ t). apply str_app_assoc. Qed.

Lemma str_repeat_length (x : Ascii.ascii) k :
  String.length (str_repeat (String x EmptyString) k) = k.
Proof.
  induction k as [|k IH]; [reflexivity|].
  change (str_repeat (String x EmptyString) (S k))
    with (String x EmptyString +:+ str_repeat (String x EmptyString) k).
  rewrite str_length_app, IH. reflexivity.
Qed.

Lemma substring_app_prefix (a b : string) (n : nat) :
  (String.length a ≤ n)%nat →
  String.substring 0 n (a +:+ b)
  = a +:+ String.substring 0 (n - String.length a) b.
Proof.
  revert n. induction a as [|x a IH]; intros n Hn.
  - simpl. rewrite Nat.sub_0_r. reflexivity.
  - destruct n as [|n]; [simpl in Hn; lia|].
    change (String x (String.substring 0 n (a +:+ b))
            = String x (a +:+ String.substring 0 (n - String.length a) b)).
    rewrite IH by (simpl in Hn; lia). reflexivity.
Qed.

Lemma has_prefix_slice_to p s k :
  has_prefix p s → py_len p ≤ k → has_prefix p (py_slice_to s k).
Proof.
  intros [t ->] Hk. unfold py_slice_to, slice_bound, py_len in *.
  rewrite str_length_app in *.
  destruct (Z.leb_spec 0 k); [|lia].
  rewrite substring_app_prefix by lia. eexists. reflexivity.
Qed.

Lemma pad_labels_spec fuel lab pos :
  ∃ t, pad_labels fuel lab pos = lab +:+ t.
Proof.
  revert lab. induction fuel as [|fuel IH]; intros lab; simpl.
  - exists EmptyString. symmetry. apply str_app_nil_r.
  - destruct (py_len lab <? pos).
    + destruct (IH (lab +:+ " ")) as [t ->]. eexists. apply str_app_assoc.
    + exists EmptyString. symmetry. apply str_app_nil_r.
Qed.

Lemma pad_labels_exact lab pos :
  py_len lab ≤ pos →
  pad_labels (Z.to_nat (pos - py_len lab)) lab pos
  = lab +:+ py_mul " " (pos - py_len lab).
Proof.
  intros H. unfold py_mul.
  remember (Z.to_nat (pos - py_len lab)) as n eqn:En.
  revert lab H En. induction n as [|n IH]; intros lab H En; simpl.
  - symmetry. apply str_app_nil_r.
  - destruct (Z.ltb_spec (py_len lab) pos); [|lia].
    rewrite IH; [apply str_app_assoc| |]; rewrite py_len_app;
      unfold py_len at 2; simpl; lia.
Qed.

Lemma place_label_prefix p lab pid_str pos :
  has_prefix p lab → py_len p ≤ pos →
  has_prefix p (place_label lab pid_str pos).
Proof.
  intros Hp Hpos. unfold place_label.
  destruct (_ <=? _).
  - apply has_prefix_app.
    apply has_prefix_slice_to; assumption.
  - apply has_prefix_app, Hp.
Qed.

Lemma chart_body_prefix p c b :
  has_prefix p (labels c) → py_len p ≤ current_time c →
  current_time c ≤ block_start b → block_start b ≤ block_end b →
  has_prefix p (labels (chart_body c b))
  ∧ py_len p ≤ current_time (chart_body c b).
Proof.
  intros Hp Hk Hs He. destruct b as [[s e] l].
  unfold block_start, block_end in *. simpl in *.
  split; [|lia].
  assert (Hdiv : 0 ≤ (e - s) / 2) by (apply Z.div_pos; lia).
  apply place_label_prefix.
  - destruct (Z.ltb_spec (current_time c) s); simpl.
    + match goal with |- has_prefix p (pad_labels ?f ?lab ?pos) =>
        destruct (pad_labels_spec f lab pos) as [t ->] end.
      apply has_prefix_app, has_prefix_app, Hp.
    + match goal with |- has_prefix p (pad_labels ?f ?lab ?pos) =>
        destruct (pad_labels_spec f lab pos) as [t ->] end.
      apply has_prefix_app, Hp.
  - destruct (Z.ltb_spec (current_time c) s); simpl; lia.
Qed.

Lemma chart_prefix p tl c :
  has_prefix p (labels c) → py_len p ≤ current_time c →
  in_order (current_time c) tl →
  has_prefix p (labels (fold_left chart_body tl c)).
Proof.
  revert c. induction tl as [|b tl IH]; intros c Hp Hk Hord; [exact Hp|].
  destruct Hord as (Hs & He & Hord). simpl.
  destruct (chart_body_prefix p c b Hp Hk Hs He) as [Hp' Hk'].
  apply IH; [exact Hp' | exact Hk'|].
  rewrite chart_body_clock. exact Hord.
Qed.

Lemma py_len_blanks k : 0 ≤ k → py_len (py_mul " " k) = k.
Proof.
  intros H. unfold py_len, py_mul.
  change " " with (String (Ascii.ascii_of_nat 32) EmptyString).
  rewrite str_repeat_length. lia.
Qed.

(** The first label: blanks up to its column, then the pid. *)
Lemma first_label k pid_str :
  0 ≤ k →
  has_prefix (py_mul " " k +:+ pid_str)
             (place_label (pad_labels (Z.to_nat (k - py_len EmptyString))
                                      EmptyString k)
                          pid_str k).
Proof.
  intros Hk. pose proof (pad_labels_exact EmptyString k) as E.
  change (py_len EmptyString) with 0 in *. rewrite Z.sub_0_r in *.
  rewrite E by lia. change (EmptyString +:+ py_mul " " k) with (py_mul " " k).
  unfold place_label. rewrite (py_len_blanks k Hk).
  destruct (Z.leb_spec (k + py_len pid_str) k) as [Hfit|_].
  - assert (pid_str = EmptyString) as ->.
    { destruct pid_str; [reflexivity|]. unfold py_len in Hfit.
      simpl in Hfit. lia. }
    apply has_prefix_app, has_prefix_slice_to.
    + exists EmptyString. rewrite !str_app_nil_r. reflexivity.
    + rewrite py_len_app, (py_len_blanks k Hk).
      change (py_len EmptyString) with 0. lia.
  - exists EmptyString. rewrite str_app_nil_r. reflexivity.
Qed.

(** X15: The label of the first block is written at column
    [start + (end - start) // 2], counted from time 0 and not from the
    left end of the bar: the label line is that many blanks and then
    the pid, for a pid that fits in what is left of its block, so that
    no later label is written over it.  The bar begins at column 0
    with the ['#'] of the block: a chart that begins at a time
    [start > 0], as those of SJF, Priority and Round Robin do when
    nothing arrives at 0, has its labels that much to the right of the
    blocks they name. *)
Theorem gantt_labels_offset_by_start
        (start0 end0 : Z) (pid0 : string) (rest : Timeline) :
  0 ≤ start0 →
  in_order start0 ((start0, end0, pid0) :: rest) →
  start0 + (end0 - start0) / 2 + py_len pid0 ≤ end0 →
  has_prefix (py_mul " " (start0 + (end0 - start0) / 2) +:+ pid0)
             (labels (gantt_chart ((start0, end0, pid0) :: rest)))
  ∧ has_prefix (py_mul "#" (end0 - start0))
               (bar (gantt_chart ((start0, end0, pid0) :: rest))).
Proof.
  intros H0 (Hs & He & Hord) Hfit.
  unfold block_start, block_end in *. simpl in *.
  assert (Hdiv : 0 ≤ (end0 - start0) / 2) by (apply Z.div_pos; lia).
  set (k := start0 + (end0 - start0) / 2) in *.
  assert (Hk : 0 ≤ k) by (unfold k; lia).
  change (gantt_chart ((start0, end0, pid0) :: rest))
    with (fold_left chart_body rest
            (chart_body (mkChart EmptyString EmptyString start0)
                        (start0, end0, pid0))).
  split.
  - apply chart_prefix.
    + simpl. rewrite Z.ltb_irrefl. simpl. fold k.
      apply first_label, Hk.
    + cbn [current_time]. rewrite py_len_app, (py_len_blanks k Hk). lia.
    + cbn [current_time]. exact Hord.
  - cbn [bar]. rewrite Z.ltb_irrefl. cbn [bar].
    assert (Hbar : ∀ tl c p, has_prefix p (bar c) →
                             has_prefix p (bar (fold_left chart_body tl c))).
    { induction tl as [|b tl IH]; intros c p Hp; [exact Hp|].
      simpl. apply IH. destruct b as [[s e] l]. simpl.
      destruct (_ <? _); simpl; repeat apply has_prefix_app; exact Hp. }
    apply Hbar. simpl. exists EmptyString. symmetry. apply str_app_nil_r.
Qed.

Lemma gantt_labels_offset_by_start_witness :
  0 ≤ 5
  ∧ in_order 5 ((5, 8, "A") :: [(8, 20, "Idle"); (20, 23, "B")])
  ∧ 5 + (8 - 5) / 2 + py_len "A" ≤ 8
  ∧ has_prefix (py_mul " " (5 + (8 - 5) / 2) +:+ "A")
       (labels (gantt_chart ((5, 8, "A") :: [(8, 20, "Idle"); (20, 23, "B")])))
  ∧ has_prefix (py_mul "#" (8 - 5))
       (bar (gantt_chart ((5, 8, "A") :: [(8, 20, "Idle"); (20, 23, "B")]))).
Proof.
  assert (Ho : in_order 5 ((5, 8, "A") :: [(8, 20, "Idle"); (20, 23, "B")]))
    by (simpl; unfold block_start, block_end; simpl; lia).
  assert (Hf : 5 + (8 - 5) / 2 + py_len "A" ≤ 8) by (vm_compute; discriminate).
  split; [lia|]. split; [exact Ho|]. split; [exact Hf|].
  apply (gantt_labels_offset_by_start 5 8 "A"
           [(8, 20, "Idle"); (20, 23, "B")]); [lia | exact Ho | exact Hf].
Defined.

(** ** The table printer *)

Lemma table_rows_spec l acc :
  fold_left (λ out p, out +:+ print_line (table_row p)) l acc
  = acc +:+ rows_of l.
Proof.
  revert acc. induction l as [|p l IH]; intros acc; simpl.
  - symmetry. apply str_app_nil_r.
  - rewrite IH. apply str_app_assoc.
Qed.

(** X16: The table has one row for every record, and the rows come in
    ascending order of pid whatever the order of the caller's list. *)
Theorem table_rows_sorted_by_pid (ps : list Process) :
  ∃ order,
    print_process_table ps
    = print_line (newline +:+ "Process Table:")
      +:+ print_line (py_mul "-" 72)
      +:+ print_line table_header
      +:+ print_line (py_mul "-" 72)
      +:+ rows_of order
      +:+ print_line (py_mul "-" 72)
    ∧ order ≡ₚ ps
    ∧ sorted_by String.ltb pid order.
Proof.
  exists (table_order ps). split; [|split].
  - unfold print_process_table, table_rows. rewrite table_rows_spec.
    reflexivity.
  - apply sorted_perm.
  - apply sorted_is_sorted.
    + apply string_ltb_irrefl.
    + apply string_ltb_trans.
    + apply string_ltb_total.
Qed.

Lemma py_len_ljust s w : py_len (ljust s w) = Z.max w (py_len s).
Proof.
  unfold ljust. rewrite py_len_app.
  change " " with (String (Ascii.ascii_of_nat 32) EmptyString).
  rewrite py_len_mul_char. unfold py_len. lia.
Qed.

(** X17: A row is never narrower than the 70 columns of the header, and
    it is exactly as wide when every field fits its column: no field is
    ever cut. *)
Theorem table_row_width (p : Process) :
  py_len table_header = 70
  ∧ 70 ≤ py_len (table_row p)
  ∧ (fits_columns p → py_len (table_row p) = 70)
  ∧ has_prefix (pid p) (table_row p).
Proof.
  split; [reflexivity|].
  assert (E : py_len (table_row p)
              = Z.max 8 (py_len (pid p))
                + Z.max 8 (py_len (py_str (arrival_time p)))
                + Z.max 8 (py_len (py_str (burst_time p)))
                + Z.max 8 (py_len (py_str (priority p)))
                + Z.max 8 (py_len (opt_str (start_time p)))
                + Z.max 10 (py_len (opt_str (completion_time p)))
                + Z.max 12 (py_len (opt_str (turnaround_time p)))
                + Z.max 8 (py_len (opt_str (waiting_time p)))).
  { unfold table_row. rewrite !py_len_app, !py_len_ljust. lia. }
  split; [rewrite E; lia|]. split.
  - intros (? & ? & ? & ? & ? & ? & ? & ?). rewrite E. lia.
  - unfold table_row, ljust. eexists. rewrite str_app_assoc. reflexivity.
Qed.

Lemma table_row_width_witness :
  fits_columns ex_P1 ∧ py_len (table_row ex_P1) = 70.
Proof.
  assert (H : fits_columns ex_P1) by (vm_compute; intuition discriminate).
  split; [exact H|]. apply (table_row_width ex_P1), H.
Defined.

(** ** Chart and records agree *)

Lemma block_of_grow tl ext p : block_of tl p → block_of (tl ++ ext) p.
Proof. intros H s c Hs Hc. apply elem_of_app. left. auto. Qed.

Lemma block_of_run i p s :
  Forall (block_of (schedule s)) (store s) →
  Forall (block_of (schedule (run_to_completion i p s)))
         (store (run_to_completion i p s)).
Proof.
  intros H. simpl. apply Forall_insert.
  - eapply Forall_impl; [exact H|]. intros q. apply block_of_grow.
  - intros t c. simpl. intros [= <-] [= <-].
    apply elem_of_app. right. left.
Qed.

Lemma block_of_idle t s :
  Forall (block_of (schedule s)) (store s) →
  Forall (block_of (schedule (go_idle t s))) (store (go_idle t s)).
Proof.
  intros H. simpl. eapply Forall_impl; [exact H|].
  intros q. apply block_of_grow.
Qed.

Lemma block_of_fcfs_loop procs s :
  Forall (block_of (schedule s)) (store s) →
  Forall (block_of (schedule (fold_left fcfs_body procs s)))
         (store (fold_left fcfs_body procs s)).
Proof.
  revert s. induction procs as [|i procs IH]; intros s H; simpl; [exact H|].
  apply IH. unfold fcfs_body. destruct (store s !! i) as [p|]; [|exact H].
  apply block_of_run. destruct (_ <? _); [apply block_of_idle|]; exact H.
Qed.

Lemma block_of_np_loop key fuel remaining n s c sf :
  np_loop key fuel remaining n s c = Some sf →
  Forall (block_of (schedule s)) (store s) →
  Forall (block_of (schedule sf)) (store sf).
Proof.
  revert s c. induction fuel as [|fuel IH]; intros s c; simpl; [discriminate|].
  destruct (c <? n)%nat; [|intros [= <-]; auto].
  destruct (np_step key remaining s c) as [[s1 c1]|] eqn:E;
    [|intros [= <-]; auto].
  intros Hl H. apply (IH _ _ Hl).
  unfold np_step in E. destruct (ready_list remaining s).
  - destruct (min_int _); [injection E as <- <-|discriminate].
    apply block_of_idle, H.
  - destruct (store s !! _); [|discriminate]. injection E as <- <-.
    apply block_of_run, H.
Qed.

Lemma block_of_reset t ps :
  Forall (block_of []) (store (mkSched (reset_processes ps) t [])).
Proof.
  simpl. apply Forall_forall. intros p Hp.
  apply list_elem_of_lookup in Hp as [i Hi].
  apply reset_lookup in Hi as (Hs & _). intros s c. congruence.
Qed.

Lemma chart_matches_derive st tl :
  Forall (block_of tl) st → Forall (block_inv st) tl →
  chart_matches_records (map derive st) tl.
Proof.
  intros H1 H2. split.
  - change (map derive st) with (derive <$> st). apply Forall_fmap.
    eapply Forall_impl; [exact H1|]. intros p Hp s c. simpl.
    rewrite derive_start, derive_completion.
    assert (E : pid (derive p) = pid p)
      by (unfold derive; destruct (completion_time p); reflexivity).
    rewrite E. apply Hp.
  - eapply Forall_impl; [exact H2|].
    intros b [H|(p & Hp & Hl & Hs & Hc)]; [left; exact H|].
    right. exists (derive p).
    split; [change (derive p ∈ derive <$> st);
            apply list_elem_of_fmap; eauto|].
    rewrite derive_start, derive_completion.
    split; [|auto]. unfold derive. destruct (completion_time p); exact Hl.
Qed.

Lemma fcfs_final_inv ps :
  well_formed ps →
  fcfs_inv (fold_left fcfs_body
              (sorted pair_ltb (fcfs_key (reset_processes ps))
                 (seq 0 (length (reset_processes ps))))
              (mkSched (reset_processes ps) 0 [])) [].
Proof.
  intros [Hwf _].
  set (st := reset_processes ps).
  set (procs := sorted pair_ltb (fcfs_key st) (seq 0 (length st))).
  assert (Hperm : procs ≡ₚ seq 0 (length st)) by apply sorted_perm.
  apply fcfs_loop_inv.
  split; [apply run_inv_init|]. split; [apply reset_wf, Hwf|].
  split; [rewrite Hperm; apply NoDup_seq|]. simpl.
  split; [|split; [|intros []; reflexivity]].
  - intros i Hi. rewrite Hperm in Hi. apply elem_of_seq in Hi.
    destruct (lookup_lt_is_Some_2 st i) as [p Hp]; [lia|].
    exists p. split; [exact Hp|]. apply reset_lookup in Hp. tauto.
  - intros i p Hp Hi. exfalso. apply Hi. rewrite Hperm.
    apply elem_of_seq. apply lookup_lt_Some in Hp. lia.
Qed.

Lemma scheduled_derive p : scheduled p → scheduled (derive p).
Proof.
  intros (s & c & Hs & Hc). exists s, c.
  rewrite derive_start, derive_completion. auto.
Qed.

Lemma finished_scheduled t0 t p : finished_ok t0 t p → scheduled p.
Proof. intros (s & c & Hs & Hc & _). exists s, c. auto. Qed.

(** At the end of a run every record is scheduled, so its block is
    there without condition. *)
Lemma chart_matches_final ps s :
  map static_fields (store s) = map static_fields ps →
  Forall scheduled (store s) →
  Forall (block_of (schedule s)) (store s) →
  Forall (block_inv (store s)) (schedule s) →
  chart_matches ps (map derive (store s)) (schedule s).
Proof.
  intros Hst Hsch Hof Hinv.
  destruct (chart_matches_derive _ _ Hof Hinv) as [H1 H2].
  split; [|exact H2]. apply every_record_intro.
  - rewrite <- Hst, <- compute_metrics_store. apply static_compute_metrics.
  - change (map derive (store s)) with (derive <$> store s) in *.
    apply Forall_fmap. rewrite Forall_fmap in H1.
    rewrite Forall_forall in *. intros p Hp. simpl.
    destruct (scheduled_derive p (Hsch p Hp)) as (t & c & Ht & Hc).
    exists t, c. split; [exact Ht|]. split; [exact Hc|].
    exact (H1 p Hp t c Ht Hc).
Qed.

Lemma fcfs_chart_matches ps :
  well_formed ps → ends_with (fcfs ps) (chart_matches ps).
Proof.
  intros Hwf. unfold fcfs. cbv zeta. rewrite metrics_and_return_spec.
  eexists _, _. split; [reflexivity|].
  pose proof (fcfs_final_inv ps Hwf)
    as ((_ & Hrec & _ & Hbl) & _ & _ & _ & Hdone & _).
  apply chart_matches_final.
  - rewrite static_fcfs_loop. apply static_reset.
  - apply Forall_lookup. intros i p Hp.
    pose proof (Hdone i p Hp (not_elem_of_nil _)) as Hc.
    pose proof (proj1 (Forall_lookup _ _) Hrec i p Hp) as Hr.
    unfold rec_inv in Hr. unfold scheduled.
    destruct (start_time p) as [t|], (completion_time p) as [c|];
      try contradiction. eauto.
  - apply block_of_fcfs_loop, block_of_reset.
  - exact Hbl.
Qed.

Lemma non_preemptive_chart_matches key ps :
  well_formed ps →
  ends_with (non_preemptive key ps) (chart_matches ps).
Proof.
  intros Hwf.
  assert (Hl : length (store (np_init ps)) = length ps)
    by (unfold np_init, reset_processes; simpl; apply length_map).
  pose proof (np_inv_init ps (proj1 Hwf)) as Hinit.
  destruct (np_loop_total key (length ps) (time (np_init ps))
              (np_fuel (length ps)) (np_init ps) 0 Hinit)
    as (sf & Hloop & (_ & Hfin & _) & _).
  { unfold np_measure, np_fuel.
    destruct (ready_list (seq 0 (length ps)) (np_init ps)); lia. }
  destruct (np_loop_inv key (length ps) _ _ _ _ _ Hinit Hloop)
    as (cf & (_ & _ & _ & Hblocks) & _).
  exists (map derive (store sf)), (schedule sf). split.
  - unfold non_preemptive. rewrite Hl, length_seq, Hloop.
    apply metrics_and_return_spec.
  - apply chart_matches_final; [| |
      apply (block_of_np_loop _ _ _ _ _ _ _ Hloop);
      unfold np_init; apply block_of_reset | exact Hblocks].
    + rewrite (static_np_loop _ _ _ _ _ _ _ Hloop). apply static_reset.
    + eapply Forall_impl; [exact Hfin|]. intros p.
      apply finished_scheduled.
Qed.

(** X18: On well-formed input the chart and the records FCFS, SJF and
    Priority leave agree: every record of the caller's list has its
    start and completion time set and its block
    [(start_time, completion_time, pid)] is in the chart, and every
    block of the chart is labelled ["Idle"] or is that block of some
    record. *)
Theorem chart_agrees_with_records (ps : list Process) :
  well_formed ps →
  ends_with (fcfs ps) (chart_matches ps)
  ∧ ends_with (sjf_non_preemptive ps) (chart_matches ps)
  ∧ ends_with (priority_non_preemptive ps) (chart_matches ps).
Proof.
  intros Hwf. split; [apply fcfs_chart_matches, Hwf|].
  split; apply non_preemptive_chart_matches, Hwf.
Qed.

Lemma chart_agrees_with_records_witness :
  well_formed ex_procs
  ∧ ends_with (fcfs ex_procs) (chart_matches ex_procs)
  ∧ ends_with (sjf_non_preemptive ex_procs) (chart_matches ex_procs)
  ∧ ends_with (priority_non_preemptive ex_procs) (chart_matches ex_procs).
Proof.
  split; [solve_well_formed|].
  apply chart_agrees_with_records; solve_well_formed.
Defined.

(** ** Round Robin: the first and the last block of a process *)

Lemma first_last_grow tl ext p :
  first_and_last_block tl p → first_and_last_block (tl ++ ext) p.
Proof.
  intros [H1 H2]. split.
  - intros s Hs. destruct (H1 s Hs) as [e He]. exists e.
    apply elem_of_app. left. exact He.
  - intros c Hc. destruct (H2 c Hc) as [s Hs]. exists s.
    apply elem_of_app. left. exact Hs.
Qed.

Lemma match_idle sc t :
  Forall (first_and_last_block (schedule sc)) (store sc) →
  Forall (first_and_last_block (schedule (go_idle t sc)))
         (store (go_idle t sc)).
Proof.
  intros H. simpl. eapply Forall_impl; [exact H|].
  intros p. apply first_last_grow.
Qed.

Lemma match_slice sc cur p pnew run :
  Forall (first_and_last_block (schedule sc)) (store sc) →
  store sc !! cur = Some p →
  pid pnew = pid p →
  start_time pnew
  = match start_time p with Some s => Some s | None => Some (time sc) end →
  (completion_time pnew = None
   ∨ completion_time pnew = Some (time sc + run)) →
  Forall (first_and_last_block
            (schedule sc ++ [(time sc, time sc + run, pid p)]))
         (<[cur := pnew]> (store sc)).
Proof.
  intros H Hp Hpid Hstart Hcomp. apply Forall_insert.
  - eapply Forall_impl; [exact H|]. intros q. apply first_last_grow.
  - pose proof (proj1 (Forall_forall _ _) H p
                  (list_elem_of_lookup_2 _ _ _ Hp)) as [H1 _].
    rewrite <- Hpid. split.
    + intros s Hs. rewrite Hstart in Hs.
      destruct (start_time p) as [s0|] eqn:E.
      * injection Hs as <-. destruct (H1 s0 eq_refl) as [e He].
        exists e. rewrite Hpid. apply elem_of_app. left. exact He.
      * injection Hs as <-. exists (time sc + run).
        apply elem_of_app. right. left.
    + intros c Hc. destruct Hcomp as [Hn|Hs]; [congruence|].
      rewrite Hs in Hc. injection Hc as <-. exists (time sc).
      apply elem_of_app. right. left.
Qed.

Section RoundRobinBlocks.
Variable procs : list nat.
Variable t0 : Z.
Hypothesis procs_nodup : NoDup procs.

Lemma rr_body_match q s :
  0 < q →
  rr_inv procs t0 [] s →
  Forall (first_and_last_block (schedule (rr_sched s))) (store (rr_sched s)) →
  Forall (first_and_last_block
            (schedule (rr_sched (rr_next_state (rr_body procs q s)))))
         (store (rr_sched (rr_next_state (rr_body procs q s)))).
Proof.
  intros Hq0 Hinv Hex. unfold rr_body, admit_arrived.
  destruct (admit_inv procs t0 procs_nodup [] (length procs - rr_i s) s Hinv)
    as (Hinv1 & Hsc1 & _ & Hpost1).
  assert (Hpost : ∀ j, procs !! rr_i (admit_while (length procs - rr_i s) procs s)
                       = Some j →
                       time (rr_sched (admit_while (length procs - rr_i s) procs s))
                       < rr_key (store (rr_sched
                                   (admit_while (length procs - rr_i s) procs s))) j)
    by (apply Hpost1; lia).
  clear Hpost1.
  set (s1 := admit_while (length procs - rr_i s) procs s) in *.
  rewrite <- Hsc1 in Hex.
  destruct (ready_queue s1) as [|cur rest] eqn:Eq.
  - destruct (procs !! rr_i s1) as [j|]; simpl; [|exact Hex].
    destruct (_ <? _); simpl; [|exact Hex].
    apply (match_idle (rr_sched s1)), Hex.
  - pose proof Hinv1 as (_ & _ & _ & _ & _ & Hqueue & _).
    destruct (Hqueue cur) as (p & r & Hp & Hpc & Hr & Hr0 & _);
      [rewrite Eq; left|].
    destruct (rr_slice_inv procs t0 procs_nodup q s1 cur rest Hq0 Hinv1 Eq Hpost)
      as (p' & r' & Hp' & Hr' & Hinv2 & _).
    rewrite Hp in Hp'. injection Hp' as <-.
    rewrite (first_dispatch_remaining _ _ _ Hr) in Hr'. injection Hr' as <-.
    destruct (first_dispatch_static (time (rr_sched s1)) p)
      as (Hpid & _ & _).
    pose proof (first_dispatch_start (time (rr_sched s1)) p r Hr) as Hstart.
    pose proof (first_dispatch_completion (time (rr_sched s1)) p) as Hcomp.
    rewrite Hp, (first_dispatch_remaining _ _ _ Hr).
    cbv zeta in Hinv2.
    set (p2 := set_remaining_time (Some (r - q `min` r))
                 (first_dispatch (time (rr_sched s1)) p)) in *.
    match type of Hinv2 with rr_inv _ _ _ ?x => set (s2 := x) in * end.
    destruct (admit_inv procs t0 procs_nodup [cur]
                (length procs - rr_i s2) s2 Hinv2)
      as (_ & Hsc3 & _).
    set (s3 := admit_while (length procs - rr_i s2) procs s2) in *.
    assert (Hp3 : store (rr_sched s3) !! cur = Some p2).
    { rewrite Hsc3. unfold s2. simpl.
      apply list_lookup_insert_eq. eapply lookup_lt_Some, Hp. }
    rewrite Hp3.
    change (remaining_time p2) with (Some (r - q `min` r)).
    cbv iota beta.
    destruct (Z.ltb_spec 0 (r - q `min` r)) as [Hpos|Hneg];
      cbn [rr_next_state rr_sched]; rewrite Hsc3; unfold s2;
      cbn [rr_sched store time schedule];
      change (pid p2) with (pid (first_dispatch (time (rr_sched s1)) p));
      rewrite Hpid.
    + apply (match_slice (rr_sched s1) cur p p2); auto.
      left. unfold p2. simpl. rewrite Hcomp. exact Hpc.
    + rewrite list_insert_insert_eq.
      apply (match_slice (rr_sched s1) cur p); auto.
Qed.

Lemma rr_loop_match q fuel s sf :
  0 < q →
  rr_inv procs t0 [] s →
  Forall (first_and_last_block (schedule (rr_sched s))) (store (rr_sched s)) →
  rr_loop fuel procs q s = (sf, Returns tt) →
  Forall (first_and_last_block (schedule (rr_sched sf)))
         (store (rr_sched sf)).
Proof.
  intros Hq0. revert s. induction fuel as [|fuel IH]; intros s Hinv Hex;
    simpl; [discriminate|].
  destruct (rr_guard procs s); [|intros [= <-]; exact Hex].
  pose proof (rr_body_inv procs t0 procs_nodup q s Hq0 Hinv) as Hb.
  pose proof (rr_body_match q s Hq0 Hinv Hex) as Hx.
  destruct (rr_body procs q s) as [s'|s'|e s']; cbn [rr_next_state] in *.
  - destruct Hb as [Hinv' _]. apply IH; [exact Hinv' | exact Hx].
  - intros [= <-]. exact Hx.
  - discriminate.
Qed.
End RoundRobinBlocks.

(** X19: On well-formed input every record of the caller's list has,
    after Round Robin, its start and completion time set, and the
    chart has a block of its pid that begins at its [start_time] and a
    block of its pid that ends at its [completion_time]. *)
Theorem round_robin_chart_brackets_records (ps : list Process) (quantum : Z) :
  well_formed ps → 0 < quantum →
  ends_with (round_robin ps quantum) (λ st tl,
    every_record ps st (bracketed tl)).
Proof.
  intros Hwf Hq.
  apply (ends_with_tied _ ps bracketed); [apply static_round_robin|].
  destruct (round_robin_run ps quantum Hwf Hq)
    as (sf & Hloop & Hnd & Hinv & (_ & Hfin & _) & E).
  exists (map derive (store (rr_sched sf))), (schedule (rr_sched sf)).
  split; [exact E|].
  assert (H : Forall (first_and_last_block (schedule (rr_sched sf)))
                     (store (rr_sched sf))).
  { eapply (rr_loop_match _ _ Hnd); [exact Hq | exact Hinv | | exact Hloop].
    unfold rr_init. cbn [snd rr_sched store schedule].
    apply Forall_forall. intros p Hp.
    apply list_elem_of_lookup in Hp as [i Hi].
    apply reset_lookup in Hi as (Hs & Hc & _).
    split; intros x Hx; congruence. }
  change (map derive (store (rr_sched sf)))
    with (derive <$> store (rr_sched sf)).
  apply Forall_fmap. rewrite Forall_forall in *. intros p Hp. simpl.
  destruct (H p Hp) as [H1 H2].
  destruct (Hfin p Hp) as (s & c & Hs & Hc & _).
  destruct (H1 s Hs) as [e He]. destruct (H2 c Hc) as [b Hb].
  assert (Epid : pid (derive p) = pid p)
    by (unfold derive; destruct (completion_time p); reflexivity).
  exists s, c, e, b. rewrite derive_start, derive_completion, Epid. auto.
Qed.

Lemma round_robin_chart_brackets_records_witness :
  well_formed ex_procs ∧ 0 < 2
  ∧ ends_with (round_robin ex_procs 2) (λ st tl,
      every_record ex_procs st (bracketed tl)).
Proof.
  split; [solve_well_formed|]. split; [lia|].
  apply round_robin_chart_brackets_records; [solve_well_formed | lia].
Defined.

(** ** Input that is not well formed *)

Lemma has_metrics_derive p :
  completion_time p ≠ None → has_metrics (derive p).
Proof.
  unfold has_metrics, derive. destruct (completion_time p) as [c|] eqn:E;
    [|congruence].
  intros _. exists c. simpl. rewrite E. auto.
Qed.

Lemma all_served_derive (ps st : list Process) :
  map static_fields st = map static_fields ps →
  (∀ i, (i < length st)%nat → done_at st i) →
  all_served ps (map derive st).
Proof.
  intros Hst Hdone. apply every_record_intro.
  - rewrite <- Hst, <- compute_metrics_store. apply static_compute_metrics.
  - change (Forall has_metrics (derive <$> st)). apply Forall_fmap.
    apply Forall_lookup. intros i p Hp. simpl. apply has_metrics_derive.
    destruct (Hdone i (lookup_lt_Some _ _ _ Hp)) as (p' & Hp' & Hc).
    congruence.
Qed.

Lemma done_at_insert st i p' j :
  completion_time p' ≠ None → done_at st j → done_at (<[i := p']> st) j.
Proof.
  intros Hc (p & Hp & Hpc). destruct (decide (i = j)) as [<-|Hne].
  - exists p'. split; [|exact Hc].
    apply list_lookup_insert_eq. eapply lookup_lt_Some, Hp.
  - exists p. rewrite list_lookup_insert_ne by exact Hne. auto.
Qed.

Lemma fcfs_body_done s a :
  length (store (fcfs_body s a)) = length (store s)
  ∧ (∀ i, done_at (store s) i → done_at (store (fcfs_body s a)) i)
  ∧ ((a < length (store s))%nat → done_at (store (fcfs_body s a)) a).
Proof.
  unfold fcfs_body. destruct (store s !! a) as [p|] eqn:Hp.
  - assert (E : store (if time s <? arrival_time p
                       then go_idle (arrival_time p) s else s) = store s)
      by (destruct (_ <? _); reflexivity).
    simpl. rewrite E, length_insert. split; [reflexivity|]. split.
    + intros i. apply done_at_insert. discriminate.
    + intros Ha. eexists. split; [apply list_lookup_insert_eq, Ha|].
      discriminate.
  - split; [reflexivity|]. split; [auto|].
    intros Ha. apply lookup_ge_None in Hp. lia.
Qed.

Lemma fcfs_loop_done todo s :
  length (store (fold_left fcfs_body todo s)) = length (store s)
  ∧ ∀ i, (i < length (store s))%nat →
         i ∈ todo ∨ done_at (store s) i →
         done_at (store (fold_left fcfs_body todo s)) i.
Proof.
  revert s. induction todo as [|a todo IH]; intros s; simpl.
  - split; [reflexivity|]. intros i _ [Hi|Hi]; [inversion Hi | exact Hi].
  - destruct (fcfs_body_done s a) as (Hlen & Hkeep & Hnew).
    destruct (IH (fcfs_body s a)) as [Hl Hd].
    split; [congruence|]. intros i Hi H. apply Hd; [lia|].
    destruct H as [[->|H]%elem_of_cons|H]; [right; auto | left; exact H|].
    right. apply Hkeep, H.
Qed.

Lemma fcfs_all_served ps :
  ends_with (fcfs ps) (λ st _, all_served ps st).
Proof.
  unfold fcfs. cbv zeta. rewrite metrics_and_return_spec.
  eexists _, _. split; [reflexivity|]. cbv beta.
  set (st := reset_processes ps).
  set (procs := sorted pair_ltb (fcfs_key st) (seq 0 (length st))).
  destruct (fcfs_loop_done procs (mkSched st 0 [])) as [Hlen Hdone].
  simpl in Hlen, Hdone. apply all_served_derive.
  - rewrite static_fcfs_loop. apply static_reset.
  - intros i Hi. rewrite Hlen in Hi. apply Hdone; [exact Hi|]. left.
    unfold procs. rewrite sorted_perm. apply elem_of_seq. lia.
Qed.

Section NonPreemptiveTotal.
Variable key : Process → Z * Z * string.
Variable n : nat.

Lemma np_step_live s c :
  np_live n s c → (c < n)%nat →
  ∃ s' c', np_step key (seq 0 n) s c = Some (s', c')
           ∧ np_live n s' c'
           ∧ (np_measure n s' c' < np_measure n s c)%nat.
Proof.
  intros (Hlen & Hcount) Hc. unfold np_step, np_measure.
  destruct (ready_list (seq 0 n) s) as [|r rs] eqn:Er.
  - set (U := List.filter (unfinished (store s)) (seq 0 n)) in *.
    destruct (min_int (arrivals (store s) U)) as [m|] eqn:Em.
    + apply min_int_spec in Em as [Hm Hmin].
      apply in_arrivals in Hm as (i & p & Hi & Hp & Ha).
      apply in_unfinished in Hi as (Hi & p1 & Hp1 & Hpc).
      rewrite Hp in Hp1. injection Hp1 as <-.
      assert (Hr' : ready_list (seq 0 n) (go_idle m s) ≠ []).
      { intros E. assert (Hr : i ∈ ready_list (seq 0 n) (go_idle m s)).
        { apply in_ready. split; [exact Hi|]. exists p. simpl.
          repeat split; auto. lia. }
        rewrite E in Hr. inversion Hr. }
      exists (go_idle m s), c. split; [reflexivity|].
      split; [split; [exact Hlen | exact Hcount]|].
      destruct (ready_list (seq 0 n) (go_idle m s)); [contradiction|lia].
    + exfalso. destruct U as [|i U'] eqn:EU; [simpl in Hcount; lia|].
      assert (Hi : i ∈ U) by (rewrite EU; left).
      apply in_unfinished in Hi as (Hi & p & Hp & Hpc).
      assert (Ha : arrival_time p ∈ arrivals (store s) (i :: U')).
      { apply in_arrivals. exists i, p. split; [left | auto]. }
      unfold min_int, py_min in Em.
      destruct (arrivals (store s) (i :: U')); [inversion Ha|discriminate].
  - set (i := min_from triple_ltb (key_at key (store s)) r rs).
    assert (Hi : i ∈ ready_list (seq 0 n) s).
    { rewrite Er.
      apply (min_from_spec triple_ltb (key_at key (store s))
               triple_ltb_irrefl triple_ltb_trans triple_ltb_total). }
    apply in_ready in Hi as (Hi & p & Hp & Hpc & Ha).
    rewrite Hp.
    exists (run_to_completion i p s), (S c). split; [reflexivity|]. split.
    + split; [simpl; rewrite length_insert; exact Hlen|].
      pose proof (filter_unfinished_finish (store s) i p
                    (set_completion_time (Some (time s + burst_time p))
                       (set_start_time (Some (time s)) p))
                    (seq 0 n) Hp Hpc) as Hf.
      simpl in Hf. simpl. rewrite <- Hf in Hcount;
        [lia | discriminate | apply NoDup_seq | exact Hi].
    + destruct (ready_list (seq 0 n) (run_to_completion i p s)); lia.
Qed.

Lemma np_loop_live fuel s c :
  np_live n s c → (np_measure n s c < fuel)%nat →
  ∃ sf, np_loop key fuel (seq 0 n) n s c = Some sf
        ∧ length (store sf) = n
        ∧ ∀ i, (i < n)%nat → done_at (store sf) i.
Proof.
  revert s c. induction fuel as [|fuel IH]; intros s c Hinv Hm; [lia|].
  simpl. destruct (Nat.ltb_spec c n) as [Hc|Hc].
  - destruct (np_step_live s c Hinv Hc) as (s' & c' & -> & Hinv' & Hdec).
    apply IH; [exact Hinv' | lia].
  - exists s. split; [reflexivity|]. destruct Hinv as [Hlen Hcount].
    split; [exact Hlen|]. intros i Hi.
    destruct (lookup_lt_is_Some_2 (store s) i) as [p Hp]; [lia|].
    exists p. split; [exact Hp|]. intros Hpc.
    assert (Hin : i ∈ List.filter (unfinished (store s)) (seq 0 n)).
    { apply in_unfinished. split; [apply elem_of_seq; lia | eauto]. }
    destruct (List.filter _ _); [inversion Hin | simpl in Hcount; lia].
Qed.
End NonPreemptiveTotal.

Lemma non_preemptive_all_served key ps :
  ends_with (non_preemptive key ps) (λ st _, all_served ps st).
Proof.
  unfold non_preemptive.
  assert (Hl : length (store (np_init ps)) = length ps)
    by (unfold np_init, reset_processes; simpl; apply length_map).
  rewrite Hl, length_seq.
  destruct (np_loop_live key (length ps) (np_fuel (length ps)) (np_init ps) 0)
    as (sf & Hloop & Hlen & Hdone).
  - split; [exact Hl|]. unfold np_init. simpl.
    rewrite filter_unfinished_reset, length_seq; [reflexivity|].
    intros i Hi. apply elem_of_seq in Hi. lia.
  - unfold np_measure, np_fuel. destruct (ready_list _ _); lia.
  - rewrite Hloop, metrics_and_return_spec.
    eexists _, _. split; [reflexivity|].
    apply all_served_derive.
    + rewrite (static_np_loop _ _ _ _ _ _ _ Hloop). apply static_reset.
    + intros i Hi. apply Hdone. lia.
Qed.

(** X20: FCFS, SJF and Priority end on every input, well formed or not:
    whatever the bursts, the arrival times and the pids, the loops
    stop and every record of the caller's list is completed, with its
    turnaround and waiting time filled in.  The call then returns its
    chart, unless an average is beyond the floats: then the division
    of its last [compute_metrics] call raises [OverflowError]. *)
Theorem every_input_is_served (ps : list Process) :
  ends_with (fcfs ps) (λ st _, all_served ps st)
  ∧ ends_with (sjf_non_preemptive ps) (λ st _, all_served ps st)
  ∧ ends_with (priority_non_preemptive ps) (λ st _, all_served ps st).
Proof.
  split; [apply fcfs_all_served|].
  split; apply non_preemptive_all_served.
Qed.

(** *** Round Robin *)

Lemma rr_weight_pos st j : (1 ≤ rr_weight st j)%nat.
Proof.
  unfold rr_weight.
  destruct (st !! j) as [p|]; [destruct (remaining_time p)|]; lia.
Qed.

Lemma rr_weight_insert_ne st i p' j :
  i ≠ j → rr_weight (<[i := p']> st) j = rr_weight st j.
Proof. intros H. unfold rr_weight. rewrite list_lookup_insert_ne; auto. Qed.

Lemma sum_weight_insert_notin st i p' l :
  i ∉ l →
  sum_list_with (rr_weight (<[i := p']> st)) l
  = sum_list_with (rr_weight st) l.
Proof.
  induction l as [|j l IH]; intros Hi; simpl; [reflexivity|].
  apply not_elem_of_cons in Hi as [Hne Hi].
  rewrite rr_weight_insert_ne, IH; auto.
Qed.

Lemma sum_weight1_insert_notin st i p' l :
  i ∉ l →
  sum_list_with (λ j, rr_weight (<[i := p']> st) j + 1)%nat l
  = sum_list_with (λ j, rr_weight st j + 1)%nat l.
Proof.
  induction l as [|j l IH]; intros Hi; simpl; [reflexivity|].
  apply not_elem_of_cons in Hi as [Hne Hi].
  rewrite rr_weight_insert_ne, IH; auto.
Qed.

Lemma sum_list_with_le {A} (f g : A → nat) l :
  (∀ x, (f x ≤ g x)%nat) → (sum_list_with f l ≤ sum_list_with g l)%nat.
Proof.
  intros H. induction l as [|x l IH]; simpl; [lia|].
  specialize (H x). lia.
Qed.

Lemma rr_weight_reset ps j :
  (rr_weight (reset_processes ps) j + 1
   ≤ burst_at (reset_processes ps) j + 2)%nat.
Proof.
  unfold rr_weight, burst_at.
  destruct (reset_processes ps !! j) as [p|] eqn:Hp; [|lia].
  apply reset_lookup in Hp as (_ & _ & ->). lia.
Qed.

Lemma done_at_insert_ne st i p' j :
  i ≠ j → done_at st j → done_at (<[i := p']> st) j.
Proof.
  intros Hne (p & Hp & Hc). exists p.
  rewrite list_lookup_insert_ne by exact Hne. auto.
Qed.

Section RoundRobinTotal.
Variable procs : list nat.
Hypothesis procs_nodup : NoDup procs.

Lemma admit_one_live fl s j p :
  rr_live procs fl s →
  procs !! rr_i s = Some j →
  store (rr_sched s) !! j = Some p →
  arrival_time p ≤ time (rr_sched s) →
  store (rr_sched (admit_one j p s)) = store (rr_sched s)
  ∧ rr_live procs fl (admit_one j p s)
  ∧ (rr_potential procs fl (admit_one j p s) ≤ rr_potential procs fl s)%nat.
Proof.
  intros (Hnd & Hadm & Hq & Hpend & Hfin) Hi Hp Ha.
  pose proof (drop_lookup_cons _ _ _ Hi) as Hdrop.
  assert (Hjd : j ∈ drop (rr_i s) procs) by (rewrite Hdrop; left).
  destruct (Hpend j Hjd) as (p' & Hp' & Hr).
  rewrite Hp in Hp'. injection Hp' as <-.
  assert (Hst : <[j := set_remaining_time (Some (burst_time p)) p]>
                  (store (rr_sched s)) = store (rr_sched s)).
  { rewrite set_remaining_same by exact Hr. apply list_insert_id, Hp. }
  assert (Hjq : j ∉ ready_queue s ++ fl).
  { intros H.
    exact (take_drop_disjoint procs (rr_i s) j procs_nodup (Hadm j H) Hjd). }
  assert (Ek : rr_key (store (rr_sched s)) j = arrival_time p)
    by (unfold rr_key; rewrite Hp; reflexivity).
  split; [exact Hst|]. unfold admit_one, rr_live, rr_potential, rr_wait.
  simpl. rewrite Hst. split.
  - split.
    { rewrite <- app_assoc. simpl.
      apply NoDup_app in Hnd as (Hn1 & Hn2 & Hn3).
      apply NoDup_app. split; [exact Hn1|]. split.
      - intros x Hx [->|Hx']%elem_of_cons.
        + apply Hjq, elem_of_app. left. exact Hx.
        + exact (Hn2 x Hx Hx').
      - apply NoDup_cons. split; [|exact Hn3].
        intros H. apply Hjq, elem_of_app. right. exact H. }
    split.
    { intros x Hx. apply (elem_of_take_S _ _ _ _ Hi).
      rewrite <- app_assoc in Hx. simpl in Hx.
      apply elem_of_app in Hx as [Hx|[->|Hx]%elem_of_cons].
      - left. apply Hadm, elem_of_app. left. exact Hx.
      - right. reflexivity.
      - left. apply Hadm, elem_of_app. right. exact Hx. }
    split.
    { intros x Hx. rewrite <- app_assoc in Hx. simpl in Hx.
      apply elem_of_app in Hx as [Hx|[->|Hx]%elem_of_cons].
      - apply Hq, elem_of_app. left. exact Hx.
      - exists p, (burst_time p). auto.
      - apply Hq, elem_of_app. right. exact Hx. }
    split.
    { intros x Hx. apply Hpend. rewrite Hdrop. right. exact Hx. }
    intros x Hx Hnx.
    apply (elem_of_take_S _ _ _ _ Hi) in Hx as [Hx| ->].
    + apply Hfin; [exact Hx|].
      intros H. apply Hnx. rewrite <- app_assoc. simpl.
      apply elem_of_app in H as [H|H]; apply elem_of_app;
        [left | right; right]; exact H.
    + exfalso. apply Hnx. rewrite <- app_assoc. apply elem_of_app.
      right. left.
  - rewrite Hi, Hdrop, Ek.
    destruct (Z.leb_spec (arrival_time p) (time (rr_sched s))); [|lia].
    rewrite !sum_list_with_app. simpl.
    destruct (procs !! S (rr_i s)); [destruct (_ <=? _)|]; lia.
Qed.

Lemma admit_live fl fuel s :
  rr_live procs fl s →
  let s' := admit_while fuel procs s in
  rr_live procs fl s'
  ∧ rr_sched s' = rr_sched s
  ∧ (rr_potential procs fl s' ≤ rr_potential procs fl s)%nat
  ∧ ((length procs ≤ fuel + rr_i s)%nat →
     ∀ j, procs !! rr_i s' = Some j →
          time (rr_sched s') < rr_key (store (rr_sched s')) j).
Proof.
  revert s. induction fuel as [|fuel IH]; intros s Hinv; simpl.
  - split; [exact Hinv|]. split; [reflexivity|]. split; [lia|].
    intros Hlen j Hj. apply lookup_lt_Some in Hj. lia.
  - destruct (procs !! rr_i s) as [j|] eqn:Hi;
      [|split; [exact Hinv|]; split; [reflexivity|]; split; [lia|];
        intros _ j Hj; congruence].
    assert (Hjd : j ∈ drop (rr_i s) procs)
      by (rewrite (drop_lookup_cons _ _ _ Hi); left).
    destruct (proj1 (proj2 (proj2 (proj2 Hinv))) j Hjd) as (p & Hp & _).
    rewrite Hp.
    destruct (Z.leb_spec (arrival_time p) (time (rr_sched s))) as [Ha|Ha].
    + destruct (admit_one_live fl s j p Hinv Hi Hp Ha) as (Hst & Hinv1 & Hm1).
      destruct (IH _ Hinv1) as (Hinv2 & Hsc2 & Hm2 & Hpost).
      split; [exact Hinv2|]. split.
      { rewrite Hsc2. unfold admit_one. simpl.
        unfold admit_one in Hst. simpl in Hst. rewrite Hst.
        destruct (rr_sched s); reflexivity. }
      split; [lia|].
      intros Hlen. apply Hpost. simpl. lia.
    + split; [exact Hinv|]. split; [reflexivity|]. split; [lia|].
      intros _ j' Hj'. rewrite Hi in Hj'. injection Hj' as <-.
      unfold rr_key. rewrite Hp. exact Ha.
Qed.

Lemma rr_idle_live s j :
  rr_live procs [] s →
  ready_queue s = [] →
  procs !! rr_i s = Some j →
  time (rr_sched s) < rr_key (store (rr_sched s)) j →
  let s' := mkRR (go_idle (rr_key (store (rr_sched s)) j) (rr_sched s))
                 (rr_i s) [] in
  rr_live procs [] s'
  ∧ (rr_potential procs [] s' < rr_potential procs [] s)%nat.
Proof.
  intros Hinv Eq Hi Hlt. simpl. split.
  - unfold rr_live in *. simpl. rewrite Eq in Hinv. exact Hinv.
  - unfold rr_potential, rr_wait. simpl. rewrite Eq, Hi. simpl.
    destruct (Z.leb_spec (rr_key (store (rr_sched s)) j)
                         (rr_key (store (rr_sched s)) j)); [|lia].
    destruct (Z.leb_spec (rr_key (store (rr_sched s)) j)
                         (time (rr_sched s))); lia.
Qed.

Lemma rr_slice_live q s cur rest :
  0 < q →
  rr_live procs [] s →
  ready_queue s = cur :: rest →
  (∀ j, procs !! rr_i s = Some j →
        time (rr_sched s) < rr_key (store (rr_sched s)) j) →
  ∃ p r,
    store (rr_sched s) !! cur = Some p
    ∧ remaining_time (first_dispatch (time (rr_sched s)) p) = Some r
    ∧ let run := Z.min q r in
      let p2 := set_remaining_time (Some (r - run))
                  (first_dispatch (time (rr_sched s)) p) in
      let s2 := mkRR (mkSched (<[cur := p2]> (store (rr_sched s)))
                              (time (rr_sched s) + run)
                              (schedule (rr_sched s)
                               ++ [(time (rr_sched s),
                                    time (rr_sched s) + run, pid p2)]))
                     (rr_i s) rest in
      rr_live procs [cur] s2
      ∧ (rr_potential procs [cur] s2 ≤ rr_potential procs [] s)%nat
      ∧ (0 < r - run →
         (rr_potential procs [cur] s2 < rr_potential procs [] s)%nat).
Proof.
  intros Hq0 (Hnd & Hadm & Hq & Hpend & Hfin) Eq Hpost.
  rewrite Eq in *. rewrite app_nil_r in *.
  destruct (Hq cur) as (p & r & Hp & Hr); [left|].
  pose proof (lookup_lt_Some _ _ _ Hp) as Hlen.
  apply NoDup_cons in Hnd as [Hcur Hnd].
  assert (Hcd : cur ∉ drop (rr_i s) procs).
  { intros H. eapply (take_drop_disjoint procs); eauto. apply Hadm. left. }
  exists p, r. split; [exact Hp|].
  split; [apply first_dispatch_remaining, Hr|].
  set (t := time (rr_sched s)) in *.
  set (pd := first_dispatch t p).
  destruct (first_dispatch_static t p) as (_ & Harr & _). fold pd in Harr.
  cbv zeta. set (run := Z.min q r).
  set (p2 := set_remaining_time (Some (r - run)) pd).
  split; [|].
  - unfold rr_live. simpl.
    split. { rewrite <- Permutation_cons_append. apply NoDup_cons. auto. }
    split.
    { intros j Hj. apply Hadm.
      apply elem_of_app in Hj as [Hj| ->%list_elem_of_singleton];
        [right; exact Hj | left]. }
    split.
    { intros j [Hj| ->%list_elem_of_singleton]%elem_of_app.
      - destruct (Hq j) as (pj & rj & Hpj & Hrj); [right; exact Hj|].
        exists pj, rj. rewrite list_lookup_insert_ne
          by (intros ->; contradiction). auto.
      - exists p2, (r - run).
        rewrite list_lookup_insert_eq by exact Hlen. auto. }
    split.
    { intros j Hj. destruct (Hpend j Hj) as (pj & Hpj & ?).
      exists pj. split; [|assumption].
      rewrite list_lookup_insert_ne; [exact Hpj|].
      intros ->. contradiction. }
    intros j Hj Hnj. apply done_at_insert_ne.
    + intros ->. apply Hnj, elem_of_app. right. left.
    + apply Hfin; [exact Hj|].
      intros [->|H]%elem_of_cons.
      * apply Hnj, elem_of_app. right. left.
      * apply Hnj, elem_of_app. left. exact H.
  - unfold rr_potential, rr_wait. simpl.
    rewrite sum_list_with_app. simpl.
    rewrite (sum_weight_insert_notin _ _ _ _ Hcur).
    rewrite (sum_weight1_insert_notin _ _ _ _ Hcd).
    assert (E1 : rr_weight (<[cur := p2]> (store (rr_sched s))) cur
                 = Z.to_nat (Z.max 1 (r - run))).
    { unfold rr_weight. rewrite list_lookup_insert_eq by exact Hlen.
      reflexivity. }
    assert (E2 : rr_weight (store (rr_sched s)) cur = Z.to_nat (Z.max 1 r))
      by (unfold rr_weight; rewrite Hp, Hr; reflexivity).
    rewrite Eq. simpl. rewrite app_nil_r, E1, E2.
    destruct (procs !! rr_i s) as [j|] eqn:Ei; [|unfold run; split; lia].
    rewrite (rr_key_insert _ _ _ p2 _ Hp)
      by (unfold p2; simpl; exact Harr).
    specialize (Hpost j eq_refl). fold t in Hpost. fold t.
    destruct (Z.leb_spec (rr_key (store (rr_sched s)) j) t); [lia|].
    destruct (Z.leb_spec (rr_key (store (rr_sched s)) j) (t + run));
      unfold run; split; lia.
Qed.

Lemma rr_requeue_live s cur :
  rr_live procs [cur] s →
  let s' := mkRR (rr_sched s) (rr_i s) (ready_queue s ++ [cur]) in
  rr_live procs [] s'
  ∧ rr_potential procs [] s' = rr_potential procs [cur] s.
Proof.
  intros Hinv. simpl.
  split; [|unfold rr_potential, rr_wait; simpl; rewrite app_nil_r;
           reflexivity].
  unfold rr_live in *. simpl. rewrite app_nil_r. exact Hinv.
Qed.

Lemma rr_complete_live s cur p :
  rr_live procs [cur] s →
  store (rr_sched s) !! cur = Some p →
  let s' := mkRR (mkSched (<[cur := set_completion_time
                                      (Some (time (rr_sched s))) p]>
                             (store (rr_sched s)))
                          (time (rr_sched s)) (schedule (rr_sched s)))
                 (rr_i s) (ready_queue s) in
  rr_live procs [] s'
  ∧ (rr_potential procs [] s' < rr_potential procs [cur] s)%nat.
Proof.
  intros (Hnd & Hadm & Hq & Hpend & Hfin) Hp. simpl.
  pose proof (lookup_lt_Some _ _ _ Hp) as Hlen.
  apply NoDup_app in Hnd as (Hnq & Hdisj & _).
  assert (Hcur : cur ∉ ready_queue s).
  { intros H. apply (Hdisj cur H). left. }
  assert (Hcd : cur ∉ drop (rr_i s) procs).
  { intros H. eapply (take_drop_disjoint procs); eauto.
    apply Hadm, elem_of_app. right. left. }
  split.
  - unfold rr_live. simpl. rewrite app_nil_r.
    split; [exact Hnq|].
    split. { intros j Hj. apply Hadm, elem_of_app. left. exact Hj. }
    split.
    { intros j Hj. destruct (Hq j) as (pj & rj & Hpj & H);
        [apply elem_of_app; left; exact Hj|].
      exists pj, rj. rewrite list_lookup_insert_ne
        by (intros ->; contradiction). auto. }
    split.
    { intros j Hj. destruct (Hpend j Hj) as (pj & Hpj & ?).
      exists pj. split; [|assumption].
      rewrite list_lookup_insert_ne; [exact Hpj|].
      intros ->. contradiction. }
    intros j Hj Hnj. destruct (decide (cur = j)) as [<-|Hne].
    + eexists. split; [apply list_lookup_insert_eq, Hlen|]. discriminate.
    + apply done_at_insert_ne; [exact Hne|]. apply Hfin; [exact Hj|].
      intros [H| ->%list_elem_of_singleton]%elem_of_app;
        [contradiction | congruence].
  - unfold rr_potential, rr_wait. simpl. rewrite app_nil_r.
    rewrite sum_list_with_app. simpl.
    rewrite (sum_weight_insert_notin _ _ _ _ Hcur).
    rewrite (sum_weight1_insert_notin _ _ _ _ Hcd).
    pose proof (rr_weight_pos (store (rr_sched s)) cur).
    destruct (procs !! rr_i s) as [j|]; [|lia].
    rewrite (rr_key_insert _ _ _ _ _ Hp) by reflexivity. lia.
Qed.

Lemma rr_body_live q s :
  0 < q →
  rr_live procs [] s →
  match rr_body procs q s with
  | RRContinue s' =>
      rr_live procs [] s'
      ∧ (rr_potential procs [] s' < rr_potential procs [] s)%nat
  | RRBreak s' => rr_live procs [] s' ∧ rr_guard procs s' = false
  | RRRaise _ _ => False
  end.
Proof.
  intros Hq0 Hinv. unfold rr_body, admit_arrived.
  destruct (admit_live [] (length procs - rr_i s) s Hinv)
    as (Hinv1 & Hsc1 & Hm1 & Hpost1).
  assert (Hpost : ∀ j, procs !! rr_i (admit_while (length procs - rr_i s) procs s)
                       = Some j →
                       time (rr_sched (admit_while (length procs - rr_i s) procs s))
                       < rr_key (store (rr_sched
                                   (admit_while (length procs - rr_i s) procs s))) j)
    by (apply Hpost1; lia).
  clear Hpost1.
  set (s1 := admit_while (length procs - rr_i s) procs s) in *.
  destruct (ready_queue s1) as [|cur rest] eqn:Eq.
  - destruct (procs !! rr_i s1) as [j|] eqn:Ei.
    + specialize (Hpost j eq_refl).
      rewrite (proj2 (Z.ltb_lt _ _) Hpost).
      destruct (rr_idle_live s1 j Hinv1 Eq Ei Hpost) as [H1 H2].
      split; [exact H1 | lia].
    + split; [exact Hinv1|]. unfold rr_guard. rewrite Eq.
      apply lookup_ge_None in Ei.
      destruct (Nat.ltb_spec (rr_i s1) (length procs)); [lia | reflexivity].
  - destruct (rr_slice_live q s1 cur rest Hq0 Hinv1 Eq Hpost)
      as (p & r & Hp & Hr & Hinv2 & Hm2 & Hm2').
    rewrite Hp, Hr. cbv zeta in Hinv2, Hm2, Hm2'.
    set (p2 := set_remaining_time (Some (r - q `min` r))
                 (first_dispatch (time (rr_sched s1)) p)) in *.
    match type of Hinv2 with rr_live _ _ ?x => set (s2 := x) in * end.
    destruct (admit_live [cur] (length procs - rr_i s2) s2 Hinv2)
      as (Hinv3 & Hsc3 & Hm3 & _).
    set (s3 := admit_while (length procs - rr_i s2) procs s2) in *.
    assert (Hp3 : store (rr_sched s3) !! cur = Some p2).
    { rewrite Hsc3. unfold s2. simpl.
      apply list_lookup_insert_eq. eapply lookup_lt_Some, Hp. }
    rewrite Hp3.
    change (remaining_time p2) with (Some (r - q `min` r)).
    cbv iota beta.
    destruct (Z.ltb_spec 0 (r - q `min` r)) as [Hpos|Hneg].
    + destruct (rr_requeue_live s3 cur Hinv3) as [H1 H2].
      specialize (Hm2' Hpos). split; [exact H1 | lia].
    + destruct (rr_complete_live s3 cur p2 Hinv3 Hp3) as [H1 H2].
      split; [exact H1 | lia].
Qed.

Lemma rr_loop_live q fuel s :
  0 < q →
  rr_live procs [] s →
  (rr_potential procs [] s < fuel)%nat →
  ∃ sf, rr_loop fuel procs q s = (sf, Returns tt)
        ∧ rr_live procs [] sf ∧ rr_guard procs sf = false.
Proof.
  intros Hq0. revert s. induction fuel as [|fuel IH]; intros s Hinv Hm;
    [lia|].
  simpl. destruct (rr_guard procs s) eqn:Eg; [|eauto].
  pose proof (rr_body_live q s Hq0 Hinv) as Hb.
  destruct (rr_body procs q s) as [s'|s'|e s'].
  - destruct Hb as [Hinv' Hdec]. apply IH; [exact Hinv' | lia].
  - destruct Hb as [Hinv' Hg]. eauto.
  - contradiction.
Qed.
End RoundRobinTotal.

Lemma round_robin_all_served ps q :
  0 < q → ends_with (round_robin ps q) (λ st _, all_served ps st).
Proof.
  intros Hq. unfold round_robin.
  destruct (Z.leb_spec q 0) as [?|_]; [lia|].
  destruct (rr_init ps) as [procs s0] eqn:Einit.
  assert (Hs0 : store (rr_sched s0) = reset_processes ps
                ∧ procs ≡ₚ seq 0 (length (reset_processes ps))
                ∧ rr_i s0 = 0%nat ∧ ready_queue s0 = []
                ∧ match procs !! 0%nat with
                  | Some j => time (rr_sched s0) = rr_key (reset_processes ps) j
                  | None => True
                  end).
  { unfold rr_init in Einit. injection Einit as <- <-. simpl.
    split; [reflexivity|]. split; [apply sorted_perm|].
    split; [reflexivity|]. split; [reflexivity|].
    destruct (_ !! 0%nat); auto. }
  destruct Hs0 as (Hst & Hperm & Hi0 & Hq0 & Ht0).
  assert (Hnd : NoDup procs) by (rewrite Hperm; apply NoDup_seq).
  assert (Hrl : length (reset_processes ps) = length ps)
    by (unfold reset_processes; apply length_map).
  assert (Hinv : rr_live procs [] s0).
  { unfold rr_live. rewrite Hi0, Hq0, Hst. simpl.
    split; [constructor|].
    split; [intros j Hj; inversion Hj|].
    split; [intros j Hj; inversion Hj|].
    split; [|intros j Hj; inversion Hj].
    intros j Hj. rewrite drop_0, Hperm in Hj. apply elem_of_seq in Hj.
    destruct (lookup_lt_is_Some_2 (reset_processes ps) j) as [p Hp]; [lia|].
    exists p. split; [exact Hp|]. apply reset_lookup in Hp. tauto. }
  destruct (rr_loop_live procs Hnd q
              (rr_fuel procs (store (rr_sched s0))) s0 Hq Hinv)
    as (sf & Hloop & Hinvf & Hg).
  { unfold rr_potential, rr_fuel, rr_wait. rewrite Hi0, Hq0. simpl.
    rewrite drop_0, Hst.
    pose proof (sum_list_with_le
                  (λ j, rr_weight (reset_processes ps) j + 1)%nat
                  (λ j, burst_at (reset_processes ps) j + 2)%nat procs
                  (rr_weight_reset ps)) as Hle.
    destruct (procs !! 0%nat) as [j|]; [|lia].
    rewrite Ht0, Z.leb_refl. lia. }
  rewrite Hloop, metrics_and_return_spec.
  eexists _, _. split; [reflexivity|]. cbv beta.
  pose proof (static_rr_loop (rr_fuel procs (store (rr_sched s0))) procs q s0)
    as Hsf.
  rewrite Hloop in Hsf. simpl in Hsf.
  apply all_served_derive; [rewrite Hsf, Hst; apply static_reset|].
  apply (f_equal length) in Hsf. rewrite !length_map in Hsf.
  intros i Hi.
  destruct Hinvf as (_ & _ & _ & _ & Hfin).
  unfold rr_guard in Hg. apply orb_false_iff in Hg as [Hig Hqe].
  apply Nat.ltb_ge in Hig.
  destruct (ready_queue sf) as [|x l] eqn:Eq; [|discriminate].
  simpl in Hfin. apply Hfin; [|apply not_elem_of_nil].
  rewrite take_ge by exact Hig. rewrite Hperm. apply elem_of_seq.
  rewrite Hsf, Hst in Hi. lia.
Qed.

(** X21: With a positive quantum Round Robin ends on every input, well
    formed or not: no burst, arrival time or pid makes the loop run
    on, and every record of the caller's list is completed, with its
    turnaround and waiting time filled in.  The call then returns its
    chart, unless an average is beyond the floats: then the division
    of its last [compute_metrics] call raises [OverflowError]. *)
Theorem round_robin_serves_every_input (ps : list Process) (quantum : Z) :
  0 < quantum →
  ends_with (round_robin ps quantum) (λ st _, all_served ps st).
Proof. apply round_robin_all_served. Qed.

Lemma round_robin_serves_every_input_witness :
  0 < 2
  ∧ ends_with (round_robin ex_odd 2) (λ st _, all_served ex_odd st).
Proof.
  split; [lia|]. apply round_robin_serves_every_input. lia.
Defined.
